(** * Device emulation passes of the Braket SDK: a shallow embedding

    The development follows the Python sources:
    - [braket/aws/aws_emulation.py]: the per-family builders of the
      connectivity and gate-connectivity validators, of the routing and
      nativization passes and of the analog constants record;
    - [braket/emulators/emulator_passes/criteria/gate_connectivity_criterion.py]:
      the verbatim-box scan of gate-connectivity validation;
    - [braket/emulation/emulation_passes/ahs_passes/device_validators]:
      the boundary-value and row checks of analog programs;
    - [braket/emulation/emulation_passes/ahs_passes/ahs_noisy_pass.py]:
      the noise injector.

    Conventions.  Python dictionaries are insertion-ordered association
    lists, so that iteration order is the one of the interpreter.  Objects
    that are shared by reference (networkx graphs) live in a store indexed by
    locations.  Exceptions are values of [exn]; a computation that can raise
    returns a [result].  The constants of a device and the values of a
    validated series are exact rationals [Q], compared with [==].  The
    coordinates of the sites are Python numbers with the arithmetic of
    their kind: [int], binary64 [float], or [Decimal] in the default
    context of 28 digits.  The noise injector computes on binary64 numbers,
    which are the primitive floats; where the specification speaks of what
    its formulas solve, the same expressions are read over [Q]. *)

From Stdlib Require Import QArith Qfield Qabs Floats.
From stdpp Require Import gmap strings list fin_maps pretty sorting.
Close Scope Q_scope.

(** ** Exceptions and results *)

(** The pieces of a formatted message (an f-string): literal text and the
    values interpolated into it. *)
Inductive frag :=
  | Lit (s : string)
  | Int (n : Z)
  | Dec (q : Q)
  | Pt (x y : Q).

Inductive exn :=
  | NotImplementedError
  | RuntimeError (msg : string)
  | KeyError
  | IndexError
  | ReferenceError
  | ValidationError
  | ValueError (msg : list frag).

Definition result (A : Type) : Type := exn + A.

Global Instance result_ret : MRet result := λ A x, inr x.
Global Instance result_bind : MBind result :=
  λ A B f m, match m with inl e => inl e | inr x => f x end.

Definition raise {A} (e : exn) : result A := inl e.

(** [x < y] on exact numbers. *)
Definition Qltb (x y : Q) : bool := negb (Qle_bool y x).

Definition dict_changed : exn :=
  RuntimeError "dictionary changed size during iteration".

(** ** Insertion-ordered dictionaries *)

Module Dict.
Section dict.
Context {K V : Type} `{EqDecision K}.

Fixpoint get (d : list (K * V)) (k : K) : option V :=
  match d with
  | [] => None
  | (k', v) :: d' => if decide (k' = k) then Some v else get d' k
  end.

(** [d[k] = v]: an existing key keeps its position, a new key goes last. *)
Fixpoint set (d : list (K * V)) (k : K) (v : V) : list (K * V) :=
  match d with
  | [] => [(k, v)]
  | (k', v') :: d' =>
      if decide (k' = k) then (k', v) :: d' else (k', v') :: set d' k v
  end.

Definition keys (d : list (K * V)) : list K := d.*1.

Lemma get_set_eq d k v : get (set d k v) k = Some v.
Proof.
  induction d as [|[k' v'] d IH]; simpl.
  - by rewrite decide_True.
  - destruct (decide (k' = k)) as [->|Hne]; simpl.
    + by rewrite decide_True.
    + by rewrite decide_False.
Qed.

Lemma get_set_ne d k k' v : k ≠ k' → get (set d k v) k' = get d k'.
Proof.
  intros Hne. induction d as [|[k0 v0] d IH]; simpl.
  - by rewrite decide_False.
  - destruct (decide (k0 = k)) as [->|Hk]; simpl.
    + by rewrite !decide_False.
    + by rewrite IH.
Qed.

Lemma keys_set_present d k v :
  is_Some (get d k) → keys (set d k v) = keys d.
Proof.
  unfold keys. induction d as [|[k' v'] d IH]; simpl.
  - by intros [? ?].
  - destruct (decide (k' = k)) as [->|Hne]; [done|].
    intros H. rewrite fmap_cons. f_equal. by apply IH.
Qed.

Lemma keys_set_absent d k v :
  get d k = None → keys (set d k v) = keys d ++ [k].
Proof.
  unfold keys. induction d as [|[k' v'] d IH]; simpl; [done|].
  destruct (decide (k' = k)) as [->|Hne]; [done|].
  intros H. rewrite fmap_cons. simpl. f_equal. by apply IH.
Qed.

Lemma elem_of_keys d k : k ∈ keys d ↔ is_Some (get d k).
Proof.
  unfold keys. induction d as [|[k' v'] d IH].
  - simpl. split; [by intros ?%elem_of_nil | by intros [? ?]].
  - rewrite fmap_cons, elem_of_cons, IH. simpl.
    destruct (decide (k' = k)) as [->|Hne]; [by split; eauto|].
    split; [by intros [?|?] | by right].
Qed.

Lemma length_set_present d k v :
  is_Some (get d k) → length (set d k v) = length d.
Proof.
  intros H. pose proof (keys_set_present d k v H) as E.
  apply (f_equal length) in E. unfold keys in E.
  by rewrite !length_fmap in E.
Qed.
End dict.
End Dict.

(** ** networkx directed graphs *)

(** Qubits are the integer node labels of the device topology. *)
Abbreviation node := Z.

(** An edge data dictionary maps attribute names to sets of gate names; the
    only attribute the builders read or write is ["supported_gates"]. *)
Abbreviation attrs := (gmap string (gset string)).

(** [DiGraph._adj]: node -> successor -> edge data, both levels in insertion
    order.  networkx keeps [_node] and [_pred] with the same keys as [_adj];
    they are never read on their own by the code modelled here. *)
Record DiGraph := mkDiGraph { adj : list (node * list (node * attrs)) }.

Module nx.

Definition empty : DiGraph := mkDiGraph [].

(** [G._adj[u]], the empty dictionary standing for a missing node. *)
Definition succ (g : DiGraph) (u : node) : list (node * attrs) :=
  default [] (Dict.get (adj g) u).

(** [n in G]. *)
Definition has_node (g : DiGraph) (n : node) : bool :=
  bool_decide (is_Some (Dict.get (adj g) n)).

(** The data dictionary of edge [(u, v)], if the edge exists. *)
Definition edge_data (g : DiGraph) (u v : node) : option attrs :=
  d ← Dict.get (adj g) u; Dict.get d v.

(** [G.has_edge(u, v)] and [(u, v) in G.edges]. *)
Definition has_edge (g : DiGraph) (u v : node) : bool :=
  bool_decide (is_Some (edge_data g u v)).

(** [G[u][v].get(key)] on an existing edge. *)
Definition edge_attr (g : DiGraph) (u v : node) (key : string)
  : option (gset string) :=
  d ← edge_data g u v; d !! key.

(** [G.add_node(n)] without attributes. *)
Definition add_node (g : DiGraph) (n : node) : DiGraph :=
  if has_node g n then g else mkDiGraph (adj g ++ [(n, [])]).

(** [G.add_edge(u, v, **attr)]: both end points become nodes, the data
    dictionary of the edge is created if needed and updated with [attr]. *)
Definition add_edge (g : DiGraph) (u v : node) (attr : attrs) : DiGraph :=
  let g2 := add_node (add_node g u) v in
  let datadict := default ∅ (edge_data g2 u v) in
  mkDiGraph (Dict.set (adj g2) u (Dict.set (succ g2 u) v (attr ∪ datadict))).

(** [G[u][v][key] = value]; a missing node or edge is a [KeyError]. *)
Definition set_edge_attr (g : DiGraph) (u v : node) (key : string)
    (value : gset string) : result DiGraph :=
  match Dict.get (adj g) u with
  | None => raise KeyError
  | Some d =>
      match Dict.get d v with
      | None => raise KeyError
      | Some datadict =>
          mret (mkDiGraph
                  (Dict.set (adj g) u (Dict.set d v (<[key := value]> datadict))))
      end
  end.

(** [G[u][v][key]]; a missing node, edge or attribute is a [KeyError]. *)
Definition get_edge_attr (g : DiGraph) (u v : node) (key : string)
  : result (gset string) :=
  match edge_attr g u v key with
  | Some s => mret s
  | None => raise KeyError
  end.

(** [list(G.edges)]: grouped by source node, in insertion order. *)
Definition edges (g : DiGraph) : list (node * node) :=
  u ← Dict.keys (adj g); (λ v, (u, v)) <$> Dict.keys (succ g u).

(** Iteration over the keys of a live dictionary: [ks] are the keys still to
    come and [n0] the size of the dictionary when the iterator was created.
    The interpreter compares the size on every call of [next], so after each
    run of the body. *)
Fixpoint dict_iter {S K : Type} (size : S → nat) (body : K → S → result S)
    (ks : list K) (n0 : nat) (s : S) : result S :=
  match ks with
  | [] => mret s
  | k :: ks' =>
      s' ← body k s;
      if decide (size s' = n0) then dict_iter size body ks' n0 s'
      else raise dict_changed
  end.

(** [for u, v in G.edges: body], the graph being mutated by the body.
    [OutEdgeView.__iter__] is
    [for n, nbrs in self._adjdict.items(): for nbr in nbrs: yield (n, nbr)]:
    the outer iterator is created on [_adj] when the loop starts, the inner
    one on [_adj[n]] when node [n] is reached. *)
Definition for_edges (body : node → node → DiGraph → result DiGraph)
    (g : DiGraph) : result DiGraph :=
  dict_iter (λ g, length (adj g))
    (λ u g, dict_iter (λ g, length (succ g u)) (body u)
              (Dict.keys (succ g u)) (length (succ g u)) g)
    (Dict.keys (adj g)) (length (adj g)) g.

End nx.

(** ** The object store *)

Abbreviation loc := positive.
Abbreviation heap := (gmap loc DiGraph).

(** Computations on the store that may raise.  The store survives an
    exception. *)
Definition M (A : Type) : Type := heap → result A * heap.

Global Instance M_ret : MRet M := λ A x h, (inr x, h).
Global Instance M_bind : MBind M :=
  λ A B f m h, match m h with
               | (inl e, h') => (inl e, h')
               | (inr x, h') => f x h'
               end.

Definition throw {A} (e : exn) : M A := λ h, (inl e, h).

(** [G.copy()]: a new graph object with the same nodes and edges and with
    fresh edge data dictionaries holding the same attribute values. *)
Definition graph_copy (l : loc) : M loc :=
  λ h, match h !! l with
       | None => (inl ReferenceError, h)
       | Some g => let l' := fresh (dom h) in (inr l', <[l' := g]> h)
       end.

(** Run a graph algorithm that mutates the object at [l].  When the algorithm
    raises, the object is a local of the builder that no caller can reach:
    its partially updated content is not recorded. *)
Definition in_place (l : loc) (f : DiGraph → result DiGraph) : M unit :=
  λ h, match h !! l with
       | None => (inl ReferenceError, h)
       | Some g =>
           match f g with
           | inl e => (inl e, h)
           | inr g' => (inr (), <[l := g']> h)
           end
       end.

(** ** Device capabilities *)

(** The schema class of a capabilities object, on which [singledispatch]
    selects the implementation. *)
Inductive schema_type :=
  | DeviceCapabilities_base
  | IonqDeviceCapabilities
  | IqmDeviceCapabilities
  | RigettiDeviceCapabilities
  | QueraDeviceCapabilities.

Global Instance schema_type_eq_dec : EqDecision schema_type.
Proof. solve_decision. Defined.

(** The fields of a gate-model capabilities object that the builders read.
    [twoQubitProperties] maps an edge key ["u-v"] to the [gateName]s of its
    [twoQubitGateFidelity] entries. *)
Record DeviceCapabilities := mkDeviceCapabilities {
  schema : schema_type;
  qubitCount : Z;
  supportedOperations : list string;
  nativeGateSet : list string;
  twoQubitProperties : gmap string (list string)
}.

(** Modelled from the spec: the validator and pass classes of
    [braket.emulation.emulation_passes.gate_device_passes] are not among the
    sources.  As [GateConnectivityCriterion.__init__] does for a [DiGraph]
    with the default [directed=True], each constructor keeps the reference to
    the graph it is given and does not touch the graph. *)
Record ConnectivityValidator := mkConnectivityValidator { cv_graph : loc }.
Record GateConnectivityValidator :=
  mkGateConnectivityValidator { gcv_graph : loc }.
Record LexiRoutingPass := mkLexiRoutingPass { lexi_graph : loc }.

(** The pytket passes listed by [create_nativization_pass]. *)
Inductive tket_pass :=
  | DecomposeBRIDGE
  | DecomposeSWAPtoCX (architecture : list (node * node))
  | OptimisePostRouting
  | RemoveRedundancies
  | SimplifyInitial
  | auto_rebase_pass (gateset : list string)
  | SquashRzPhasedX
  | virtualize_rz_pass.

Inductive CompilerPass :=
  | NoOpPass
  | TketCompilerPass (passes : list tket_pass).

(** ** aws_emulation.py *)

Module aws_emulation.

(** The loop [for edge in G.edges: G.add_edge(edge[1], edge[0])]. *)
Definition add_back_edges (g : DiGraph) : result DiGraph :=
  nx.for_edges (λ u v g, mret (nx.add_edge g v u ∅)) g.

Definition _connectivity_validator (properties : DeviceCapabilities)
    (connectivity_graph : loc) : M ConnectivityValidator :=
  match schema properties with
  | IqmDeviceCapabilities =>
      connectivity_graph ← graph_copy connectivity_graph;
      _ ← in_place connectivity_graph add_back_edges;
      mret (mkConnectivityValidator connectivity_graph)
  | _ => mret (mkConnectivityValidator connectivity_graph)
  end.

Definition connectivity_validator (properties : DeviceCapabilities)
    (connectivity_graph : loc) : M ConnectivityValidator :=
  _connectivity_validator properties connectivity_graph.

Definition _get_qpu_gate_translation (properties : DeviceCapabilities)
    (gate_name : string) : string :=
  match schema properties with
  | RigettiDeviceCapabilities =>
      let translations : gmap string string := {["CPHASE" := "CPhaseShift"]} in
      default gate_name (translations !! gate_name)
  | IonqDeviceCapabilities =>
      let translations : gmap string string :=
        <["GPI" := "GPi"]> {["GPI2" := "GPi2"]} in
      default gate_name (translations !! gate_name)
  | _ => gate_name
  end.

(** The list branch of [_get_qpu_gate_translations]. *)
Definition _get_qpu_gate_translations (properties : DeviceCapabilities)
    (gate_name : list string) : list string :=
  _get_qpu_gate_translation properties <$> gate_name.

(** ["-".join([str(qubit) for qubit in (u, v)])] *)
Definition edge_key (u v : node) : string := pretty u +:+ "-" +:+ pretty v.

(** Body of the first loop of the Rigetti/IQM gate-connectivity builder. *)
Definition populate_edge (properties : DeviceCapabilities) (u v : node)
    (g : DiGraph) : result DiGraph :=
  match twoQubitProperties properties !! edge_key u v with
  | None => nx.set_edge_attr g u v "supported_gates" ∅
  | Some gate_names =>
      let edge_supported_gates :=
        _get_qpu_gate_translations properties gate_names in
      nx.set_edge_attr g u v "supported_gates" (list_to_set edge_supported_gates)
  end.

(** Body of the second loop: the reversed edge is added, or overwritten,
    when it is missing or carries no gate. *)
Definition synthesize_back_edge (u v : node) (g : DiGraph) : result DiGraph :=
  if negb (nx.has_edge g v u)
     || bool_decide (nx.edge_attr g v u "supported_gates" ∈ [None; Some ∅])
  then
    s ← nx.get_edge_attr g u v "supported_gates";
    mret (nx.add_edge g v u {["supported_gates" := s]})
  else mret g.

Definition populate_forward (properties : DeviceCapabilities) (g : DiGraph)
  : result DiGraph :=
  nx.for_edges (populate_edge properties) g.

Definition synthesize_back_edges (g : DiGraph) : result DiGraph :=
  nx.for_edges synthesize_back_edge g.

Definition rigetti_iqm_gate_connectivity (properties : DeviceCapabilities)
    (g : DiGraph) : result DiGraph :=
  g1 ← populate_forward properties g; synthesize_back_edges g1.

Definition ionq_gate_connectivity (properties : DeviceCapabilities)
    (g : DiGraph) : result DiGraph :=
  let native_gates :=
    _get_qpu_gate_translations properties (nativeGateSet properties) in
  nx.for_edges
    (λ u v g, nx.set_edge_attr g u v "supported_gates" (list_to_set native_gates))
    g.

Definition _gate_connectivity_validator (properties : DeviceCapabilities)
    (connectivity_graph : loc) : M GateConnectivityValidator :=
  match schema properties with
  | IqmDeviceCapabilities | RigettiDeviceCapabilities =>
      gate_connectivity_graph ← graph_copy connectivity_graph;
      _ ← in_place gate_connectivity_graph
            (rigetti_iqm_gate_connectivity properties);
      mret (mkGateConnectivityValidator gate_connectivity_graph)
  | IonqDeviceCapabilities =>
      gate_connectivity_graph ← graph_copy connectivity_graph;
      _ ← in_place gate_connectivity_graph (ionq_gate_connectivity properties);
      mret (mkGateConnectivityValidator gate_connectivity_graph)
  | _ => throw NotImplementedError
  end.

Definition gate_connectivity_validator (properties : DeviceCapabilities)
    (connectivity_graph : loc) : M GateConnectivityValidator :=
  _gate_connectivity_validator properties connectivity_graph.

Definition _lexi_mapping_routing_pass (properties : DeviceCapabilities)
    (connectivity_graph : loc) : M LexiRoutingPass :=
  match schema properties with
  | RigettiDeviceCapabilities | IonqDeviceCapabilities =>
      mret (mkLexiRoutingPass connectivity_graph)
  | IqmDeviceCapabilities =>
      connectivity_graph ← graph_copy connectivity_graph;
      _ ← in_place connectivity_graph add_back_edges;
      mret (mkLexiRoutingPass connectivity_graph)
  | _ => throw NotImplementedError
  end.

Definition lexi_mapping_routing_pass (properties : DeviceCapabilities)
    (connectivity_graph : loc) : M LexiRoutingPass :=
  _lexi_mapping_routing_pass properties connectivity_graph.

(** [list(G.edges)] of the object at [l]. *)
Definition edge_list (l : loc) : M (list (node * node)) :=
  λ h, match h !! l with
       | None => (inl ReferenceError, h)
       | Some g => (inr (nx.edges g), h)
       end.

Definition create_nativization_pass (properties : DeviceCapabilities)
    (connectivity_graph : loc) : M CompilerPass :=
  match schema properties with
  | IqmDeviceCapabilities =>
      connectivity_graph ← graph_copy connectivity_graph;
      _ ← in_place connectivity_graph add_back_edges;
      iqm_architecture ← edge_list connectivity_graph;
      let tket_passes :=
        [ DecomposeBRIDGE;
          DecomposeSWAPtoCX iqm_architecture;
          OptimisePostRouting;
          RemoveRedundancies;
          SimplifyInitial;
          auto_rebase_pass ["CZ"; "PhasedX"; "Rz"];
          SquashRzPhasedX;
          virtualize_rz_pass ] in
      mret (TketCompilerPass tket_passes)
  | _ => mret NoOpPass
  end.

End aws_emulation.

(** * Properties of the graph operations *)

Section dict_more.
Context {K V : Type} `{EqDecision K}.

Lemma dict_get_app (d1 d2 : list (K * V)) k :
  Dict.get (d1 ++ d2) k =
  match Dict.get d1 k with Some v => Some v | None => Dict.get d2 k end.
Proof.
  induction d1 as [|[k' v'] d1 IH]; simpl; [done|].
  by destruct (decide (k' = k)).
Qed.

Lemma dict_length_keys (d : list (K * V)) : length (Dict.keys d) = length d.
Proof. unfold Dict.keys. by rewrite length_fmap. Qed.
End dict_more.

Module nx_facts.
Import nx.

(** [edge g u v]: the graph has the directed edge [(u, v)]. *)
Definition edge (g : DiGraph) (u v : node) : Prop := is_Some (edge_data g u v).

Lemma has_edge_true g u v : has_edge g u v = true ↔ edge g u v.
Proof. unfold has_edge. by rewrite bool_decide_eq_true. Qed.

Lemma has_edge_false g u v : has_edge g u v = false ↔ ¬ edge g u v.
Proof. unfold has_edge. by rewrite bool_decide_eq_false. Qed.

Lemma get_succ g u v : Dict.get (succ g u) v = edge_data g u v.
Proof.
  unfold succ, edge_data. by destruct (Dict.get (adj g) u).
Qed.

Lemma elem_of_succ_keys g u v : v ∈ Dict.keys (succ g u) ↔ edge g u v.
Proof. by rewrite Dict.elem_of_keys, get_succ. Qed.

Lemma edge_node g u v : edge g u v → u ∈ Dict.keys (adj g).
Proof.
  unfold edge, edge_data. rewrite Dict.elem_of_keys.
  destruct (Dict.get (adj g) u); [eauto | by intros [? ?]].
Qed.

Lemma elem_of_edges g u v : (u, v) ∈ edges g ↔ edge g u v.
Proof.
  unfold edges. rewrite list_elem_of_bind. split.
  - intros (u' & Hv & Hu). apply list_elem_of_fmap in Hv as (w & [= <- <-] & Hw).
    by apply elem_of_succ_keys.
  - intros He. exists u. split; [|by eapply edge_node].
    apply list_elem_of_fmap. exists v. split; [done|].
    by apply elem_of_succ_keys.
Qed.

(** *** [add_node] *)

Lemma get_adj_add_node g n u :
  Dict.get (adj (add_node g n)) u =
  match Dict.get (adj g) u with
  | Some d => Some d
  | None => if decide (n = u) then Some [] else None
  end.
Proof.
  unfold add_node, has_node. case_bool_decide as Hn; simpl.
  - destruct (Dict.get (adj g) u) eqn:E; [done|].
    destruct (decide (n = u)) as [->|]; [|done].
    rewrite E in Hn. by destruct Hn.
  - rewrite dict_get_app. simpl. by destruct (Dict.get (adj g) u).
Qed.

Lemma edge_data_add_node g n u v :
  edge_data (add_node g n) u v = edge_data g u v.
Proof.
  unfold edge_data. rewrite get_adj_add_node.
  destruct (Dict.get (adj g) u); [done|]. by case_decide.
Qed.

Lemma succ_add_node g n u : succ (add_node g n) u = succ g u.
Proof.
  unfold succ. rewrite get_adj_add_node.
  destruct (Dict.get (adj g) u); [done|]. by case_decide.
Qed.

Lemma get_adj_add_node_self g n : is_Some (Dict.get (adj (add_node g n)) n).
Proof.
  rewrite get_adj_add_node. destruct (Dict.get (adj g) n); [eauto|].
  rewrite decide_True by done. eauto.
Qed.

Lemma add_node_present g n : is_Some (Dict.get (adj g) n) → add_node g n = g.
Proof.
  intros H. unfold add_node, has_node. by rewrite bool_decide_eq_true_2.
Qed.

(** *** [add_edge] *)

Lemma edge_data_add_edge g a b attr u v :
  edge_data (add_edge g a b attr) u v =
  if decide (a = u ∧ b = v) then Some (attr ∪ default ∅ (edge_data g a b))
  else edge_data g u v.
Proof.
  unfold add_edge. set (g2 := add_node (add_node g a) b).
  assert (Hd : ∀ x y, edge_data g2 x y = edge_data g x y).
  { intros. unfold g2. by rewrite !edge_data_add_node. }
  unfold edge_data at 1. simpl.
  destruct (decide (a = u)) as [<-|Hne].
  - rewrite Dict.get_set_eq. simpl.
    destruct (decide (b = v)) as [<-|Hb].
    + rewrite Dict.get_set_eq, decide_True by done. by rewrite Hd.
    + rewrite Dict.get_set_ne, get_succ, Hd by done.
      rewrite decide_False; [done|by intros [_ ?]].
  - rewrite Dict.get_set_ne by done. fold (edge_data g2 u v).
    rewrite Hd, decide_False; [done|by intros [? _]].
Qed.

Lemma edge_add_edge g a b attr u v :
  edge (add_edge g a b attr) u v ↔ (a = u ∧ b = v) ∨ edge g u v.
Proof.
  unfold edge. rewrite edge_data_add_edge. case_decide; [|tauto].
  split; [by left | by eauto].
Qed.

Lemma succ_add_edge_ne g a b attr u :
  a ≠ u → succ (add_edge g a b attr) u = succ g u.
Proof.
  intros Hne. unfold add_edge, succ at 1. simpl.
  rewrite Dict.get_set_ne by done.
  fold (succ (add_node (add_node g a) b) u). by rewrite !succ_add_node.
Qed.

Lemma length_succ_add_edge g a b attr u :
  a ≠ u ∨ edge g a b →
  length (succ (add_edge g a b attr) u) = length (succ g u).
Proof.
  destruct (decide (a = u)) as [<-|Hne].
  - intros [?|He]; [done|].
    unfold add_edge, succ at 1. simpl. rewrite Dict.get_set_eq. simpl.
    rewrite Dict.length_set_present.
    + by rewrite !succ_add_node.
    + by rewrite get_succ, !edge_data_add_node.
  - intros _. by rewrite succ_add_edge_ne.
Qed.

Lemma length_adj_add_edge g a b attr :
  is_Some (Dict.get (adj g) a) → is_Some (Dict.get (adj g) b) →
  length (adj (add_edge g a b attr)) = length (adj g).
Proof.
  intros Ha Hb. unfold add_edge.
  rewrite (add_node_present g a Ha), (add_node_present g b Hb). simpl.
  by rewrite Dict.length_set_present.
Qed.

Lemma edge_target_node g u v :
  edge g u v → is_Some (Dict.get (adj g) u).
Proof.
  unfold edge, edge_data. destruct (Dict.get (adj g) u); [eauto|].
  by intros [? ?].
Qed.

(** *** [set_edge_attr] *)

Lemma set_edge_attr_ok g u v key value :
  edge g u v → ∃ g', set_edge_attr g u v key value = inr g'.
Proof.
  unfold edge, edge_data, set_edge_attr.
  destruct (Dict.get (adj g) u) as [d|]; simpl; [|by intros [? ?]].
  destruct (Dict.get d v); [eauto | by intros [? ?]].
Qed.

Lemma edge_data_set_edge_attr g u v key value g' a b :
  set_edge_attr g u v key value = inr g' →
  edge_data g' a b =
  if decide (u = a ∧ v = b) then <[key := value]> <$> edge_data g u v
  else edge_data g a b.
Proof.
  unfold set_edge_attr, edge_data.
  destruct (Dict.get (adj g) u) as [d|] eqn:Ed; [|done].
  destruct (Dict.get d v) as [dd|] eqn:Edd; [|done].
  intros [= <-]. simpl.
  destruct (decide (u = a)) as [<-|Hne].
  - rewrite Dict.get_set_eq, Ed. simpl.
    destruct (decide (v = b)) as [<-|Hb].
    + rewrite Dict.get_set_eq, decide_True, Edd by done. done.
    + rewrite Dict.get_set_ne by done. rewrite decide_False; [done|by intros [_ ?]].
  - rewrite Dict.get_set_ne by done. rewrite decide_False; [done|by intros [? _]].
Qed.

Lemma edge_set_edge_attr g u v key value g' a b :
  set_edge_attr g u v key value = inr g' → edge g' a b ↔ edge g a b.
Proof.
  intros H. unfold edge. rewrite (edge_data_set_edge_attr _ _ _ _ _ _ a b H).
  case_decide as Huv; [|done]. destruct Huv as [<- <-].
  by rewrite fmap_is_Some.
Qed.

Lemma adj_keys_set_edge_attr g u v key value g' :
  set_edge_attr g u v key value = inr g' →
  Dict.keys (adj g') = Dict.keys (adj g) ∧
  ∀ n, Dict.keys (succ g' n) = Dict.keys (succ g n).
Proof.
  unfold set_edge_attr.
  destruct (Dict.get (adj g) u) as [d|] eqn:Ed; [|done].
  destruct (Dict.get d v) as [dd|] eqn:Edd; [|done].
  intros [= <-]. simpl. split.
  - by rewrite Dict.keys_set_present.
  - intros n. unfold succ. simpl.
    destruct (decide (u = n)) as [<-|Hne].
    + rewrite Dict.get_set_eq, Ed. simpl. by rewrite Dict.keys_set_present.
    + by rewrite Dict.get_set_ne.
Qed.

End nx_facts.

(** * Loop rules *)

Module loops.
Import nx nx_facts.

(** Invariant rule for [dict_iter]: [Inv done s] is stated on the keys
    already visited. *)
Lemma dict_iter_inv {S K : Type} (size : S → nat) (body : K → S → result S)
    (Inv : list K → S → Prop) (ks : list K) (n0 : nat) :
  (∀ done k s, Inv done s → k ∈ ks →
     ∃ s', body k s = inr s' ∧ size s' = n0 ∧ Inv (done ++ [k]) s') →
  ∀ done s, Inv done s →
  ∃ s', dict_iter size body ks n0 s = inr s' ∧ Inv (done ++ ks) s'.
Proof.
  induction ks as [|k ks IH]; intros Hbody done s Hs; simpl.
  - exists s. by rewrite app_nil_r.
  - destruct (Hbody done k s Hs) as (s' & -> & Hsz & Hs'); [by left|].
    simpl. rewrite decide_True by done.
    destruct (IH (λ d x y H1 H2, Hbody d x y H1 (list_elem_of_further _ _ _ H2))
                 (done ++ [k]) s' Hs') as (s'' & Hrun & Hs'').
    exists s''. split; [done|]. by rewrite <- app_assoc in Hs''.
Qed.

(** What one run of a loop body over the edges has to preserve. *)
Record body_ok (Inv : DiGraph → Prop) (Post : node → node → DiGraph → Prop)
    (u v : node) (s s' : DiGraph) : Prop := {
  ok_inv : Inv s';
  ok_post : Post u v s';
  ok_nodes : length (adj s') = length (adj s);
  ok_succ : length (succ s' u) = length (succ s u);
  ok_edges : ∀ a b, edge s a b → edge s' a b;
  ok_stable : ∀ a b, Post a b s → Post a b s'
}.

(** Invariant rule for [for_edges]: the loop does not raise, keeps the
    invariant, and every edge of the initial graph has been visited. *)
Lemma for_edges_spec (body : node → node → DiGraph → result DiGraph)
    (Inv : DiGraph → Prop) (Post : node → node → DiGraph → Prop) (g : DiGraph) :
  Inv g →
  (∀ s u v, Inv s → edge s u v →
     ∃ s', body u v s = inr s' ∧ body_ok Inv Post u v s s') →
  ∃ g', for_edges body g = inr g' ∧ Inv g' ∧
        (∀ u v, edge g u v → edge g' u v ∧ Post u v g').
Proof.
  intros Hg Hbody. unfold for_edges.
  set (Outer := λ (done : list node) (s : DiGraph),
         Inv s ∧ length (adj s) = length (adj g) ∧
         (∀ a b, edge g a b → edge s a b) ∧
         (∀ u v, u ∈ done → edge g u v → Post u v s)).
  assert (Hout : ∀ done u s, Outer done s → u ∈ Dict.keys (adj g) →
            ∃ s', dict_iter (λ s, length (succ s u)) (body u)
                    (Dict.keys (succ s u)) (length (succ s u)) s = inr s' ∧
                  length (adj s') = length (adj g) ∧ Outer (done ++ [u]) s').
  { intros done u s (HI & Hlen & Hmono & Hpost) Hu.
    set (Inner := λ (dn : list node) (s' : DiGraph),
           Inv s' ∧ length (adj s') = length (adj s) ∧
           length (succ s' u) = length (succ s u) ∧
           (∀ a b, edge s a b → edge s' a b) ∧
           (∀ a b, Post a b s → Post a b s') ∧
           (∀ v, v ∈ dn → Post u v s')).
    assert (Hin : ∀ dn v s1, Inner dn s1 → v ∈ Dict.keys (succ s u) →
              ∃ s2, body u v s1 = inr s2 ∧
                    length (succ s2 u) = length (succ s u) ∧
                    Inner (dn ++ [v]) s2).
    { intros dn v s1 (HI1 & Hl1 & Hs1 & Hm1 & Hst1 & Hv1) Hv.
      apply elem_of_succ_keys in Hv.
      destruct (Hbody s1 u v HI1 (Hm1 _ _ Hv)) as (s2 & Hb & [? ? ? ? ? ?]).
      exists s2. split; [done|]. split; [congruence|].
      unfold Inner. repeat split; [done|congruence|congruence|by auto|by auto|].
      intros w [Hw|Hw%list_elem_of_singleton]%elem_of_app; [by auto|by subst]. }
    destruct (dict_iter_inv _ _ Inner _ _ Hin [] s)
      as (s' & Hrun & HI' & Hlen' & _ & Hmono' & Hst & Hvis).
    { unfold Inner. repeat split; [done|by auto|by auto|].
      by intros v ?%elem_of_nil. }
    exists s'. split; [done|]. split; [congruence|].
    unfold Outer. repeat split; [done|congruence|by auto|].
    intros w v [Hw|Hw%list_elem_of_singleton]%elem_of_app He; [by eauto|subst w].
    apply Hvis. apply elem_of_succ_keys. by auto. }
  destruct (dict_iter_inv _ _ Outer _ _ Hout [] g)
    as (g' & Hrun & HI & _ & Hmono & Hpost).
  { unfold Outer. repeat split; [done|by auto|]. by intros u v ?%elem_of_nil. }
  exists g'. split; [done|]. split; [done|]. intros u v He. split; [by auto|].
  apply Hpost; [|done]. simpl. by eapply edge_node.
Qed.

End loops.

(** * The class invariant of networkx graphs *)

Module nx_wf.
Import nx nx_facts.

(** Both end points of an edge are nodes: [add_edge] adds them, and nothing
    else creates an edge. *)
Definition closedb (g : DiGraph) : bool :=
  forallb (λ ud : node * list (node * attrs),
             forallb (λ vd : node * attrs, has_node g vd.1) ud.2)
          (adj g).

Definition closed (g : DiGraph) : Prop :=
  ∀ u v, edge g u v → is_Some (Dict.get (adj g) v).

Lemma dict_get_elem_of {K V} `{EqDecision K} (d : list (K * V)) k v :
  Dict.get d k = Some v → (k, v) ∈ d.
Proof.
  induction d as [|[k' v'] d IH]; simpl; [done|].
  destruct (decide (k' = k)) as [->|Hne].
  - intros [= ->]. by left.
  - intros H'. right. by apply IH.
Qed.

Lemma closedb_closed g : closedb g = true → closed g.
Proof.
  unfold closedb, closed, edge, edge_data. intros Hb u v [d Hd].
  destruct (Dict.get (adj g) u) as [du|] eqn:Eu; [|done]. simpl in Hd.
  rewrite forallb_forall in Hb.
  apply dict_get_elem_of, list_elem_of_In in Eu.
  specialize (Hb _ Eu). simpl in Hb. rewrite forallb_forall in Hb.
  apply dict_get_elem_of, list_elem_of_In in Hd.
  specialize (Hb _ Hd). simpl in Hb. unfold has_node in Hb.
  by apply bool_decide_eq_true in Hb.
Qed.

Lemma node_add_edge g a b attr n :
  is_Some (Dict.get (adj (add_edge g a b attr)) n) ↔
  n = a ∨ n = b ∨ is_Some (Dict.get (adj g) n).
Proof.
  unfold add_edge. simpl.
  destruct (decide (a = n)) as [->|Hne];
    [rewrite Dict.get_set_eq; by split; eauto|].
  rewrite Dict.get_set_ne, !get_adj_add_node by done.
  destruct (Dict.get (adj g) n); [by split; eauto|].
  rewrite (decide_False (P := a = n)) by done.
  destruct (decide (b = n)) as [->|]; [by split; eauto|].
  split; [by intros [? ?]|]. by intros [?|[?|[? ?]]].
Qed.

Lemma closed_empty : closed empty.
Proof. intros u v [? ?]. done. Qed.

Lemma closed_add_edge g a b attr : closed g → closed (add_edge g a b attr).
Proof.
  intros Hc u v He. apply node_add_edge.
  apply edge_add_edge in He as [[_ ->]|He]; [by eauto|].
  right. right. by eapply Hc.
Qed.

Lemma length_adj_add_back g u v attr :
  closed g → edge g u v → length (adj (add_edge g v u attr)) = length (adj g).
Proof.
  intros Hc He. apply length_adj_add_edge.
  - by eapply Hc.
  - by eapply edge_target_node.
Qed.

End nx_wf.

(** * Connectivity validators *)

Module connectivity.
Import nx nx_facts nx_wf loops aws_emulation.

(** The back-edge loop does not raise; its result has exactly the edges of
    the input and their reverses, old edges keep their data and new edges
    carry an empty data dictionary. *)
Lemma add_back_edges_spec g :
  closed g →
  ∃ g', add_back_edges g = inr g' ∧ closed g' ∧
        (∀ u v, edge g' u v ↔ edge g u v ∨ edge g v u) ∧
        (∀ u v, edge g u v → edge_data g' u v = edge_data g u v) ∧
        (∀ u v, edge g' u v → ¬ edge g u v → edge_data g' u v = Some ∅).
Proof.
  intros Hc. unfold add_back_edges.
  set (Inv := λ s : DiGraph,
         closed s ∧
         (∀ a b, edge s a b → edge g a b ∨ edge g b a) ∧
         (∀ a b, edge g a b → edge_data s a b = edge_data g a b) ∧
         (∀ a b, edge s a b → ¬ edge g a b → edge_data s a b = Some ∅)).
  destruct (for_edges_spec (λ u v s, mret (add_edge s v u ∅)) Inv
              (λ u v s, edge s v u) g) as (g' & Hrun & HI & Hvis).
  - unfold Inv. split; [done|]. split; [by auto|]. split; [done|].
    by intros a b ? ?.
  - intros s u v (Hcs & Hsub & Hold & Hnew) He.
    exists (add_edge s v u ∅). split; [done|]. split.
    + unfold Inv. split; [by apply closed_add_edge|]. split; [|split].
      * intros a b [[<- <-]|Hab]%edge_add_edge; [|by auto].
        destruct (Hsub _ _ He); by auto.
      * intros a b Hab. rewrite edge_data_add_edge.
        case_decide as Heq; [|by auto]. destruct Heq as [<- <-].
        rewrite (Hold _ _ Hab). destruct Hab as [d ->]. simpl.
        by rewrite (left_id_L ∅ (∪)).
      * intros a b Hab Hn. rewrite edge_data_add_edge.
        case_decide as Heq; [|apply Hnew; [|done]].
        -- destruct Heq as [<- <-].
           destruct (edge_data s v u) as [d|] eqn:Ed; simpl.
           ++ assert (Hvu : edge s v u) by (unfold edge; rewrite Ed; eauto).
              rewrite (Hnew v u Hvu Hn) in Ed. injection Ed as <-.
              by rewrite (left_id_L ∅ (∪)).
           ++ by rewrite (left_id_L ∅ (∪)).
        -- apply edge_add_edge in Hab as [?|?]; [done|done].
    + apply edge_add_edge. by left.
    + by apply length_adj_add_back.
    + apply length_succ_add_edge. destruct (decide (v = u)) as [->|]; by auto.
    + intros a b ?. apply edge_add_edge. by right.
    + intros a b ?. apply edge_add_edge. by right.
  - destruct HI as (Hc' & Hsub & Hold & Hnew).
    exists g'. split; [done|]. split; [done|]. split; [|by split].
    intros u v. split; [by auto|].
    intros [He|He]; by apply Hvis in He as [? ?].
Qed.

(** Copying a graph and mutating the copy in place. *)
Lemma copy_in_place {A} (f : DiGraph → result DiGraph) (k : loc → A)
    (l : loc) (h : heap) (g g' : DiGraph) :
  h !! l = Some g → f g = inr g' →
  (l' ← graph_copy l; _ ← in_place l' f; mret (k l')) h =
  (inr (k (fresh (dom h))), <[fresh (dom h) := g']> h).
Proof.
  intros Hl Hf. unfold mbind, M_bind, mret, M_ret, graph_copy, in_place.
  rewrite Hl, lookup_insert_eq, Hf. by rewrite insert_insert_eq.
Qed.

Lemma fresh_loc_unused (h : heap) : h !! fresh (dom h) = None.
Proof. apply not_elem_of_dom. apply is_fresh. Qed.

(** Scenario A of the specification: three qubits, connectivity
    [(0,1), (0,2)] reported in one direction. *)
Definition scenario_A_graph : DiGraph :=
  add_edge (add_edge empty 0 1 ∅) 0 2 ∅.

Definition iqm_device : DeviceCapabilities :=
  mkDeviceCapabilities IqmDeviceCapabilities 3 [] [] ∅.

(** C1.  For every input connectivity graph, the connectivity validator
    built for an IQM capabilities record holds a new graph that contains
    [(u,v)] and [(v,u)] for every edge [(u,v)] of the input, and that graph is
    symmetric; for every other capabilities record (the default case of the
    dispatch) the validator holds the input graph itself, unchanged. *)
Theorem connectivity_validator_graph (properties : DeviceCapabilities)
    (connectivity_graph : loc) (h : heap) (g : DiGraph) :
  h !! connectivity_graph = Some g →
  closed g →
  ∃ validator h' g',
    connectivity_validator properties connectivity_graph h = (inr validator, h') ∧
    h' !! cv_graph validator = Some g' ∧
    (schema properties = IqmDeviceCapabilities →
       (∀ u v, edge g u v → edge g' u v ∧ edge g' v u) ∧
       (∀ u v, edge g' u v ↔ edge g' v u)) ∧
    (schema properties ≠ IqmDeviceCapabilities →
       cv_graph validator = connectivity_graph ∧ h' = h ∧ g' = g).
Proof.
  intros Hl Hc. unfold connectivity_validator, _connectivity_validator.
  destruct (schema properties) eqn:Es;
    try (exists (mkConnectivityValidator connectivity_graph), h, g;
         split; [done|]; split; [done|]; split; [done|]; by intros _).
  destruct (add_back_edges_spec g Hc) as (g' & Hrun & _ & Hedges & _).
  exists (mkConnectivityValidator (fresh (dom h))), (<[fresh (dom h) := g']> h), g'.
  split; [by apply (copy_in_place _ mkConnectivityValidator _ _ g)|].
  split; [by rewrite lookup_insert_eq|]. split; [|done]. intros _. split.
  - intros u v He. split; apply Hedges; by auto.
  - intros u v. rewrite !Hedges. tauto.
Qed.

Lemma connectivity_validator_graph_witness :
  ∃ validator h' g',
    connectivity_validator iqm_device 1%positive {[1%positive := scenario_A_graph]}
      = (inr validator, h') ∧
    h' !! cv_graph validator = Some g' ∧
    (schema iqm_device = IqmDeviceCapabilities →
       (∀ u v, edge scenario_A_graph u v → edge g' u v ∧ edge g' v u) ∧
       (∀ u v, edge g' u v ↔ edge g' v u)) ∧
    (schema iqm_device ≠ IqmDeviceCapabilities →
       cv_graph validator = 1%positive ∧ h' = {[1%positive := scenario_A_graph]} ∧
       g' = scenario_A_graph).
Proof.
  apply (connectivity_validator_graph iqm_device 1%positive
           {[1%positive := scenario_A_graph]} scenario_A_graph).
  - reflexivity.
  - apply closedb_closed. reflexivity.
Defined.

(** Scenario A, evaluated: the derived graph has the four directed edges. *)
Example scenario_A_edges :
  let r := connectivity_validator iqm_device 1%positive
             {[1%positive := scenario_A_graph]} in
  r.1 = inr (mkConnectivityValidator 2%positive) ∧
  edges <$> r.2 !! 2%positive = Some [(0, 1); (0, 2); (1, 0); (2, 0)]%Z.
Proof. split; vm_compute; reflexivity. Qed.

End connectivity.

(** * Gate-connectivity validators *)

Module gate_connectivity.
Import nx nx_facts nx_wf loops aws_emulation connectivity.

(** The supported gates of an edge, [None] for a missing edge or attribute. *)
Definition supported_gates (g : DiGraph) (u v : node) : option (gset string) :=
  edge_attr g u v "supported_gates".

(** The gate set that the calibration data gives to the key ["u-v"]: empty
    without an entry, the translated gate names of the entry otherwise. *)
Definition calibrated_gates (properties : DeviceCapabilities) (u v : node)
  : gset string :=
  match twoQubitProperties properties !! edge_key u v with
  | None => ∅
  | Some gate_names =>
      list_to_set (_get_qpu_gate_translations properties gate_names)
  end.

(** The gate set of the directed pair [(u, v)] after the first loop: the
    calibrated set on an edge of the input graph, nothing elsewhere. *)
Definition forward_gates (properties : DeviceCapabilities) (g : DiGraph)
    (u v : node) : gset string :=
  if decide (edge g u v) then calibrated_gates properties u v else ∅.

(** The gate set of [(u, v)] after the second loop: its own forward set
    unless that is empty, in which case the one of the reversed pair. *)
Definition final_gates (properties : DeviceCapabilities) (g : DiGraph)
    (u v : node) : gset string :=
  if decide (forward_gates properties g u v = ∅)
  then forward_gates properties g v u
  else forward_gates properties g u v.

Lemma populate_edge_eq properties u v g :
  populate_edge properties u v g =
  set_edge_attr g u v "supported_gates" (calibrated_gates properties u v).
Proof.
  unfold populate_edge, calibrated_gates.
  by destruct (twoQubitProperties properties !! edge_key u v).
Qed.

Lemma node_keys_eq (g g' : DiGraph) n :
  Dict.keys (adj g') = Dict.keys (adj g) →
  is_Some (Dict.get (adj g') n) ↔ is_Some (Dict.get (adj g) n).
Proof. intros E. by rewrite <- !Dict.elem_of_keys, E. Qed.

(** The first loop: no exception, the same nodes and edges, and on every
    edge the calibrated gate set under ["supported_gates"]; the other
    attributes of the edge are kept. *)
Lemma populate_forward_spec properties g :
  ∃ g1, populate_forward properties g = inr g1 ∧
        Dict.keys (adj g1) = Dict.keys (adj g) ∧
        (∀ u v, edge g1 u v ↔ edge g u v) ∧
        (∀ u v, edge_data g1 u v =
                <["supported_gates" := calibrated_gates properties u v]>
                  <$> edge_data g u v).
Proof.
  unfold populate_forward.
  set (new := λ u v, <["supported_gates" := calibrated_gates properties u v]>
                       <$> edge_data g u v).
  set (Inv := λ s : DiGraph,
         Dict.keys (adj s) = Dict.keys (adj g) ∧
         (∀ a b, edge s a b ↔ edge g a b) ∧
         (∀ a b, edge_data s a b = edge_data g a b ∨ edge_data s a b = new a b)).
  destruct (for_edges_spec (populate_edge properties) Inv
              (λ u v s, edge_data s u v = new u v) g) as (g1 & Hrun & HI & Hvis).
  - unfold Inv. split; [done|]. split; [done|]. by left.
  - intros s u v (Hk & He & Hd) Huv. rewrite populate_edge_eq.
    destruct (set_edge_attr_ok s u v "supported_gates"
                (calibrated_gates properties u v) Huv) as (s' & Hs').
    exists s'. split; [done|].
    pose proof (edge_data_set_edge_attr _ _ _ _ _ _ u v Hs') as Hnew.
    rewrite decide_True in Hnew by done.
    assert (Hpost : edge_data s' u v = new u v).
    { rewrite Hnew. destruct (Hd u v) as [->| ->]; [done|].
      unfold new. destruct (edge_data g u v); simpl; [|done].
      by rewrite insert_insert_eq. }
    destruct (adj_keys_set_edge_attr _ _ _ _ _ _ Hs') as [Hk1 Hk2].
    split.
    + unfold Inv. split; [congruence|]. split.
      * intros a b. by rewrite (edge_set_edge_attr _ _ _ _ _ _ a b Hs').
      * intros a b. rewrite (edge_data_set_edge_attr _ _ _ _ _ _ a b Hs').
        case_decide as Heq; [|done]. destruct Heq as [<- <-].
        right. by rewrite <- Hnew.
    + done.
    + by rewrite <- !dict_length_keys, Hk1.
    + by rewrite <- !dict_length_keys, Hk2.
    + intros a b. by rewrite (edge_set_edge_attr _ _ _ _ _ _ a b Hs').
    + intros a b Hab. rewrite (edge_data_set_edge_attr _ _ _ _ _ _ a b Hs').
      case_decide as Heq; [|done]. destruct Heq as [<- <-]. by rewrite <- Hnew.
  - destruct HI as (Hk & He & Hd). exists g1. split; [done|].
    split; [done|]. split; [done|]. intros u v.
    destruct (decide (edge g u v)) as [Huv|Huv].
    + by apply Hvis.
    + unfold new. destruct (Hd u v) as [-> | ->]; [|done].
      destruct (edge_data g u v) eqn:E; [|done]. destruct Huv. unfold edge.
      rewrite E. by eauto.
Qed.

Lemma supported_gates_add_edge s a b x u v :
  supported_gates (add_edge s a b {["supported_gates" := x]}) u v =
  if decide (a = u ∧ b = v) then Some x else supported_gates s u v.
Proof.
  unfold supported_gates, edge_attr. rewrite edge_data_add_edge.
  case_decide; [|done]. simpl.
  apply lookup_union_Some_l. by rewrite lookup_singleton_eq.
Qed.

Lemma supported_gates_edge s u v x : supported_gates s u v = Some x → edge s u v.
Proof.
  unfold supported_gates, edge_attr, edge.
  destruct (edge_data s u v); [eauto|done].
Qed.

Section back_edges.
Variable g1 : DiGraph.
Variable c : node → node → gset string.
Hypothesis g1_closed : closed g1.
Hypothesis g1_gates : ∀ a b, edge g1 a b → supported_gates g1 a b = Some (c a b).
Hypothesis c_absent : ∀ a b, ¬ edge g1 a b → c a b = ∅.

Definition settled (a b : node) : gset string :=
  if decide (c a b = ∅) then c b a else c a b.

Definition back_inv (s : DiGraph) : Prop :=
  closed s ∧
  (∀ a b, edge g1 a b → edge s a b) ∧
  (∀ a b, edge s a b → edge g1 a b ∨ edge g1 b a) ∧
  (∀ a b, edge s a b →
     supported_gates s a b = Some (settled a b) ∨
     (edge g1 a b ∧ supported_gates s a b = Some (c a b))).

Definition back_post (u v : node) (s : DiGraph) : Prop :=
  edge s v u ∧ supported_gates s v u = Some (settled v u).

Lemma settled_of_empty_reverse a b : c b a = ∅ → settled a b = c a b.
Proof.
  intros Hba. unfold settled. case_decide as Hab; [|done]. by rewrite Hab.
Qed.

Lemma settled_reverse_empty a b : c a b = ∅ → settled a b = c b a.
Proof. intros Hab. unfold settled. by rewrite decide_True. Qed.

Lemma settled_nonempty a b : c a b ≠ ∅ → settled a b = c a b.
Proof. intros Hab. unfold settled. by rewrite decide_False. Qed.

Lemma synthesize_back_edge_step s u v :
  back_inv s → edge s u v →
  ∃ s', synthesize_back_edge u v s = inr s' ∧
        body_ok back_inv back_post u v s s'.
Proof.
  intros (Hcs & Hmono & Hsub & Hsg) Huv. unfold synthesize_back_edge.
  change (edge_attr s v u "supported_gates") with (supported_gates s v u).
  destruct (negb (has_edge s v u)
            || bool_decide (supported_gates s v u ∈ [None; Some ∅])) eqn:Econd.
  - (* the reversed edge is missing or carries no gate *)
    assert (Hvu : c v u = ∅).
    { destruct (decide (edge s v u)) as [He|He].
      - apply orb_true_iff in Econd as [Econd|Econd].
        + apply negb_true_iff, has_edge_false in Econd. done.
        + apply bool_decide_eq_true in Econd.
          destruct (Hsg v u He) as [Hs|[_ Hs]]; rewrite Hs in Econd;
            apply elem_of_cons in Econd as [?|Econd]; try done;
            apply list_elem_of_singleton in Econd as [= E]; [|done].
          unfold settled in E. by case_decide.
      - apply c_absent. intros ?. apply He. by auto. }
    assert (Hx : supported_gates s u v = Some (settled v u)).
    { rewrite (settled_reverse_empty v u Hvu).
      destruct (Hsg u v Huv) as [Hs|[_ Hs]]; [|done].
      by rewrite Hs, (settled_of_empty_reverse u v Hvu). }
    unfold get_edge_attr.
    change (edge_attr s u v "supported_gates") with (supported_gates s u v).
    rewrite Hx. simpl.
    eexists. split; [done|]. split.
    + split; [by apply closed_add_edge|]. split; [|split].
      * intros a b ?. apply edge_add_edge. by auto.
      * intros a b [[<- <-]|Hab]%edge_add_edge; [|by auto].
        destruct (Hsub _ _ Huv); by auto.
      * intros a b Hab. rewrite supported_gates_add_edge.
        destruct (decide (v = a ∧ u = b)) as [[<- <-]|Hne]; [by left|].
        apply edge_add_edge in Hab as [?|?]; [done|by auto].
    + split; [apply edge_add_edge; by left|].
      by rewrite supported_gates_add_edge, decide_True.
    + by apply length_adj_add_back.
    + apply length_succ_add_edge. destruct (decide (v = u)) as [->|]; by auto.
    + intros a b ?. apply edge_add_edge. by right.
    + intros a b [Hab Hs]. split; [apply edge_add_edge; by right|].
      rewrite supported_gates_add_edge.
      by destruct (decide (v = b ∧ u = a)) as [[<- <-]|Hne].
  - (* the reversed edge is populated: nothing to do *)
    apply orb_false_iff in Econd as [He Hne].
    apply negb_false_iff, has_edge_true in He.
    apply bool_decide_eq_false in Hne.
    exists s. split; [done|]. split; try done.
    split; [done|].
    destruct (Hsg v u He) as [Hs|[_ Hs]]; [done|].
    rewrite Hs, settled_nonempty; [done|].
    intros E. apply Hne. rewrite Hs, E. right. by left.
Qed.

(** The second loop: no exception; the result has the edges of its input
    and their reverses, and every edge carries its settled gate set. *)
Lemma synthesize_back_edges_spec :
  ∃ g2, synthesize_back_edges g1 = inr g2 ∧ closed g2 ∧
        (∀ u v, edge g2 u v ↔ edge g1 u v ∨ edge g1 v u) ∧
        (∀ u v, edge g2 u v → supported_gates g2 u v = Some (settled u v)).
Proof.
  unfold synthesize_back_edges.
  destruct (for_edges_spec synthesize_back_edge back_inv back_post g1)
    as (g2 & Hrun & (Hc2 & Hmono & Hsub & Hsg) & Hvis).
  - split; [done|]. split; [done|]. split; [by auto|].
    intros a b Hab. right. by auto.
  - intros s u v. apply synthesize_back_edge_step.
  - exists g2. split; [done|]. split; [done|]. split.
    + intros u v. split; [by auto|].
      intros [He|He]; [by auto|]. by apply Hvis in He as (_ & ? & _).
    + intros u v He. destruct (Hsg u v He) as [?|[Hg Hs]]; [done|].
      destruct (decide (edge g1 v u)) as [Hr|Hr].
      * by apply Hvis in Hr as (_ & _ & ?).
      * by rewrite Hs, (settled_of_empty_reverse u v (c_absent _ _ Hr)).
Qed.

End back_edges.

(** The two loops together. *)
Lemma rigetti_iqm_gate_connectivity_spec properties g :
  closed g →
  ∃ g1 g2,
    populate_forward properties g = inr g1 ∧
    rigetti_iqm_gate_connectivity properties g = inr g2 ∧
    (∀ u v, edge g1 u v ↔ edge g u v) ∧
    (∀ u v, edge g u v →
       supported_gates g1 u v = Some (calibrated_gates properties u v)) ∧
    (∀ u v, edge g2 u v ↔ edge g u v ∨ edge g v u) ∧
    (∀ u v, edge g2 u v →
       supported_gates g2 u v = Some (final_gates properties g u v)).
Proof.
  intros Hc. unfold rigetti_iqm_gate_connectivity.
  destruct (populate_forward_spec properties g) as (g1 & Hrun1 & Hk & He & Hd).
  assert (Hg1 : ∀ a b, edge g1 a b →
            supported_gates g1 a b = Some (forward_gates properties g a b)).
  { intros a b Hab. unfold supported_gates, edge_attr, forward_gates.
    apply He in Hab. rewrite decide_True, Hd by done.
    destruct Hab as [d ->]. simpl. by rewrite lookup_insert_eq. }
  destruct (synthesize_back_edges_spec g1 (forward_gates properties g))
    as (g2 & Hrun2 & _ & He2 & Hs2).
  - intros u v Huv. apply (node_keys_eq g g1 v Hk). apply (Hc u v). by apply He.
  - done.
  - intros a b Hab. unfold forward_gates. rewrite decide_False; [done|].
    by rewrite <- He.
  - exists g1, g2. rewrite Hrun1. simpl. split; [done|]. split; [done|].
    split; [done|]. split; [|split].
    + intros u v Huv. rewrite Hg1 by (by apply He).
      unfold forward_gates. by rewrite decide_True.
    + intros u v. by rewrite He2, !He.
    + done.
Qed.

(** A device whose calibration data names both directions of a pair, with
    different gates. *)
Definition two_way_graph : DiGraph := add_edge (add_edge empty 0 1 ∅) 1 0 ∅.

Definition rigetti_two_way : DeviceCapabilities :=
  mkDeviceCapabilities RigettiDeviceCapabilities 2 [] []
    (<["0-1" := ["CZ"]]> {["1-0" := ["XY"]]}).

(** The symmetry invariant as the specification words it: every edge has
    its reverse, with the same supported gates. *)
Definition gate_sets_symmetric (g : DiGraph) : Prop :=
  ∀ u v, edge g u v →
    edge g v u ∧ supported_gates g u v = supported_gates g v u.

(** Scenario B of the specification: the edges [(0,2)] and [(2,0)] have no
    calibration entry, the pair [(0,1)] is calibrated in one direction. *)
Definition scenario_B_graph : DiGraph :=
  add_edge (add_edge (add_edge (add_edge empty 0 1 ∅) 0 2 ∅) 1 0 ∅) 2 0 ∅.

Definition rigetti_device : DeviceCapabilities :=
  mkDeviceCapabilities RigettiDeviceCapabilities 3 [] []
    {["0-1" := ["CZ"; "CPHASE"]]}.

(** C2, as the code has it.  After the back-edge synthesis of the
    Rigetti/IQM gate-connectivity builder every edge of the resulting graph
    has its reverse edge.  When both directions of a pair come out of the
    first loop with a non-empty gate set, each direction keeps its own set;
    in every other case the forward and the reverse set are equal. *)
Theorem back_edge_synthesis_gate_sets (properties : DeviceCapabilities)
    (connectivity_graph : loc) (h : heap) (g : DiGraph) :
  schema properties = IqmDeviceCapabilities
    ∨ schema properties = RigettiDeviceCapabilities →
  h !! connectivity_graph = Some g →
  closed g →
  ∃ validator h' g2,
    gate_connectivity_validator properties connectivity_graph h
      = (inr validator, h') ∧
    h' !! gcv_graph validator = Some g2 ∧
    ∀ u v, edge g2 u v →
      edge g2 v u ∧
      let fwd := forward_gates properties g u v in
      let rev := forward_gates properties g v u in
      if decide (fwd ≠ ∅ ∧ rev ≠ ∅)
      then supported_gates g2 u v = Some fwd ∧ supported_gates g2 v u = Some rev
      else is_Some (supported_gates g2 u v) ∧
           supported_gates g2 u v = supported_gates g2 v u.
Proof.
  intros Hs Hl Hc.
  destruct (rigetti_iqm_gate_connectivity_spec properties g Hc)
    as (g1 & g2 & _ & Hrun & _ & _ & He & Hg).
  exists (mkGateConnectivityValidator (fresh (dom h))),
         (<[fresh (dom h) := g2]> h), g2.
  split.
  { unfold gate_connectivity_validator, _gate_connectivity_validator.
    destruct Hs as [-> | ->];
      by apply (copy_in_place _ mkGateConnectivityValidator _ _ g). }
  split; [by rewrite lookup_insert_eq|].
  intros u v Huv.
  assert (Hvu : edge g2 v u) by (apply He; apply He in Huv; tauto).
  split; [done|]. simpl.
  rewrite (Hg u v Huv), (Hg v u Hvu). unfold final_gates.
  destruct (decide (forward_gates properties g u v = ∅)) as [E1|E1];
    destruct (decide (forward_gates properties g v u = ∅)) as [E2|E2].
  - rewrite decide_False by tauto. split; [by eauto|]. by rewrite E1, E2.
  - rewrite decide_False by tauto. split; [by eauto|done].
  - rewrite decide_False by tauto. split; [by eauto|done].
  - by rewrite decide_True.
Qed.

Lemma back_edge_synthesis_gate_sets_witness :
  (schema rigetti_device = IqmDeviceCapabilities
     ∨ schema rigetti_device = RigettiDeviceCapabilities) ∧
  ({[1%positive := scenario_B_graph]} : heap) !! 1%positive
    = Some scenario_B_graph ∧
  closed scenario_B_graph ∧
  ∃ validator h' g2,
    gate_connectivity_validator rigetti_device 1%positive
      {[1%positive := scenario_B_graph]} = (inr validator, h') ∧
    h' !! gcv_graph validator = Some g2 ∧
    ∀ u v, edge g2 u v →
      edge g2 v u ∧
      let fwd := forward_gates rigetti_device scenario_B_graph u v in
      let rev := forward_gates rigetti_device scenario_B_graph v u in
      if decide (fwd ≠ ∅ ∧ rev ≠ ∅)
      then supported_gates g2 u v = Some fwd ∧ supported_gates g2 v u = Some rev
      else is_Some (supported_gates g2 u v) ∧
           supported_gates g2 u v = supported_gates g2 v u.
Proof.
  assert (H1 : schema rigetti_device = IqmDeviceCapabilities
                 ∨ schema rigetti_device = RigettiDeviceCapabilities)
    by (right; reflexivity).
  assert (H2 : ({[1%positive := scenario_B_graph]} : heap) !! 1%positive
                 = Some scenario_B_graph) by reflexivity.
  assert (H3 : closed scenario_B_graph) by (apply closedb_closed; reflexivity).
  split; [exact H1|]. split; [exact H2|]. split; [exact H3|].
  exact (back_edge_synthesis_gate_sets rigetti_device 1%positive
           {[1%positive := scenario_B_graph]} scenario_B_graph H1 H2 H3).
Defined.

(** The graph that the builder derives for [rigetti_two_way]. *)
Definition two_way_result : DiGraph :=
  add_edge (add_edge empty 0 1 {["supported_gates" := {["CZ"]}]})
    1 0 {["supported_gates" := {["XY"]}]}.

(** C2, as the specification states it, fails when the calibration data
    names both directions of a pair with different gates: the builder keeps
    [{CZ}] on [(0,1)] and [{XY}] on [(1,0)]. *)
Lemma back_edge_symmetry_counterexample :
  gate_connectivity_validator rigetti_two_way 1%positive
    {[1%positive := two_way_graph]}
  = (inr (mkGateConnectivityValidator 2%positive),
     <[2%positive := two_way_result]> {[1%positive := two_way_graph]}) ∧
  supported_gates two_way_result 0 1 = Some {["CZ"]} ∧
  supported_gates two_way_result 1 0 = Some {["XY"]} ∧
  ¬ gate_sets_symmetric two_way_result.
Proof.
  assert (Ha : supported_gates two_way_result 0 1 = Some {["CZ"]})
    by (vm_compute; reflexivity).
  assert (Hb : supported_gates two_way_result 1 0 = Some {["XY"]})
    by (vm_compute; reflexivity).
  split; [vm_compute; reflexivity|]. split; [exact Ha|]. split; [exact Hb|].
  intros Hsym. destruct (Hsym 0%Z 1%Z) as [_ Heq].
  - eapply supported_gates_edge, Ha.
  - rewrite Ha, Hb in Heq. apply (inj Some) in Heq.
    assert (Hin : "CZ" ∈ ({["XY"]} : gset string))
      by (rewrite <- Heq; set_solver).
    by apply elem_of_singleton in Hin.
Qed.

(** The statement of the specification on the graph that the derivation
    returns: every edge of the input graph whose key has no calibration
    entry carries the empty supported-gate set. *)
Definition uncalibrated_edges_empty (properties : DeviceCapabilities)
    (g g2 : DiGraph) : Prop :=
  ∀ u v, edge g u v →
    twoQubitProperties properties !! edge_key u v = None →
    supported_gates g2 u v = Some ∅.

(** C3, as the code has it.  In the Rigetti/IQM gate-connectivity
    derivation, an edge [(u, v)] of the input graph whose key ["u-v"] has no
    entry in [twoQubitProperties] raises nothing and is kept.  Out of the
    forward loop it comes with the empty supported-gate set.  In the graph
    that is returned its set is the translated gate list of the reversed key
    ["v-u"] when [(v, u)] is an edge of the input graph too and that key has
    an entry, and the empty set otherwise. *)
Theorem uncalibrated_edge_gate_set (properties : DeviceCapabilities)
    (connectivity_graph : loc) (h : heap) (g : DiGraph) (u v : node) :
  schema properties = IqmDeviceCapabilities
    ∨ schema properties = RigettiDeviceCapabilities →
  h !! connectivity_graph = Some g →
  closed g →
  edge g u v →
  twoQubitProperties properties !! edge_key u v = None →
  (∃ g1, populate_forward properties g = inr g1 ∧
         edge g1 u v ∧ supported_gates g1 u v = Some ∅) ∧
  (∃ validator h' g2,
     gate_connectivity_validator properties connectivity_graph h
       = (inr validator, h') ∧
     h' !! gcv_graph validator = Some g2 ∧
     edge g2 u v ∧
     supported_gates g2 u v
       = Some (if decide (edge g v u)
               then match twoQubitProperties properties !! edge_key v u with
                    | Some gate_names =>
                        list_to_set
                          (_get_qpu_gate_translations properties gate_names)
                    | None => ∅
                    end
               else ∅) ∧
     (¬ edge g v u ∨ twoQubitProperties properties !! edge_key v u = None →
      supported_gates g2 u v = Some ∅)).
Proof.
  intros Hs Hl Hc Huv Hnone.
  destruct (rigetti_iqm_gate_connectivity_spec properties g Hc)
    as (g1 & g2 & Hrun1 & Hrun & He1 & Hg1 & He & Hg).
  assert (Hcal : calibrated_gates properties u v = ∅)
    by (unfold calibrated_gates; by rewrite Hnone).
  split.
  - exists g1. split; [done|]. split; [by apply He1|].
    by rewrite (Hg1 u v Huv), Hcal.
  - exists (mkGateConnectivityValidator (fresh (dom h))),
           (<[fresh (dom h) := g2]> h), g2.
    split.
    { unfold gate_connectivity_validator, _gate_connectivity_validator.
      destruct Hs as [-> | ->];
        by apply (copy_in_place _ mkGateConnectivityValidator _ _ g). }
    split; [by rewrite lookup_insert_eq|].
    assert (Huv2 : edge g2 u v) by (apply He; by left).
    split; [done|].
    assert (Hfin : supported_gates g2 u v
                   = Some (forward_gates properties g v u)).
    { rewrite (Hg u v Huv2). f_equal.
      unfold final_gates. rewrite decide_True; [done|].
      unfold forward_gates. by rewrite decide_True, Hcal. }
    rewrite Hfin. unfold forward_gates, calibrated_gates. split.
    + reflexivity.
    + intros [Hne | Hnone'].
      * by rewrite decide_False.
      * rewrite Hnone'. by destruct (decide (edge g v u)).
Qed.

Lemma uncalibrated_edge_gate_set_witness :
  (∃ g1, populate_forward rigetti_device scenario_B_graph = inr g1 ∧
         edge g1 1 0 ∧ supported_gates g1 1 0 = Some ∅) ∧
  (∃ validator h' g2,
     gate_connectivity_validator rigetti_device 1%positive
       {[1%positive := scenario_B_graph]} = (inr validator, h') ∧
     h' !! gcv_graph validator = Some g2 ∧
     edge g2 1 0 ∧
     supported_gates g2 1 0
       = Some (if decide (edge scenario_B_graph 0 1)
               then match twoQubitProperties rigetti_device !! edge_key 0 1 with
                    | Some gate_names =>
                        list_to_set
                          (_get_qpu_gate_translations rigetti_device gate_names)
                    | None => ∅
                    end
               else ∅) ∧
     (¬ edge scenario_B_graph 0 1
      ∨ twoQubitProperties rigetti_device !! edge_key 0 1 = None →
      supported_gates g2 1 0 = Some ∅)).
Proof.
  apply (uncalibrated_edge_gate_set rigetti_device 1%positive
           {[1%positive := scenario_B_graph]} scenario_B_graph 1 0).
  - right. reflexivity.
  - reflexivity.
  - apply closedb_closed. reflexivity.
  - apply has_edge_true. reflexivity.
  - reflexivity.
Defined.

(** The graph that the builder derives for [rigetti_device] on the graph of
    scenario B. *)
Definition scenario_B_result : DiGraph :=
  add_edge
    (add_edge
       (add_edge
          (add_edge empty 0 1 {["supported_gates" := {["CZ"; "CPhaseShift"]}]})
          0 2 {["supported_gates" := ∅]})
       1 0 {["supported_gates" := {["CZ"; "CPhaseShift"]}]})
    2 0 {["supported_gates" := ∅]}.

(** C3, as the specification states it, fails on the device and graph of
    scenario B: [(1, 0)] is an edge of the input graph, the calibration data
    has the key ["0-1"] only, and the returned graph gives [(1, 0)] the two
    gates of ["0-1"], not the empty set. *)
Lemma uncalibrated_edge_counterexample :
  gate_connectivity_validator rigetti_device 1%positive
    {[1%positive := scenario_B_graph]}
  = (inr (mkGateConnectivityValidator 2%positive),
     <[2%positive := scenario_B_result]> {[1%positive := scenario_B_graph]}) ∧
  edge scenario_B_graph 1 0 ∧
  twoQubitProperties rigetti_device !! edge_key 1 0 = None ∧
  supported_gates scenario_B_result 1 0 = Some {["CZ"; "CPhaseShift"]} ∧
  ¬ uncalibrated_edges_empty rigetti_device scenario_B_graph scenario_B_result.
Proof.
  assert (He : edge scenario_B_graph 1 0) by (apply has_edge_true; reflexivity).
  assert (Hk : twoQubitProperties rigetti_device !! edge_key 1 0 = None)
    by reflexivity.
  assert (Hg : supported_gates scenario_B_result 1 0
               = Some {["CZ"; "CPhaseShift"]}) by (vm_compute; reflexivity).
  split; [vm_compute; reflexivity|]. split; [exact He|]. split; [exact Hk|].
  split; [exact Hg|].
  intros Hspec. specialize (Hspec 1%Z 0%Z He Hk). rewrite Hg in Hspec.
  apply (inj Some) in Hspec.
  assert (Hin : "CZ" ∈ (∅ : gset string)) by (rewrite <- Hspec; set_solver).
  by apply elem_of_empty in Hin.
Qed.

(** Scenario B, evaluated: the derived graph of the Rigetti device. *)
Example scenario_B_gate_sets :
  let r := gate_connectivity_validator rigetti_device 1%positive
             {[1%positive := scenario_B_graph]} in
  r.1 = inr (mkGateConnectivityValidator 2%positive) ∧
  (λ g, (λ e, (e, elements <$> supported_gates g e.1 e.2)) <$> edges g)
    <$> r.2 !! 2%positive
  = Some [((0, 1), Some ["CZ"; "CPhaseShift"]); ((0, 2), Some []);
          ((1, 0), Some ["CZ"; "CPhaseShift"]); ((2, 0), Some [])]%Z.
Proof. split; vm_compute; reflexivity. Qed.

End gate_connectivity.

(** * The builders leave the graph of the caller alone *)

Module frame.
Import nx nx_facts aws_emulation connectivity.

(** Every object of the store [h] is still there, with the same nodes, edges
    and edge data, in [h']. *)
Definition unchanged (h h' : heap) : Prop :=
  ∀ l g, h !! l = Some g → h' !! l = Some g.

Lemma unchanged_refl h : unchanged h h.
Proof. by intros l g. Qed.

Lemma unchanged_fresh h g : unchanged h (<[fresh (dom h) := g]> h).
Proof.
  intros l g0 Hl. rewrite lookup_insert_ne; [done|].
  intros <-. by rewrite fresh_loc_unused in Hl.
Qed.

Lemma graph_copy_in_place_frame (f : DiGraph → result DiGraph) l h :
  unchanged h ((l' ← graph_copy l; _ ← in_place l' f; mret l') h).2.
Proof.
  unfold mbind, M_bind, mret, M_ret, graph_copy, in_place.
  destruct (h !! l) as [g|]; simpl; [|apply unchanged_refl].
  rewrite lookup_insert_eq. destruct (f g) as [e|g']; simpl.
  - apply unchanged_fresh.
  - rewrite insert_insert_eq. apply unchanged_fresh.
Qed.

(** A continuation that does not write to the store. *)
Lemma bind_frame {A B} (m : M A) (k : A → M B) h :
  (∀ x h1, (k x h1).2 = h1) → ((x ← m; k x) h).2 = (m h).2.
Proof.
  intros Hk. unfold mbind, M_bind. destruct (m h) as [[e|x] h1]; [done|].
  by rewrite Hk.
Qed.

Lemma copy_mutate_then_frame {B} (f : DiGraph → result DiGraph)
    (k : loc → M B) l h :
  (∀ x h1, (k x h1).2 = h1) →
  unchanged h ((l' ← graph_copy l; _ ← in_place l' f; k l') h).2.
Proof.
  intros Hk. pose proof (graph_copy_in_place_frame f l h) as H.
  unfold mbind, M_bind, mret, M_ret in *.
  destruct (graph_copy l h) as [[e|l'] h1]; [done|].
  destruct (in_place l' f h1) as [[e|[]] h2]; [done|].
  simpl in H. by rewrite Hk.
Qed.

(** C10.  For every store, input graph and capabilities record, the four
    builders return a store in which every object that existed before the
    call, the input graph in particular, has the nodes, edges and edge data
    it had: back edges and gate annotations go to a copy. *)
Theorem builders_keep_input_graph (properties : DeviceCapabilities)
    (connectivity_graph : loc) (h : heap) :
  unchanged h (connectivity_validator properties connectivity_graph h).2 ∧
  unchanged h (gate_connectivity_validator properties connectivity_graph h).2 ∧
  unchanged h (lexi_mapping_routing_pass properties connectivity_graph h).2 ∧
  unchanged h (create_nativization_pass properties connectivity_graph h).2.
Proof.
  unfold connectivity_validator, _connectivity_validator,
    gate_connectivity_validator, _gate_connectivity_validator,
    lexi_mapping_routing_pass, _lexi_mapping_routing_pass,
    create_nativization_pass.
  destruct (schema properties); repeat split;
    try apply unchanged_refl;
    try (apply copy_mutate_then_frame; by intros).
  apply copy_mutate_then_frame. intros l' h1.
  unfold mbind, M_bind, edge_list. by destruct (h1 !! l').
Qed.

End frame.

(** * gate_connectivity_criterion.py *)

Module gate_connectivity_criterion.
Import nx nx_facts.

(** The operator of an instruction, as far as [validate] tells operators
    apart: the two verbatim-box directives, gates, and everything else. *)
Inductive operator :=
  | StartVerbatimBox
  | EndVerbatimBox
  | Gate (name : string) (qubit_count : nat)
  | OtherOperator.

Record Instruction := mkInstruction {
  instr_operator : operator;
  control : list node;
  target : list node
}.

Definition is_start (i : Instruction) : bool :=
  match instr_operator i with StartVerbatimBox => true | _ => false end.

Definition is_end (i : Instruction) : bool :=
  match instr_operator i with EndVerbatimBox => true | _ => false end.

(** The messages of the [ValueError]s. *)
Definition no_end_verbatim_box (idx : nat) : exn :=
  ValueError [Lit "No end verbatim box found at index "; Int (Z.of_nat idx);
              Lit " in the circuit."].

Definition not_connected (e0 e1 : node) : exn :=
  ValueError [Int e0; Lit " is not connected to "; Int e1;
              Lit " on this device."].

Definition gate_not_supported (e0 e1 : node) (gate_name : string) : exn :=
  ValueError [Lit "Qubit pair ("; Int e0; Lit ", "; Int e1;
              Lit ") does not support gate "; Lit gate_name;
              Lit " on this device."].

Definition unrecognized_targetting : exn :=
  ValueError [Lit "Unrecognized qubit targetting setup for a 2 qubit gate."].

Definition qubit_does_not_exist (q : node) : exn :=
  ValueError [Lit "Qubit "; Int q; Lit " does not exist in the device topology."].

Definition validate_instruction_connectivity (g : DiGraph) (gate_name : string)
    (control_qubits target_qubits : list node) : result unit :=
  e ← match control_qubits, target_qubits with
      | [c], [t] => mret (c, t)
      | [], [t0; t1] => mret (t0, t1)
      | _, _ => raise unrecognized_targetting
      end;
  if negb (has_edge g e.1 e.2) then raise (not_connected e.1 e.2)
  else
    supported_gates ← get_edge_attr g e.1 e.2 "supported_gates";
    if decide (gate_name ∈ supported_gates) then mret ()
    else raise (gate_not_supported e.1 e.2 gate_name).

(** The check of one instruction inside a verbatim box. *)
Definition validate_in_box (g : DiGraph) (instruction : Instruction)
  : result unit :=
  match instr_operator instruction with
  | Gate name qubit_count =>
      if decide (qubit_count = 2) then
        validate_instruction_connectivity g name
          (control instruction) (target instruction)
      else
        match target instruction with
        | [] => raise IndexError
        | target_qubit :: _ =>
            if has_node g target_qubit then mret ()
            else raise (qubit_does_not_exist target_qubit)
        end
  | _ => mret ()
  end.

(** The [while] loop of [validate] and the test after it; [rest] is
    [circuit.instructions[idx:]].  The loop leaves at an [EndVerbatimBox] or
    at [idx == len(circuit.instructions)], and the latter raises. *)
Fixpoint scan_verbatim_box (g : DiGraph) (rest : list Instruction) (idx : nat)
  : result unit :=
  match rest with
  | [] => raise (no_end_verbatim_box idx)
  | instruction :: rest' =>
      if is_end instruction then mret ()
      else
        _ ← validate_in_box g instruction;
        scan_verbatim_box g rest' (S idx)
  end.

(** The [for idx in range(len(circuit.instructions))] loop; [rest] is
    [circuit.instructions[idx:]].  The assignments to [idx] in the body do
    not outlive an iteration: [for] rebinds [idx] from the range. *)
Fixpoint validate_from (g : DiGraph) (rest : list Instruction) (idx : nat)
  : result unit :=
  match rest with
  | [] => mret ()
  | instruction :: rest' =>
      _ ← (if is_start instruction then scan_verbatim_box g rest' (S idx)
           else mret ());
      validate_from g rest' (S idx)
  end.

Definition validate (g : DiGraph) (circuit : list Instruction) : result unit :=
  validate_from g circuit 0.

(** A [StartVerbatimBox] with no [EndVerbatimBox] anywhere after it. *)
Definition unclosed (circuit : list Instruction) : Prop :=
  ∃ before start after,
    circuit = before ++ start :: after ∧
    is_start start = true ∧
    ∀ i, i ∈ after → is_end i = false.

(** C9 as the specification states it: an unclosed verbatim box always
    yields the error that reports the missing end. *)
Definition unclosed_box_always_reported : Prop :=
  ∀ g circuit, unclosed circuit →
    ∃ idx, validate g circuit = inl (no_end_verbatim_box idx).

Lemma scan_no_end g rest idx :
  (∀ i, i ∈ rest → is_end i = false) →
  ∃ e, scan_verbatim_box g rest idx = inl e ∧
       (e = no_end_verbatim_box (idx + length rest) ∨
        ∃ i, i ∈ rest ∧ validate_in_box g i = inl e).
Proof.
  revert idx. induction rest as [|i rest IH]; intros idx Hno; simpl.
  - eexists. split; [done|]. left. by rewrite Nat.add_0_r.
  - rewrite (Hno i) by by left.
    destruct (validate_in_box g i) as [e|[]] eqn:Ei; simpl.
    + exists e. split; [done|]. right. exists i. split; [by left|done].
    + destruct (IH (S idx)) as (e & -> & He).
      { intros j Hj. apply Hno. by right. }
      exists e. split; [done|].
      destruct He as [->|(j & Hj & Hje)].
      * left. f_equal. lia.
      * right. exists j. split; [by right|done].
Qed.

Lemma scan_error g rest idx e :
  scan_verbatim_box g rest idx = inl e →
  e = no_end_verbatim_box (idx + length rest) ∨
  ∃ i, i ∈ rest ∧ validate_in_box g i = inl e.
Proof.
  revert idx. induction rest as [|i rest IH]; intros idx; simpl.
  - intros [= <-]. left. by rewrite Nat.add_0_r.
  - destruct (is_end i); [done|].
    destruct (validate_in_box g i) as [e'|[]] eqn:Ei; simpl.
    + intros [= <-]. right. exists i. split; [by left|done].
    + intros [->|(j & Hj & Hje)]%IH.
      * left. f_equal. lia.
      * right. exists j. split; [by right|done].
Qed.

Lemma validate_from_error g rest idx e :
  validate_from g rest idx = inl e →
  e = no_end_verbatim_box (idx + length rest) ∨
  ∃ i, i ∈ rest ∧ validate_in_box g i = inl e.
Proof.
  revert idx. induction rest as [|i rest IH]; intros idx; simpl; [done|].
  destruct (is_start i).
  - destruct (scan_verbatim_box g rest (S idx)) as [e'|[]] eqn:Es; simpl.
    + intros [= <-]. apply scan_error in Es as [->|(j & Hj & Hje)].
      * left. f_equal. lia.
      * right. exists j. split; [by right|done].
    + intros [->|(j & Hj & Hje)]%IH.
      * left. f_equal. lia.
      * right. exists j. split; [by right|done].
  - simpl. intros [->|(j & Hj & Hje)]%IH.
    + left. f_equal. lia.
    + right. exists j. split; [by right|done].
Qed.

Lemma validate_from_unclosed g before start after idx :
  is_start start = true →
  (∀ i, i ∈ after → is_end i = false) →
  ∃ e, validate_from g (before ++ start :: after) idx = inl e.
Proof.
  intros Hstart Hno. revert idx.
  induction before as [|i before IH]; intros idx; simpl.
  - rewrite Hstart.
    destruct (scan_no_end g after (S idx) Hno) as (e & -> & _). by eauto.
  - destruct (if is_start i then _ else _) as [e|[]]; simpl; [by eauto|].
    apply IH.
Qed.

(** An open verbatim box around a CNot on two qubits that the empty
    topology does not connect. *)
Definition open_box_bad_gate : list Instruction :=
  [ mkInstruction StartVerbatimBox [] [];
    mkInstruction (Gate "CNot" 2) [0%Z] [1%Z] ].

(** [start] is the first [StartVerbatimBox] of the circuit that no
    [EndVerbatimBox] follows: the boxes opened before it are all closed. *)
Definition first_unclosed (circuit before : list Instruction)
    (start : Instruction) (after : list Instruction) : Prop :=
  circuit = before ++ start :: after ∧
  is_start start = true ∧
  (∀ i, i ∈ after → is_end i = false) ∧
  ¬ unclosed before.

Lemma is_start_not_end i : is_start i = true → is_end i = false.
Proof. unfold is_start, is_end. by destruct (instr_operator i). Qed.

Lemma unclosed_cons_inv x l :
  unclosed (x :: l) →
  (is_start x = true ∧ ∀ i, i ∈ l → is_end i = false) ∨ unclosed l.
Proof.
  intros ([|y before] & start & after & E & Hs & Hno); simplify_eq/=.
  - by left.
  - right. by exists before, start, after.
Qed.

Lemma unclosed_cons x l : unclosed l → unclosed (x :: l).
Proof.
  intros (before & start & after & -> & Hs & Hno).
  by exists (x :: before), start, after.
Qed.

Lemma no_end_dec (l : list Instruction) :
  (∀ i, i ∈ l → is_end i = false) ∨ (∃ i, i ∈ l ∧ is_end i = true).
Proof.
  induction l as [|x l [IH|(i & Hi & He)]].
  - left. by intros i ?%elem_of_nil.
  - destruct (is_end x) eqn:Ex.
    + right. exists x. split; [by left|done].
    + left. intros i [->|?]%elem_of_cons; by auto.
  - right. exists i. split; [by right|done].
Qed.

(** An unclosed circuit has a first unclosed [StartVerbatimBox]. *)
Lemma first_unclosed_exists circuit :
  unclosed circuit → ∃ before start after, first_unclosed circuit before start after.
Proof.
  induction circuit as [|x l IH]; intros Hu.
  - destruct Hu as ([|? ?] & ? & ? & ? & _); discriminate.
  - destruct (is_start x) eqn:Ex; [destruct (no_end_dec l) as [Hno|Hend]|].
    + exists [], x, l. split; [done|]. split; [done|]. split; [done|].
      intros ([|? ?] & ? & ? & ? & _); discriminate.
    + apply unclosed_cons_inv in Hu as [[_ Hno]|Hu].
      { destruct Hend as (i & Hi & He). by rewrite (Hno i Hi) in He. }
      destruct (IH Hu) as (before & start & after & -> & Hs & Hno & Hb).
      exists (x :: before), start, after.
      split; [done|]. split; [done|]. split; [done|].
      intros [[_ Hno']|Hb']%unclosed_cons_inv; [|done].
      destruct Hend as (i & Hi & He).
      apply elem_of_app in Hi as [Hi|[->|Hi]%elem_of_cons].
      * by rewrite (Hno' i Hi) in He.
      * by rewrite (is_start_not_end _ Hs) in He.
      * by rewrite (Hno i Hi) in He.
    + apply unclosed_cons_inv in Hu as [[Hx _]|Hu]; [congruence|].
      destruct (IH Hu) as (before & start & after & -> & Hs & Hno & Hb).
      exists (x :: before), start, after.
      split; [done|]. split; [done|]. split; [done|].
      intros [[Hx _]|Hb']%unclosed_cons_inv; [congruence|done].
Qed.

(** The scan of a box that is closed within [l] does not look past [l]. *)
Lemma scan_closed_app g l r idx :
  (∃ i, i ∈ l ∧ is_end i = true) →
  scan_verbatim_box g (l ++ r) idx = scan_verbatim_box g l idx.
Proof.
  revert idx. induction l as [|x l IH]; intros idx (i & Hi & He).
  - by apply elem_of_nil in Hi.
  - simpl. destruct (is_end x) eqn:Ex; [done|].
    destruct (validate_in_box g x) as [e|[]]; simpl; [done|].
    apply IH. apply elem_of_cons in Hi as [->|Hi]; [congruence|by eauto].
Qed.

(** The scan of a box without end, when every instruction passes. *)
Lemma scan_all_pass g rest idx :
  (∀ i, i ∈ rest → is_end i = false) →
  (∀ i, i ∈ rest → validate_in_box g i = inr ()) →
  scan_verbatim_box g rest idx = inl (no_end_verbatim_box (idx + length rest)).
Proof.
  revert idx. induction rest as [|x rest IH]; intros idx Hno Hok; simpl.
  - by rewrite Nat.add_0_r.
  - rewrite (Hno x), (Hok x) by by left. simpl.
    rewrite IH; [do 2 f_equal; lia| |]; intros i Hi; [apply Hno|apply Hok];
      by right.
Qed.

(** The scan of a box without end, up to the first instruction that fails. *)
Lemma scan_first_failure g passed failed rest idx e :
  (∀ i, i ∈ passed → is_end i = false) →
  is_end failed = false →
  (∀ i, i ∈ passed → validate_in_box g i = inr ()) →
  validate_in_box g failed = inl e →
  scan_verbatim_box g (passed ++ failed :: rest) idx = inl e.
Proof.
  revert idx. induction passed as [|x passed IH]; intros idx Hno Hf Hok He; simpl.
  - by rewrite Hf, He.
  - rewrite (Hno x), (Hok x) by by left. simpl.
    apply IH; [|done| |done]; intros i Hi; [apply Hno|apply Hok]; by right.
Qed.

(** Up to the first unclosed [StartVerbatimBox], validation goes as on the
    instructions before it; then the rest of the circuit is scanned as the
    contents of its box. *)
Lemma validate_from_first_unclosed g before start after idx :
  is_start start = true →
  (∀ i, i ∈ after → is_end i = false) →
  ¬ unclosed before →
  validate_from g (before ++ start :: after) idx =
  match validate_from g before idx with
  | inl e => inl e
  | inr _ => scan_verbatim_box g after (S (idx + length before))
  end.
Proof.
  intros Hs Hno. revert idx.
  induction before as [|x before IH]; intros idx Hb; simpl.
  - rewrite Hs, Nat.add_0_r.
    destruct (scan_no_end g after (S idx) Hno) as (e & -> & _). done.
  - assert (Hb' : ¬ unclosed before) by (intros ?; by apply Hb, unclosed_cons).
    destruct (is_start x) eqn:Ex.
    + destruct (no_end_dec before) as [Hnb|Hend].
      { destruct Hb. by exists [], x, before. }
      rewrite (scan_closed_app g before (start :: after) (S idx) Hend).
      destruct (scan_verbatim_box g before (S idx)) as [e|[]]; simpl; [done|].
      rewrite (IH (S idx) Hb'). by rewrite Nat.add_succ_r.
    + simpl. rewrite (IH (S idx) Hb'). by rewrite Nat.add_succ_r.
Qed.

(** An open verbatim box, after a CNot outside of it that the topology does
    not connect, around a one-qubit gate on a qubit of the device. *)
Definition open_box_after_gate : list Instruction :=
  [ mkInstruction (Gate "CNot" 2) [0%Z] [1%Z];
    mkInstruction StartVerbatimBox [] [];
    mkInstruction (Gate "H" 1) [] [0%Z] ].

Lemma open_box_after_gate_unclosed : unclosed open_box_after_gate.
Proof.
  exists [mkInstruction (Gate "CNot" 2) [0%Z] [1%Z]],
         (mkInstruction StartVerbatimBox [] []),
         [mkInstruction (Gate "H" 1) [] [0%Z]].
  split; [reflexivity|]. split; [reflexivity|].
  intros i Hi. apply list_elem_of_singleton in Hi. subst i. reflexivity.
Defined.

(** C9, as the code has it.  A circuit with a [StartVerbatimBox] that no
    [EndVerbatimBox] follows never passes gate-connectivity validation, and
    it has a first such [StartVerbatimBox].  The error is settled at that
    one: an error raised on the instructions before it, whose boxes are all
    closed, is the error of the circuit; otherwise the instructions after it
    are checked in their order as the contents of the box, the error of the
    first one that fails its check is raised, and when all of them pass the
    error is ["No end verbatim box found at index n in the circuit."], [n]
    being the number of instructions of the circuit.  The check of a
    two-qubit gate in a box raises ["c is not connected to t on this
    device."] when the graph has no edge from [c] to [t], and ["Qubit pair
    (c, t) does not support gate name on this device."] when it has the edge
    and the gate is not among its supported gates; the missing-end error
    differs from both. *)
Theorem unclosed_verbatim_box_error (g : DiGraph) (circuit : list Instruction) :
  unclosed circuit →
  (∃ e, validate g circuit = inl e) ∧
  (∃ before start after, first_unclosed circuit before start after) ∧
  (∀ before start after,
     first_unclosed circuit before start after →
     (∀ e, validate g before = inl e → validate g circuit = inl e) ∧
     (validate g before = inr () →
      (∀ passed failed rest e,
         after = passed ++ failed :: rest →
         (∀ i, i ∈ passed → validate_in_box g i = inr ()) →
         validate_in_box g failed = inl e →
         validate g circuit = inl e) ∧
      ((∀ i, i ∈ after → validate_in_box g i = inr ()) →
       validate g circuit
       = inl (ValueError
                [Lit "No end verbatim box found at index ";
                 Int (Z.of_nat (length circuit));
                 Lit " in the circuit."])))) ∧
  (∀ instruction name c t,
     instr_operator instruction = Gate name 2 →
     (control instruction = [c] ∧ target instruction = [t]) ∨
     (control instruction = [] ∧ target instruction = [c; t]) →
     (¬ edge g c t →
      validate_in_box g instruction
      = inl (ValueError [Int c; Lit " is not connected to "; Int t;
                         Lit " on this device."])) ∧
     (∀ gates, edge_attr g c t "supported_gates" = Some gates →
        name ∉ gates →
        validate_in_box g instruction
        = inl (ValueError [Lit "Qubit pair ("; Int c; Lit ", "; Int t;
                           Lit ") does not support gate "; Lit name;
                           Lit " on this device."]))) ∧
  (∀ idx a b name,
     ValueError [Lit "No end verbatim box found at index "; Int idx;
                 Lit " in the circuit."]
     ≠ ValueError [Int a; Lit " is not connected to "; Int b;
                   Lit " on this device."] ∧
     ValueError [Lit "No end verbatim box found at index "; Int idx;
                 Lit " in the circuit."]
     ≠ ValueError [Lit "Qubit pair ("; Int a; Lit ", "; Int b;
                   Lit ") does not support gate "; Lit name;
                   Lit " on this device."]).
Proof.
  intros Hu. split; [|split; [|split; [|split]]].
  - destruct Hu as (before & start & after & -> & Hs & Hno).
    apply validate_from_unclosed; done.
  - by apply first_unclosed_exists.
  - intros before start after (-> & Hs & Hno & Hb). unfold validate.
    rewrite (validate_from_first_unclosed g before start after 0 Hs Hno Hb).
    split.
    + by intros e ->.
    + intros ->. split.
      * intros passed failed rest e -> Hok He.
        apply scan_first_failure; [| |done|done].
        -- intros i Hi. apply Hno, elem_of_app. by left.
        -- apply Hno, elem_of_app. right. by left.
      * intros Hok. rewrite (scan_all_pass g after _ Hno Hok).
        unfold no_end_verbatim_box. do 5 f_equal.
        rewrite length_app. simpl. lia.
  - intros instruction name c t Hop Hqubits.
    assert (Hv : validate_in_box g instruction
                 = validate_instruction_connectivity g name [c] [t]
                 ∨ validate_in_box g instruction
                   = validate_instruction_connectivity g name [] [c; t]).
    { unfold validate_in_box. rewrite Hop. rewrite decide_True by done.
      destruct Hqubits as [[-> ->]|[-> ->]]; by auto. }
    split.
    + intros Hne. apply has_edge_false in Hne.
      destruct Hv as [-> | ->]; unfold validate_instruction_connectivity;
        simpl; by rewrite Hne.
    + intros gates Hg Hnot.
      assert (He : has_edge g c t = true).
      { apply has_edge_true. unfold edge. unfold edge_attr in Hg.
        destruct (edge_data g c t); [by eauto|done]. }
      destruct Hv as [-> | ->];
        unfold validate_instruction_connectivity, get_edge_attr; simpl;
        rewrite He, Hg; simpl; by rewrite decide_False.
  - intros idx a b name. split; discriminate.
Qed.

Lemma unclosed_verbatim_box_error_witness :
  let g := add_node empty 0%Z in
  let circuit := open_box_after_gate in
  (∃ e, validate g circuit = inl e) ∧
  (∃ before start after, first_unclosed circuit before start after) ∧
  (∀ before start after,
     first_unclosed circuit before start after →
     (∀ e, validate g before = inl e → validate g circuit = inl e) ∧
     (validate g before = inr () →
      (∀ passed failed rest e,
         after = passed ++ failed :: rest →
         (∀ i, i ∈ passed → validate_in_box g i = inr ()) →
         validate_in_box g failed = inl e →
         validate g circuit = inl e) ∧
      ((∀ i, i ∈ after → validate_in_box g i = inr ()) →
       validate g circuit
       = inl (ValueError
                [Lit "No end verbatim box found at index ";
                 Int (Z.of_nat (length circuit));
                 Lit " in the circuit."])))) ∧
  (∀ instruction name c t,
     instr_operator instruction = Gate name 2 →
     (control instruction = [c] ∧ target instruction = [t]) ∨
     (control instruction = [] ∧ target instruction = [c; t]) →
     (¬ edge g c t →
      validate_in_box g instruction
      = inl (ValueError [Int c; Lit " is not connected to "; Int t;
                         Lit " on this device."])) ∧
     (∀ gates, edge_attr g c t "supported_gates" = Some gates →
        name ∉ gates →
        validate_in_box g instruction
        = inl (ValueError [Lit "Qubit pair ("; Int c; Lit ", "; Int t;
                           Lit ") does not support gate "; Lit name;
                           Lit " on this device."]))) ∧
  (∀ idx a b name,
     ValueError [Lit "No end verbatim box found at index "; Int idx;
                 Lit " in the circuit."]
     ≠ ValueError [Int a; Lit " is not connected to "; Int b;
                   Lit " on this device."] ∧
     ValueError [Lit "No end verbatim box found at index "; Int idx;
                 Lit " in the circuit."]
     ≠ ValueError [Lit "Qubit pair ("; Int a; Lit ", "; Int b;
                   Lit ") does not support gate "; Lit name;
                   Lit " on this device."]).
Proof.
  exact (unclosed_verbatim_box_error (add_node empty 0%Z) open_box_after_gate
           open_box_after_gate_unclosed).
Defined.

(** The circuit [open_box_after_gate], evaluated: the CNot before the box is
    not checked, and the missing end is reported at index 3. *)
Example open_box_after_gate_check :
  validate (add_node empty 0%Z) open_box_after_gate
  = inl (ValueError [Lit "No end verbatim box found at index "; Int 3;
                     Lit " in the circuit."]).
Proof. reflexivity. Qed.

(** C9, as the specification states it, fails: with a disconnected CNot
    inside the open box, validation raises the connectivity error and never
    gets to report the missing end. *)
Lemma unclosed_box_counterexample :
  validate empty open_box_bad_gate = inl (not_connected 0%Z 1%Z) ∧
  ¬ unclosed_box_always_reported.
Proof.
  assert (Hv : validate empty open_box_bad_gate = inl (not_connected 0%Z 1%Z))
    by reflexivity.
  split; [exact Hv|]. intros Hclaim.
  destruct (Hclaim empty open_box_bad_gate) as (idx & Hidx).
  - exists [], (mkInstruction StartVerbatimBox [] []),
           [mkInstruction (Gate "CNot" 2) [0%Z] [1%Z]].
    split; [reflexivity|]. split; [reflexivity|].
    intros i Hi. apply list_elem_of_singleton in Hi. subst i. reflexivity.
  - rewrite Hv in Hidx. discriminate.
Qed.

End gate_connectivity_criterion.

(** * Analog Hamiltonian simulation: constants and validators *)

(** Modelled from the spec: [DeviceCapabilitiesConstants]
    ([device_capabilities_constants.py] is not among the sources).  A flat
    record of numeric limits; the local-detuning constants are optional and
    absent ([None]) by default, the flag [LOCAL_RYDBERG_CAPABILITIES] is
    [False] by default.  The field names are those that the builder and the
    validators use. *)
Record DeviceCapabilitiesConstants := mkDeviceCapabilitiesConstants {
  MAX_SITES : Q;
  MIN_DISTANCE : Q;
  MIN_ROW_DISTANCE : Q;
  SITE_PRECISION : Q;
  BOUNDING_BOX_SIZE_X : Q;
  BOUNDING_BOX_SIZE_Y : Q;
  MAX_FILLED_SITES : Q;
  MIN_TIME : Q;
  MAX_TIME : Q;
  GLOBAL_TIME_PRECISION : Q;
  GLOBAL_MIN_TIME_SEPARATION : Q;
  GLOBAL_AMPLITUDE_VALUE_MIN : Q;
  GLOBAL_AMPLITUDE_VALUE_MAX : Q;
  GLOBAL_AMPLITUDE_VALUE_PRECISION : Q;
  GLOBAL_AMPLITUDE_SLOPE_MAX : Q;
  GLOBAL_PHASE_VALUE_MIN : Q;
  GLOBAL_PHASE_VALUE_MAX : Q;
  GLOBAL_PHASE_VALUE_PRECISION : Q;
  GLOBAL_DETUNING_VALUE_MIN : Q;
  GLOBAL_DETUNING_VALUE_MAX : Q;
  GLOBAL_DETUNING_VALUE_PRECISION : Q;
  GLOBAL_DETUNING_SLOPE_MAX : Q;
  LOCAL_RYDBERG_CAPABILITIES : bool;
  LOCAL_MIN_DISTANCE_BETWEEN_SHIFTED_SITES : option Q;
  LOCAL_TIME_PRECISION : option Q;
  LOCAL_MIN_TIME_SEPARATION : option Q;
  LOCAL_MAGNITUDE_SEQUENCE_VALUE_MIN : option Q;
  LOCAL_MAGNITUDE_SEQUENCE_VALUE_MAX : option Q;
  LOCAL_MAGNITUDE_SLOPE_MAX : option Q;
  LOCAL_MAX_NONZERO_PATTERN_VALUES : option Q;
  MAGNITUDE_PATTERN_VALUE_MIN : option Q;
  MAGNITUDE_PATTERN_VALUE_MAX : option Q
}.

(** [for x in xs: body(x)], stopping at the first exception. *)
Fixpoint for_each {A} (body : A → result unit) (xs : list A) : result unit :=
  match xs with
  | [] => mret ()
  | x :: xs' => _ ← body x; for_each body xs'
  end.

Lemma for_each_ok {A} (body : A → result unit) xs :
  for_each body xs = inr () ↔ ∀ x, x ∈ xs → body x = inr ().
Proof.
  induction xs as [|x xs IH]; simpl.
  - split; [by intros _ x ?%elem_of_nil|done].
  - destruct (body x) as [e|[]] eqn:Ex; simpl.
    + split; [done|]. intros H. specialize (H x (list_elem_of_here _ _)).
      by rewrite Ex in H.
    + rewrite IH. split.
      * intros H y [->|Hy]%elem_of_cons; by auto.
      * intros H y Hy. apply H. by right.
Qed.

Lemma for_each_error {A} (body : A → result unit) xs e :
  for_each body xs = inl e →
  ∃ before x after, xs = before ++ x :: after ∧ body x = inl e ∧
                    ∀ y, y ∈ before → body y = inr ().
Proof.
  induction xs as [|x xs IH]; simpl; [done|].
  destruct (body x) as [e'|[]] eqn:Ex; simpl.
  - intros [= <-]. exists [], x, xs. split; [done|]. split; [done|].
    by intros y ?%elem_of_nil.
  - intros (before & y & after & -> & Hy & Hb)%IH.
    exists (x :: before), y, after. split; [done|]. split; [done|].
    intros z [->|Hz]%elem_of_cons; by auto.
Qed.

(** ** device_driving_field.py *)

Module device_driving_field.

Record TimeSeries := mkTimeSeries {
  times : list Q;
  values : list Q
}.

Record PhysicalField := mkPhysicalField {
  time_series : TimeSeries;
  pattern : string
}.

(** The [values] dictionary handed to the root validators. *)
Record DrivingFieldData := mkDrivingFieldData {
  amplitude : PhysicalField;
  phase : PhysicalField;
  detuning : PhysicalField;
  capabilities : DeviceCapabilitiesConstants
}.

(** [x != 0] on numbers. *)
Definition nonzero (x : Q) : bool := negb (Qeq_bool x 0).

Definition boundary_values_error (start_value end_value : Q) : exn :=
  ValueError
    [Lit "The values of the Rabi frequency at the first and last time points are ";
     Dec start_value; Lit ", "; Dec end_value;
     Lit "; they both must be nonzero."].

Definition amplitude_start_and_end_values (data : DrivingFieldData)
  : result DrivingFieldData :=
  let time_series_values := values (time_series (amplitude data)) in
  match time_series_values with
  | [] => mret data
  | start_value :: _ =>
      let end_value := List.last time_series_values start_value in
      if nonzero start_value || nonzero end_value
      then raise (boundary_values_error start_value end_value)
      else mret data
  end.

Lemma nonzero_true x : nonzero x = true ↔ ¬ (x == 0)%Q.
Proof.
  unfold nonzero. rewrite negb_true_iff, <- not_true_iff_false.
  by rewrite Qeq_bool_iff.
Qed.

Lemma nonzero_false x : nonzero x = false ↔ (x == 0)%Q.
Proof. unfold nonzero. by rewrite negb_false_iff, Qeq_bool_iff. Qed.

(** The driving field whose amplitude has the given values, the other
    fields being arbitrary. *)
Definition with_amplitude_values (data : DrivingFieldData) (vs : list Q)
  : DrivingFieldData :=
  mkDrivingFieldData
    (mkPhysicalField
       (mkTimeSeries (times (time_series (amplitude data))) vs)
       (pattern (amplitude data)))
    (phase data) (detuning data) (capabilities data).

Lemma amplitude_start_and_end_values_cons data first rest :
  amplitude_start_and_end_values (with_amplitude_values data (first :: rest)) =
  if nonzero first || nonzero (List.last (first :: rest) first)
  then raise (boundary_values_error first (List.last (first :: rest) first))
  else mret (with_amplitude_values data (first :: rest)).
Proof. reflexivity. Qed.

(** Scenario C of the specification: an amplitude series that starts and
    ends at zero, and the same series with its last value changed. *)
Definition scenario_C_values : list Q :=
  [0; 12566400; 12566400; 0]%Q.

Definition scenario_C_flipped : list Q :=
  [0; 12566400; 12566400; 400]%Q.

(** C6.  For a driving field whose amplitude series has the values
    [first :: rest], whatever the times, the other values and the other
    fields are: the boundary check raises exactly when the first or the last
    value is not zero; what it raises is then the [ValueError] whose message
    is the source's text with the first value and the last value printed in
    it, in this order; and a series that starts and ends at zero passes, the
    data being returned as it is. *)
Theorem amplitude_boundary_check (data : DrivingFieldData) (first : Q)
    (rest : list Q) :
  let vs := first :: rest in
  let last_value := List.last vs first in
  let checked := amplitude_start_and_end_values (with_amplitude_values data vs) in
  ((∃ e, checked = inl e) ↔ (¬ (first == 0)%Q ∨ ¬ (last_value == 0)%Q)) ∧
  (∀ e, checked = inl e →
     e = ValueError
           [Lit "The values of the Rabi frequency at the first and last time points are ";
            Dec first; Lit ", "; Dec last_value;
            Lit "; they both must be nonzero."]) ∧
  ((first == 0)%Q ∧ (last_value == 0)%Q →
   checked = inr (with_amplitude_values data vs)).
Proof.
  cbv zeta. rewrite amplitude_start_and_end_values_cons.
  unfold boundary_values_error.
  set (last_value := List.last (first :: rest) first).
  destruct (nonzero first) eqn:E1; destruct (nonzero last_value) eqn:E2;
    simpl orb; cbv iota;
    try apply nonzero_true in E1; try apply nonzero_false in E1;
    try apply nonzero_true in E2; try apply nonzero_false in E2.
  - split; [|split].
    + split; [by auto|by eauto].
    + by intros e [= <-].
    + by intros [? _].
  - split; [|split].
    + split; [by auto|by eauto].
    + by intros e [= <-].
    + by intros [? _].
  - split; [|split].
    + split; [by auto|by eauto].
    + by intros e [= <-].
    + by intros [_ ?].
  - split; [|split].
    + split; [by intros [e ?]|]. by intros [?|?].
    + by intros e.
    + done.
Qed.

(** Scenario C, evaluated. *)
Example scenario_C_check data :
  amplitude_start_and_end_values (with_amplitude_values data scenario_C_values)
    = inr (with_amplitude_values data scenario_C_values) ∧
  amplitude_start_and_end_values (with_amplitude_values data scenario_C_flipped)
    = inl (boundary_values_error 0 400).
Proof. split; reflexivity. Qed.

End device_driving_field.

(** ** binary64 numbers *)

(** [float(n)] for an [int], and the binary64 number of an integer literal:
    the nearest binary64 number, ties to even. *)
Definition Z2float (n : Z) : float :=
  SF2Prim (binary_normalize prec emax n 0 false).

(** ** device_atom_arrangement.py *)

Module device_atom_arrangement.

(** *** The numbers of a site *)

(** A coordinate is what the caller has put into the [sites] entry: a Python
    [int], a [float] (binary64) or a finite [Decimal], the number
    [coefficient * 10 ^ exponent]. *)
Inductive number :=
  | PyInt (n : Z)
  | PyFloat (f : float)
  | PyDecimal (coefficient exponent : Z).

(** What [Decimal(...)] builds from such a number. *)
Inductive Decimal :=
  | Finite (coefficient exponent : Z)
  | Infinity (negative : bool)
  | NaN.

(** A site is the pair of its [x] and [y] coordinates. *)
Abbreviation site := (number * number)%type.

(** The pieces of the message of the row check. *)
Inductive piece :=
  | Text (s : string)
  | Site (s : site)
  | Distance (d : Decimal)
  | Minimum (q : Q).

(** What the row check can raise: the [TypeError] of an operation between a
    [Decimal] and a [float], the [OverflowError] of an [int] too large for a
    [float], the signals [Overflow] and [InvalidOperation] of the decimal
    context, and the [ValueError] of the check itself. *)
Inductive raised :=
  | TypeError
  | OverflowError
  | DecimalOverflow
  | InvalidOperation
  | ValueError (msg : list piece).

Global Instance raised_ret : MRet (sum raised) := λ A x, inr x.
Global Instance raised_bind : MBind (sum raised) :=
  λ A B f m, match m with inl e => inl e | inr x => f x end.

(** **** binary64 *)

Definition float_of_int (n : Z) : raised + float :=
  let f := Z2float n in
  if PrimFloat.is_infinity f then inl OverflowError else inr f.

(** [Decimal(f)] for a [float]: its exact value. *)
Definition Decimal_of_float (f : float) : Decimal :=
  match Prim2SF f with
  | S754_zero _ => Finite 0 0
  | S754_infinity s => Infinity s
  | S754_nan => NaN
  | S754_finite s m e =>
      if (0 <=? e)%Z then Finite (cond_Zopp s (Z.pos m) * 2 ^ e) 0
      else Finite (cond_Zopp s (Z.pos m) * 5 ^ (- e)) e
  end.

(** **** The decimal context *)

(** The default context of the [decimal] module: 28 digits, rounding to the
    nearest with ties to even, exponents from [-999999] to [999999], the
    signal [Overflow] trapped, [Underflow] and [Inexact] not trapped. *)
Definition context_prec : Z := 28.
Definition Emax : Z := 999999.
Definition Emin : Z := -999999.
Definition Etiny : Z := Emin - context_prec + 1.
Definition Etop : Z := Emax - context_prec + 1.

(** The number of decimal digits of a number, zero for zero. *)
Fixpoint digits_aux (fuel : nat) (n : Z) : Z :=
  match fuel with
  | O => 0
  | S fuel' => if (n <=? 0)%Z then 0 else (1 + digits_aux fuel' (n / 10))%Z
  end.

Definition digits (n : Z) : Z :=
  digits_aux (S (Z.to_nat (Z.log2 (Z.abs n)))) (Z.abs n).

(** [n / d] rounded to the nearest integer, ties to even, for [0 <= n] and
    [0 < d]. *)
Definition round_half_even (n d : Z) : Z :=
  let q := (n / d)%Z in
  let r := (n mod d)%Z in
  if (2 * r <? d)%Z then q
  else if (d <? 2 * r)%Z then (q + 1)%Z
  else if Z.even q then q else (q + 1)%Z.

(** The rounding of a result to the context: the value of
    [coefficient * 10 ^ exponent] with at most 28 digits and an exponent not
    below [Etiny]. *)
Definition _fix (coefficient exponent : Z) : raised + (Z * Z) :=
  if (coefficient =? 0)%Z then inr (0%Z, exponent)
  else
    let exp_min := (digits coefficient + exponent - context_prec)%Z in
    if (Etop <? exp_min)%Z then inl DecimalOverflow
    else
      let exp_min := Z.max exp_min Etiny in
      if (exponent <? exp_min)%Z then
        let coeff :=
          round_half_even (Z.abs coefficient) (10 ^ (exp_min - exponent)) in
        let '(coeff, exp_min) :=
          if (10 ^ context_prec <=? coeff)%Z
          then ((coeff / 10)%Z, (exp_min + 1)%Z) else (coeff, exp_min) in
        if (Etop <? exp_min)%Z then inl DecimalOverflow
        else inr ((Z.sgn coefficient * coeff)%Z, exp_min)
      else inr (coefficient, exponent).

(** [a - b] on two finite [Decimal]s: the exact difference, rounded to the
    context. *)
Definition decimal_sub (c1 e1 c2 e2 : Z) : raised + number :=
  let e := Z.min e1 e2 in
  '(c, e) ← _fix (c1 * 10 ^ (e1 - e) - c2 * 10 ^ (e2 - e)) e;
  mret (PyDecimal c e).

(** **** The operations of the check *)

(** [a - b] *)
Definition number_sub (a b : number) : raised + number :=
  match a, b with
  | PyInt a, PyInt b => mret (PyInt (a - b))
  | PyFloat a, PyFloat b => mret (PyFloat (a - b)%float)
  | PyInt a, PyFloat b => a ← float_of_int a; mret (PyFloat (a - b)%float)
  | PyFloat a, PyInt b => b ← float_of_int b; mret (PyFloat (a - b)%float)
  | PyDecimal c1 e1, PyDecimal c2 e2 => decimal_sub c1 e1 c2 e2
  | PyDecimal c1 e1, PyInt b => decimal_sub c1 e1 b 0
  | PyInt a, PyDecimal c2 e2 => decimal_sub a 0 c2 e2
  | PyDecimal _ _, PyFloat _ | PyFloat _, PyDecimal _ _ => inl TypeError
  end.

(** [abs(a)] *)
Definition number_abs (a : number) : raised + number :=
  match a with
  | PyInt a => mret (PyInt (Z.abs a))
  | PyFloat a => mret (PyFloat (PrimFloat.abs a))
  | PyDecimal c e => '(c, e) ← _fix (Z.abs c) e; mret (PyDecimal c e)
  end.

(** [Decimal(a)] *)
Definition to_Decimal (a : number) : Decimal :=
  match a with
  | PyInt a => Finite a 0
  | PyFloat a => Decimal_of_float a
  | PyDecimal c e => Finite c e
  end.

(** The value of a finite [Decimal]. *)
Definition decimal_value (coefficient exponent : Z) : Q :=
  (inject_Z coefficient * 10 ^ exponent)%Q.

(** [d == 0] *)
Definition is_zero (d : Decimal) : bool :=
  match d with
  | Finite c _ => (c =? 0)%Z
  | _ => false
  end.

(** [d < limit] for a finite [limit]: a comparison with a [NaN] signals
    [InvalidOperation]. *)
Definition less_than (d : Decimal) (limit : Q) : raised + bool :=
  match d with
  | Finite c e => inr (Qltb (decimal_value c e) limit)
  | Infinity negative => inr negative
  | NaN => inl InvalidOperation
  end.

(** **** The order of the keys *)

(** The place of a number among the others: its value, an infinity, or no
    place at all for a [NaN]. *)
Inductive place :=
  | NegInf
  | Fin (q : Q)
  | PosInf
  | Unordered.

Definition place_of (a : number) : place :=
  match a with
  | PyInt a => Fin (inject_Z a)
  | PyDecimal c e => Fin (decimal_value c e)
  | PyFloat f =>
      match Prim2SF f with
      | S754_zero _ => Fin 0
      | S754_finite s m e => Fin (inject_Z (cond_Zopp s (Z.pos m)) * 2 ^ e)%Q
      | S754_infinity s => if s then NegInf else PosInf
      | S754_nan => Unordered
      end
  end.

(** [a < b] on keys. *)
Definition key_lt (a b : number) : bool :=
  match place_of a, place_of b with
  | Unordered, _ | _, Unordered => false
  | NegInf, NegInf => false
  | NegInf, _ => true
  | _, NegInf => false
  | PosInf, _ => false
  | Fin _, PosInf => true
  | Fin p, Fin q => Qltb p q
  end.

(** *** The row check *)

(** The [values] dictionary handed to the root validators. *)
Record AtomArrangementData := mkAtomArrangementData {
  sites : list site;
  filling : list Z;
  capabilities : DeviceCapabilitiesConstants
}.

Definition _y_distance (site_1 site_2 : site) : raised + Decimal :=
  difference ← number_sub site_1.2 site_2.2;
  distance ← number_abs difference;
  mret (to_Decimal distance).

(** [sorted(sites, key=lambda xy: xy[1])] for keys that [<] orders, that is
    without a [NaN] among them.  The sort of Python is stable; so is this
    insertion sort: a site goes in front of the first site whose [y] is not
    smaller, and the sites are inserted from the last to the first. *)
Fixpoint insert_by_y (s : site) (l : list site) : list site :=
  match l with
  | [] => [s]
  | s' :: l' => if key_lt s'.2 s.2 then s' :: insert_by_y s l' else s :: l
  end.

Definition sorted_by_y (l : list site) : list site := foldr insert_by_y [] l.

(** [Decimal("0.000002")] *)
Definition local_rydberg_row_distance : Q := (2 # 1000000)%Q.

Definition min_row_distance (capabilities : DeviceCapabilitiesConstants) : Q :=
  if LOCAL_RYDBERG_CAPABILITIES capabilities then local_rydberg_row_distance
  else MIN_ROW_DISTANCE capabilities.

(** The body of the loop over [zip(sorted_sites[:-1], sorted_sites[1:])]. *)
Definition check_pair (min_allowed_distance : Q) (pair : site * site)
  : raised + unit :=
  let '(s1, s2) := pair in
  row_distance ← _y_distance s1 s2;
  if is_zero row_distance then mret ()
  else
    too_close ← less_than row_distance min_allowed_distance;
    if too_close : bool then
      inl (ValueError
             [Text "Sites "; Site s1; Text " and site "; Site s2;
              Text " have y-separation ("; Distance row_distance;
              Text "). It must either be exactly zero or not smaller than ";
              Minimum min_allowed_distance; Text " meters"])
    else mret ().

(** [for pair in pairs: body(pair)], stopping at the first exception. *)
Fixpoint for_pairs {A} (body : A → raised + unit) (xs : list A)
  : raised + unit :=
  match xs with
  | [] => mret ()
  | x :: xs' => _ ← body x; for_pairs body xs'
  end.

Definition sites_in_rows (data : AtomArrangementData)
  : raised + AtomArrangementData :=
  let sorted_sites := sorted_by_y (sites data) in
  let min_allowed_distance := min_row_distance (capabilities data) in
  _ ← for_pairs (check_pair min_allowed_distance)
        (zip (removelast sorted_sites) (tail sorted_sites));
  mret data.

(** Examples of the arithmetic: [0.1 + 0.2 - 0.3] is not zero on [float]s,
    [Decimal(4e-6)] is below [Decimal("0.000004")], and the difference of
    two [Decimal]s is rounded to 28 digits. *)
Example float_difference :
  _y_distance (PyInt 0, PyFloat (Z2float 1 / Z2float 10 + Z2float 2 / Z2float 10))
              (PyInt 0, PyFloat (Z2float 3 / Z2float 10))
  = inr (Finite (4503599627370496 * 5 ^ 106) (-106)).
Proof. vm_compute. reflexivity. Qed.

Example float_below_decimal :
  (d ← _y_distance (PyInt 0, PyInt 0) (PyInt 0, PyFloat (Z2float 4 / Z2float 1000000));
   less_than d (4 # 1000000))
  = inr true.
Proof. vm_compute. reflexivity. Qed.

Example decimal_rounded :
  _y_distance (PyInt 0, PyDecimal 1 0) (PyInt 0, PyDecimal 1 (-30))
  = inr (Finite (10 ^ 27) (-27)).
Proof. vm_compute. reflexivity. Qed.


(** *** The sort *)

(** [a.y <= b.y] as the sort sees it: [b.y < a.y] does not hold. *)
Definition y_le (a b : site) : Prop := key_lt b.2 a.2 = false.

Lemma Qltb_asym p q : Qltb p q = true → Qltb q p = false.
Proof.
  unfold Qltb. rewrite negb_true_iff, negb_false_iff.
  intros H. apply Qle_bool_iff, Qlt_le_weak, Qnot_le_lt. intros Hle.
  apply Qle_bool_iff in Hle. congruence.
Qed.

Lemma key_lt_asym a b : key_lt a b = true → key_lt b a = false.
Proof.
  unfold key_lt. destruct (place_of a), (place_of b); try done.
  apply Qltb_asym.
Qed.

Lemma insert_by_y_perm s l : insert_by_y s l ≡ₚ s :: l.
Proof.
  induction l as [|s' l IH]; simpl; [done|].
  destruct (key_lt s'.2 s.2); [|done].
  by rewrite IH, Permutation_swap.
Qed.

Lemma sorted_by_y_perm l : sorted_by_y l ≡ₚ l.
Proof.
  induction l as [|s l IH]; simpl; [done|].
  by rewrite insert_by_y_perm, IH.
Qed.

Lemma insert_by_y_sorted s l : Sorted y_le l → Sorted y_le (insert_by_y s l).
Proof.
  induction 1 as [|s' l Hl IH Hhd]; simpl.
  - by repeat constructor.
  - destruct (key_lt s'.2 s.2) eqn:E.
    + constructor; [done|].
      destruct Hhd as [|s'' l Hs'']; simpl.
      * constructor. by apply key_lt_asym.
      * destruct (key_lt s''.2 s.2); constructor; [done|].
        by apply key_lt_asym.
    + by repeat constructor.
Qed.

Lemma sorted_by_y_sorted l : Sorted y_le (sorted_by_y l).
Proof.
  induction l as [|s l IH]; simpl; [constructor|]. by apply insert_by_y_sorted.
Qed.

(** *** The pairs of neighbours *)

Lemma elem_of_neighbours {A} (l : list A) (a b : A) :
  (a, b) ∈ zip (removelast l) (tail l) ↔
  ∃ i, l !! i = Some a ∧ l !! S i = Some b.
Proof.
  induction l as [|x l IH].
  - simpl. split; [by intros ?%elem_of_nil|]. by intros (i & ? & _).
  - destruct l as [|y t].
    + simpl. split; [by intros ?%elem_of_nil|].
      intros (i & _ & Hi). by destruct i.
    + change (zip (removelast (x :: y :: t)) (tail (x :: y :: t)))
        with ((x, y) :: zip (removelast (y :: t)) (tail (y :: t))).
      rewrite elem_of_cons, IH. split.
      * intros [[= -> ->]|(i & Ha & Hb)]; [by exists 0|by exists (S i)].
      * intros ([|i] & Ha & Hb); simpl in *.
        -- left. congruence.
        -- right. by exists i.
Qed.

Lemma for_pairs_ok {A} (body : A → raised + unit) xs :
  for_pairs body xs = inr () ↔ ∀ x, x ∈ xs → body x = inr ().
Proof.
  induction xs as [|x xs IH]; simpl.
  - split; [by intros _ x ?%elem_of_nil|done].
  - destruct (body x) as [e|[]] eqn:Ex; simpl.
    + split; [done|]. intros H. specialize (H x (list_elem_of_here _ _)).
      by rewrite Ex in H.
    + rewrite IH. split.
      * intros H y [->|Hy]%elem_of_cons; by auto.
      * intros H y Hy. apply H. by right.
Qed.

Lemma for_pairs_error {A} (body : A → raised + unit) xs e :
  for_pairs body xs = inl e →
  ∃ before x after, xs = before ++ x :: after ∧ body x = inl e ∧
                    ∀ y, y ∈ before → body y = inr ().
Proof.
  induction xs as [|x xs IH]; simpl; [done|].
  destruct (body x) as [e'|[]] eqn:Ex; simpl.
  - intros [= <-]. exists [], x, xs. split; [done|]. split; [done|].
    by intros y ?%elem_of_nil.
  - intros (before & y & after & -> & Hy & Hb)%IH.
    exists (x :: before), y, after. split; [done|]. split; [done|].
    intros z [->|Hz]%elem_of_cons; by auto.
Qed.

Lemma check_pair_ok m s1 s2 :
  check_pair m (s1, s2) = inr () ↔
  ∃ row_distance, _y_distance s1 s2 = inr row_distance ∧
    (is_zero row_distance = true ∨ less_than row_distance m = inr false).
Proof.
  unfold check_pair. destruct (_y_distance s1 s2) as [e|d]; simpl.
  - split; [done|]. by intros (d & ? & _).
  - destruct (is_zero d) eqn:E0.
    + split; [|done]. intros _. exists d. by auto.
    + destruct (less_than d m) as [e|[]] eqn:El; simpl.
      * split; [done|]. intros (d' & [= <-] & [?|?]); congruence.
      * split; [done|]. intros (d' & [= <-] & [?|?]); congruence.
      * split; [|done]. intros _. exists d. by auto.
Qed.


(** *** Exact differences of decimals *)

Lemma digits_aux_le fuel n k :
  (0 ≤ k)%Z → (n < 10 ^ k)%Z → (digits_aux fuel n ≤ k)%Z.
Proof.
  revert n k. induction fuel as [|fuel IH]; intros n k Hk Hn; simpl; [done|].
  destruct (n <=? 0)%Z eqn:E; [done|]. apply Z.leb_gt in E.
  assert (Hk1 : (1 ≤ k)%Z).
  { destruct (decide (k = 0%Z)) as [->|]; [|lia]. simpl in Hn. lia. }
  assert (Hdiv : (n / 10 < 10 ^ (k - 1))%Z).
  { apply Z.div_lt_upper_bound; [lia|].
    replace (10 * 10 ^ (k - 1))%Z with (10 ^ k)%Z; [done|].
    rewrite <- Z.pow_succ_r by lia. f_equal. lia. }
  specialize (IH (n / 10)%Z (k - 1)%Z ltac:(lia) Hdiv). lia.
Qed.

Lemma digits_le n : (Z.abs n < 10 ^ context_prec)%Z → (digits n ≤ context_prec)%Z.
Proof. intros H. apply digits_aux_le; [done|done]. Qed.

(** A coefficient of at most 28 digits with an exponent of the context is
    not rounded. *)
Lemma _fix_exact c e :
  (Z.abs c < 10 ^ context_prec)%Z → (Etiny ≤ e ≤ Etop)%Z →
  _fix c e = inr (c, e).
Proof.
  intros Hc He. unfold _fix. destruct (c =? 0)%Z eqn:E0.
  - apply Z.eqb_eq in E0. by subst c.
  - pose proof (digits_le c Hc) as Hd. cbv zeta.
    rewrite (proj2 (Z.ltb_ge _ _)) by lia.
    rewrite (proj2 (Z.ltb_ge _ _)) by lia. done.
Qed.

Lemma _y_distance_decimal x1 x2 c1 e1 c2 e2 :
  let e := Z.min e1 e2 in
  let c := (c1 * 10 ^ (e1 - e) - c2 * 10 ^ (e2 - e))%Z in
  (Z.abs c < 10 ^ context_prec)%Z → (Etiny ≤ e ≤ Etop)%Z →
  _y_distance (x1, PyDecimal c1 e1) (x2, PyDecimal c2 e2)
  = inr (Finite (Z.abs c) e).
Proof.
  intros e c Hc He. unfold _y_distance, number_sub, decimal_sub. simpl.
  fold e. fold c. rewrite (_fix_exact c e Hc He). simpl.
  rewrite (_fix_exact (Z.abs c) e); [done| |done].
  by rewrite Z.abs_idemp.
Qed.


(** The capabilities of the unit tests of the repository, without the local
    Rydberg block. *)
Definition non_local_capabilities_constants : DeviceCapabilitiesConstants :=
  mkDeviceCapabilitiesConstants
    8 (4 # 1000000) (4 # 1000000) (1 # 10000000) (75 # 1000000) (76 # 1000000)
    4 0 (4 # 1000000) (1 # 1000000000) (1 # 100000000)
    0 15800000 400 250000000000000
    (-99) 99 (5 # 10000000)
    (-125000000) 125000000 (2 # 10) 250000000000000
    false None None None None None None None None None.

(** The sites of the unit tests, as they are written there, with [int] and
    [float] coordinates, and the same sites as [Decimal]s. *)
Definition float_sites : list site :=
  [ (PyInt 0, PyInt 0);
    (PyInt 0, PyFloat (Z2float 4 / Z2float 1000000));
    (PyFloat (Z2float 5 / Z2float 1000000), PyInt 0);
    (PyFloat (Z2float 5 / Z2float 1000000),
     PyFloat (Z2float 4 / Z2float 1000000)) ].

Definition decimal_sites : list site :=
  [ (PyDecimal 0 0, PyDecimal 0 0);
    (PyDecimal 0 0, PyDecimal 4 (-6));
    (PyDecimal 5 (-6), PyDecimal 0 0);
    (PyDecimal 5 (-6), PyDecimal 4 (-6)) ].

(** On the [Decimal] sites the check passes; on the [float] sites it raises,
    the binary64 number [4e-6] being below [0.000004]. *)
Example sites_in_rows_test_sites :
  let data := mkAtomArrangementData decimal_sites [1; 0; 1; 0]%Z
                non_local_capabilities_constants in
  sites_in_rows data = inr data ∧
  sites_in_rows (mkAtomArrangementData float_sites [1; 0; 1; 0]%Z
                   non_local_capabilities_constants)
  = inl (ValueError
           [Text "Sites "; Site (PyFloat (Z2float 5 / Z2float 1000000), PyInt 0);
            Text " and site ";
            Site (PyInt 0, PyFloat (Z2float 4 / Z2float 1000000));
            Text " have y-separation (";
            Distance (Finite (4722366482869645 * 5 ^ 70) (-70));
            Text "). It must either be exactly zero or not smaller than ";
            Minimum (4 # 1000000); Text " meters"]).
Proof. split; vm_compute; reflexivity. Qed.


End device_atom_arrangement.

(** ** The analog constants builder of aws_emulation.py *)

Module quera.

(** [QueraDeviceCapabilities.dict()], restricted to the entries that the
    builder reads.  A range is a two-element list, unpacked into a pair. *)
Module Geometry.
Record t := mk {
  spacingRadialMin : Q;
  spacingVerticalMin : Q;
  positionResolution : Q;
  numberSitesMax : Q
}.
End Geometry.

Module Area.
Record t := mk { width : Q; height : Q }.
End Area.

Module Lattice.
Record t := mk { area : Area.t; geometry : Geometry.t }.
End Lattice.

Module RydbergGlobal.
Record t := mk {
  rabiFrequencyRange : Q * Q;
  rabiFrequencyResolution : Q;
  rabiFrequencySlewRateMax : Q;
  detuningRange : Q * Q;
  detuningResolution : Q;
  detuningSlewRateMax : Q;
  phaseRange : Q * Q;
  phaseResolution : Q;
  timeResolution : Q;
  timeDeltaMin : Q;
  timeMin : Q;
  timeMax : Q
}.
End RydbergGlobal.

Module RydbergLocal.
Record t := mk {
  detuningRange : Q * Q;
  detuningSlewRateMax : Q;
  siteCoefficientRange : Q * Q;
  numberLocalDetuningSitesMax : Q;
  spacingRadialMin : Q;
  timeResolution : Q;
  timeDeltaMin : Q
}.
End RydbergLocal.

Module Rydberg.
Record t := mk {
  rydbergGlobal : RydbergGlobal.t;
  rydbergLocal : option RydbergLocal.t
}.
End Rydberg.

Module Paradigm.
Record t := mk {
  qubitCount : Q;
  lattice : Lattice.t;
  rydberg : Rydberg.t
}.
End Paradigm.

Record QueraDeviceCapabilities := mkQuera { paradigm : Paradigm.t }.

(** The values stored in the [capabilities] dictionary. *)
Inductive pyval :=
  | Num (q : Q)
  | Bool (b : bool).

(** The assignments made before the test of [rydberg_local]. *)
Definition global_capabilities (properties : QueraDeviceCapabilities)
  : list (string * pyval) :=
  let capabilities : list (string * pyval) := [] in
  let lattice := Paradigm.lattice (paradigm properties) in
  let geometry := Lattice.geometry lattice in
  let capabilities := Dict.set capabilities "MAX_SITES"
                        (Num (Geometry.numberSitesMax geometry)) in
  let capabilities := Dict.set capabilities "MIN_DISTANCE"
                        (Num (Geometry.spacingRadialMin geometry)) in
  let capabilities := Dict.set capabilities "MIN_ROW_DISTANCE"
                        (Num (Geometry.spacingVerticalMin geometry)) in
  let capabilities := Dict.set capabilities "SITE_PRECISION"
                        (Num (Geometry.positionResolution geometry)) in
  let capabilities := Dict.set capabilities "BOUNDING_BOX_SIZE_X"
                        (Num (Area.width (Lattice.area lattice))) in
  let capabilities := Dict.set capabilities "BOUNDING_BOX_SIZE_Y"
                        (Num (Area.height (Lattice.area lattice))) in
  let capabilities := Dict.set capabilities "MAX_FILLED_SITES"
                        (Num (Paradigm.qubitCount (paradigm properties))) in
  let rydberg := Paradigm.rydberg (paradigm properties) in
  let rydberg_global := Rydberg.rydbergGlobal rydberg in
  let capabilities := Dict.set capabilities "MIN_TIME"
                        (Num (RydbergGlobal.timeMin rydberg_global)) in
  let capabilities := Dict.set capabilities "MAX_TIME"
                        (Num (RydbergGlobal.timeMax rydberg_global)) in
  let capabilities := Dict.set capabilities "GLOBAL_TIME_PRECISION"
                        (Num (RydbergGlobal.timeResolution rydberg_global)) in
  let capabilities := Dict.set capabilities "GLOBAL_MIN_TIME_SEPARATION"
                        (Num (RydbergGlobal.timeDeltaMin rydberg_global)) in
  let capabilities := Dict.set capabilities "GLOBAL_AMPLITUDE_VALUE_MIN"
                        (Num (RydbergGlobal.rabiFrequencyRange rydberg_global).1) in
  let capabilities := Dict.set capabilities "GLOBAL_AMPLITUDE_VALUE_MAX"
                        (Num (RydbergGlobal.rabiFrequencyRange rydberg_global).2) in
  let capabilities := Dict.set capabilities "GLOBAL_AMPLITUDE_VALUE_PRECISION"
                        (Num (RydbergGlobal.rabiFrequencyResolution rydberg_global)) in
  let capabilities := Dict.set capabilities "GLOBAL_AMPLITUDE_SLOPE_MAX"
                        (Num (RydbergGlobal.rabiFrequencySlewRateMax rydberg_global)) in
  let capabilities := Dict.set capabilities "GLOBAL_PHASE_VALUE_MIN"
                        (Num (RydbergGlobal.phaseRange rydberg_global).1) in
  let capabilities := Dict.set capabilities "GLOBAL_PHASE_VALUE_MAX"
                        (Num (RydbergGlobal.phaseRange rydberg_global).2) in
  let capabilities := Dict.set capabilities "GLOBAL_PHASE_VALUE_PRECISION"
                        (Num (RydbergGlobal.phaseResolution rydberg_global)) in
  let capabilities := Dict.set capabilities "GLOBAL_DETUNING_VALUE_MIN"
                        (Num (RydbergGlobal.detuningRange rydberg_global).1) in
  let capabilities := Dict.set capabilities "GLOBAL_DETUNING_VALUE_MAX"
                        (Num (RydbergGlobal.detuningRange rydberg_global).2) in
  let capabilities := Dict.set capabilities "GLOBAL_DETUNING_VALUE_PRECISION"
                        (Num (RydbergGlobal.detuningResolution rydberg_global)) in
  let capabilities := Dict.set capabilities "GLOBAL_DETUNING_SLOPE_MAX"
                        (Num (RydbergGlobal.detuningSlewRateMax rydberg_global)) in
  capabilities.

(** The assignments of the branch [if rydberg_local:]. *)
Definition local_capabilities (rydberg_local : RydbergLocal.t)
    (capabilities : list (string * pyval)) : list (string * pyval) :=
  let capabilities := Dict.set capabilities "LOCAL_RYDBERG_CAPABILITIES"
                        (Bool true) in
  let capabilities := Dict.set capabilities "LOCAL_MIN_DISTANCE_BETWEEN_SHIFTED_SITES"
                        (Num (RydbergLocal.spacingRadialMin rydberg_local)) in
  let capabilities := Dict.set capabilities "LOCAL_TIME_PRECISION"
                        (Num (RydbergLocal.timeResolution rydberg_local)) in
  let capabilities := Dict.set capabilities "LOCAL_MIN_TIME_SEPARATION"
                        (Num (RydbergLocal.timeDeltaMin rydberg_local)) in
  let capabilities := Dict.set capabilities "LOCAL_MAGNITUDE_SEQUENCE_VALUE_MIN"
                        (Num (RydbergLocal.detuningRange rydberg_local).1) in
  let capabilities := Dict.set capabilities "LOCAL_MAGNITUDE_SEQUENCE_VALUE_MAX"
                        (Num (RydbergLocal.detuningRange rydberg_local).2) in
  let capabilities := Dict.set capabilities "LOCAL_MAGNITUDE_SLOPE_MAX"
                        (Num (RydbergLocal.detuningSlewRateMax rydberg_local)) in
  let capabilities := Dict.set capabilities "LOCAL_MAX_NONZERO_PATTERN_VALUES"
                        (Num (RydbergLocal.numberLocalDetuningSitesMax rydberg_local)) in
  let capabilities := Dict.set capabilities "MAGNITUDE_PATTERN_VALUE_MIN"
                        (Num (RydbergLocal.siteCoefficientRange rydberg_local).1) in
  let capabilities := Dict.set capabilities "MAGNITUDE_PATTERN_VALUE_MAX"
                        (Num (RydbergLocal.siteCoefficientRange rydberg_local).2) in
  capabilities.

(** The dictionary handed to [parse_obj]. *)
Definition capabilities_dict (properties : QueraDeviceCapabilities)
  : list (string * pyval) :=
  let capabilities := global_capabilities properties in
  match Rydberg.rydbergLocal (Paradigm.rydberg (paradigm properties)) with
  | Some rydberg_local => local_capabilities rydberg_local capabilities
  | None => capabilities
  end.

(** Modelled from the spec: [DeviceCapabilitiesConstants.parse_obj].  A
    required number that is missing is a validation error; an optional
    constant that is missing is [None]; the flag that is missing is
    [False]. *)
Definition required (d : list (string * pyval)) (k : string) : result Q :=
  match Dict.get d k with
  | Some (Num q) => mret q
  | _ => raise ValidationError
  end.

Definition optional (d : list (string * pyval)) (k : string)
  : result (option Q) :=
  match Dict.get d k with
  | None => mret None
  | Some (Num q) => mret (Some q)
  | Some (Bool _) => raise ValidationError
  end.

Definition flag (d : list (string * pyval)) (k : string) : result bool :=
  match Dict.get d k with
  | None => mret false
  | Some (Bool b) => mret b
  | Some (Num _) => raise ValidationError
  end.

Definition parse_obj (d : list (string * pyval))
  : result DeviceCapabilitiesConstants :=
  f1 ← required d "MAX_SITES";
  f2 ← required d "MIN_DISTANCE";
  f3 ← required d "MIN_ROW_DISTANCE";
  f4 ← required d "SITE_PRECISION";
  f5 ← required d "BOUNDING_BOX_SIZE_X";
  f6 ← required d "BOUNDING_BOX_SIZE_Y";
  f7 ← required d "MAX_FILLED_SITES";
  f8 ← required d "MIN_TIME";
  f9 ← required d "MAX_TIME";
  f10 ← required d "GLOBAL_TIME_PRECISION";
  f11 ← required d "GLOBAL_MIN_TIME_SEPARATION";
  f12 ← required d "GLOBAL_AMPLITUDE_VALUE_MIN";
  f13 ← required d "GLOBAL_AMPLITUDE_VALUE_MAX";
  f14 ← required d "GLOBAL_AMPLITUDE_VALUE_PRECISION";
  f15 ← required d "GLOBAL_AMPLITUDE_SLOPE_MAX";
  f16 ← required d "GLOBAL_PHASE_VALUE_MIN";
  f17 ← required d "GLOBAL_PHASE_VALUE_MAX";
  f18 ← required d "GLOBAL_PHASE_VALUE_PRECISION";
  f19 ← required d "GLOBAL_DETUNING_VALUE_MIN";
  f20 ← required d "GLOBAL_DETUNING_VALUE_MAX";
  f21 ← required d "GLOBAL_DETUNING_VALUE_PRECISION";
  f22 ← required d "GLOBAL_DETUNING_SLOPE_MAX";
  l0 ← flag d "LOCAL_RYDBERG_CAPABILITIES";
  l1 ← optional d "LOCAL_MIN_DISTANCE_BETWEEN_SHIFTED_SITES";
  l2 ← optional d "LOCAL_TIME_PRECISION";
  l3 ← optional d "LOCAL_MIN_TIME_SEPARATION";
  l4 ← optional d "LOCAL_MAGNITUDE_SEQUENCE_VALUE_MIN";
  l5 ← optional d "LOCAL_MAGNITUDE_SEQUENCE_VALUE_MAX";
  l6 ← optional d "LOCAL_MAGNITUDE_SLOPE_MAX";
  l7 ← optional d "LOCAL_MAX_NONZERO_PATTERN_VALUES";
  l8 ← optional d "MAGNITUDE_PATTERN_VALUE_MIN";
  l9 ← optional d "MAGNITUDE_PATTERN_VALUE_MAX";
  mret (mkDeviceCapabilitiesConstants f1 f2 f3 f4 f5 f6 f7 f8 f9 f10 f11 f12
          f13 f14 f15 f16 f17 f18 f19 f20 f21 f22 l0 l1 l2 l3 l4 l5 l6 l7 l8 l9).

(** The [QueraDeviceCapabilities] case of [_get_ahs_device_capabilities]. *)
Definition _get_ahs_device_capabilities (properties : QueraDeviceCapabilities)
  : result DeviceCapabilitiesConstants :=
  parse_obj (capabilities_dict properties).

(** The nine optional local-detuning constants of a constants record. *)
Definition local_detuning_constants (c : DeviceCapabilitiesConstants)
  : list (option Q) :=
  [ LOCAL_MIN_DISTANCE_BETWEEN_SHIFTED_SITES c;
    LOCAL_TIME_PRECISION c;
    LOCAL_MIN_TIME_SEPARATION c;
    LOCAL_MAGNITUDE_SEQUENCE_VALUE_MIN c;
    LOCAL_MAGNITUDE_SEQUENCE_VALUE_MAX c;
    LOCAL_MAGNITUDE_SLOPE_MAX c;
    LOCAL_MAX_NONZERO_PATTERN_VALUES c;
    MAGNITUDE_PATTERN_VALUE_MIN c;
    MAGNITUDE_PATTERN_VALUE_MAX c ].

(** The keys, other than the flag, that the local branch adds to the
    dictionary of [properties]. *)
Definition keys_from_local_block (properties : QueraDeviceCapabilities)
  : list string :=
  filter (λ k, (k ∉ Dict.keys (global_capabilities properties))
               ∧ (k ≠ "LOCAL_RYDBERG_CAPABILITIES"))
         (Dict.keys (capabilities_dict properties)).

(** A device with the constants of the unit tests, with and without the
    local Rydberg block. *)
Definition sample_global : RydbergGlobal.t :=
  RydbergGlobal.mk (0, 25000000)%Q 400%Q 250000000000000%Q
    (-125000000, 125000000)%Q (2 # 10)%Q 2500000000000000%Q
    (-99, 99)%Q (5 # 10000000)%Q (1 # 1000000000)%Q (1 # 100000000)%Q
    0%Q (4 # 1000000)%Q.

Definition sample_local : RydbergLocal.t :=
  RydbergLocal.mk (0, 125000000)%Q 1256600000000000%Q (0, 1)%Q 200%Q
    (5 # 1000000)%Q (1 # 1000000000)%Q (1 # 100000000)%Q.

Definition sample_device (rydberg_local : option RydbergLocal.t)
  : QueraDeviceCapabilities :=
  mkQuera
    (Paradigm.mk 256%Q
       (Lattice.mk (Area.mk (75 # 1000000)%Q (76 # 1000000)%Q)
          (Geometry.mk (4 # 1000000)%Q (4 # 1000000)%Q (1 # 10000000)%Q 256%Q))
       (Rydberg.mk sample_global rydberg_local)).

(** C7 as the specification states it: eleven constants come from the local
    Rydberg block. *)
Definition eleven_local_constants : Prop :=
  ∀ properties rydberg_local,
    Rydberg.rydbergLocal (Paradigm.rydberg (paradigm properties))
      = Some rydberg_local →
    length (keys_from_local_block properties) = 11.

(** C7, as the code has it.  For every Quera capabilities record the
    constants builder returns a constants record.  Without the [rydbergLocal]
    block the flag [LOCAL_RYDBERG_CAPABILITIES] is false and the nine
    local-detuning constants are absent; with the block the flag is true and
    the nine constants hold the corresponding entries of the block. *)
Theorem constants_builder_local_block (properties : QueraDeviceCapabilities) :
  ∃ c, _get_ahs_device_capabilities properties = inr c ∧
       match Rydberg.rydbergLocal (Paradigm.rydberg (paradigm properties)) with
       | None =>
           LOCAL_RYDBERG_CAPABILITIES c = false ∧
           local_detuning_constants c = replicate 9 None
       | Some rydberg_local =>
           LOCAL_RYDBERG_CAPABILITIES c = true ∧
           local_detuning_constants c =
             [ Some (RydbergLocal.spacingRadialMin rydberg_local);
               Some (RydbergLocal.timeResolution rydberg_local);
               Some (RydbergLocal.timeDeltaMin rydberg_local);
               Some (RydbergLocal.detuningRange rydberg_local).1;
               Some (RydbergLocal.detuningRange rydberg_local).2;
               Some (RydbergLocal.detuningSlewRateMax rydberg_local);
               Some (RydbergLocal.numberLocalDetuningSitesMax rydberg_local);
               Some (RydbergLocal.siteCoefficientRange rydberg_local).1;
               Some (RydbergLocal.siteCoefficientRange rydberg_local).2 ]
       end.
Proof.
  destruct properties as [[qc lat [rg [rl|]]]]; simpl.
  - eexists. split; [vm_compute; reflexivity|]. split; reflexivity.
  - eexists. split; [vm_compute; reflexivity|]. split; reflexivity.
Qed.

(** C7, as the specification states it, fails on the count: the local
    branch populates nine constants besides the flag, not eleven. *)
Lemma eleven_local_constants_counterexample :
  keys_from_local_block (sample_device (Some sample_local)) =
    [ "LOCAL_MIN_DISTANCE_BETWEEN_SHIFTED_SITES"; "LOCAL_TIME_PRECISION";
      "LOCAL_MIN_TIME_SEPARATION"; "LOCAL_MAGNITUDE_SEQUENCE_VALUE_MIN";
      "LOCAL_MAGNITUDE_SEQUENCE_VALUE_MAX"; "LOCAL_MAGNITUDE_SLOPE_MAX";
      "LOCAL_MAX_NONZERO_PATTERN_VALUES"; "MAGNITUDE_PATTERN_VALUE_MIN";
      "MAGNITUDE_PATTERN_VALUE_MAX" ] ∧
  ¬ eleven_local_constants.
Proof.
  assert (Hk : keys_from_local_block (sample_device (Some sample_local)) = _)
    by (vm_compute; reflexivity).
  split; [exact Hk|]. intros Hclaim.
  specialize (Hclaim (sample_device (Some sample_local)) sample_local eq_refl).
  rewrite Hk in Hclaim. discriminate.
Qed.

End quera.

(** * ahs_noisy_pass.py *)

Module ahs_noisy_pass.

(** ** Numbers *)

(** The arithmetic of the numbers that the pass computes with.  The pass
    runs on binary64 numbers; the same expressions are read over the exact
    rationals where the specification speaks of what the formulas solve. *)
Class Arithmetic (T : Type) := {
  py_add : T → T → T;
  py_sub : T → T → T;
  py_mul : T → T → T;
  py_div : T → T → T;
  num : Z → T;
  py_le : T → T → bool
}.

Declare Scope py_scope.
Delimit Scope py_scope with py.
Infix "+" := py_add : py_scope.
Infix "-" := py_sub : py_scope.
Infix "*" := py_mul : py_scope.
Infix "/" := py_div : py_scope.
Infix "<=?" := py_le : py_scope.

(** [x ** 2]: on binary64 numbers the product [x * x], rounded once. *)
Definition sq {T} `{Arithmetic T} (x : T) : T := (x * x)%py.

#[export] Instance float_arithmetic : Arithmetic float := {
  py_add := PrimFloat.add;
  py_sub := PrimFloat.sub;
  py_mul := PrimFloat.mul;
  py_div := PrimFloat.div;
  num := Z2float;
  py_le := PrimFloat.leb
}.

#[export] Instance exact_arithmetic : Arithmetic Q := {
  py_add := Qplus;
  py_sub := Qminus;
  py_mul := Qmult;
  py_div := Qdiv;
  num := inject_Z;
  py_le := Qle_bool
}.

(** ** The quadratic of the ramp correction *)

(** The coefficients [(a, b, c)] of the quadratic correction
    [f(t) = a*t^2 + b*t + c]. *)
Definition quadratic_coefficients {T} `{Arithmetic T} (frac t1 t2 v1 v2 : T)
  : T * T * T :=
  (if num 1 <=? frac then (num 0, num 0, v2)
   else
     let a := num 3 * (v1 + frac * v1 + v2 - frac * v2) / sq (t1 - t2) in
     let c := (t2 * v1 * ((num 2 + num 3 * frac) * t1 + t2)
               + t1 * v2 * (t1 + (num 2 - num 3 * frac) * t2))
              / sq (t1 - t2) in
     let b := (v2 - c - a * sq t2) / t2 in
     (a, b, c))%py.

(** [a * t**2 + b * t + c] *)
Definition quadratic {T} `{Arithmetic T} (abc : T * T * T) (t : T) : T :=
  let '(a, b, c) := abc in (a * sq t + b * t + c)%py.

(** The integral of the quadratic over [[t1, t2]], by its antiderivative
    [a/3*t^3 + b/2*t^2 + c*t], as in the comment of the source. *)
Definition quadratic_integral (abc : Q * Q * Q) (t1 t2 : Q) : Q :=
  let '(a, b, c) := abc in
  (a / 3 * (t2 ^ 3 - t1 ^ 3) + b / 2 * (t2 ^ 2 - t1 ^ 2) + c * (t2 - t1))%Q.

(** The area under the straight segment from [(t1, v1)] to [(t2, v2)]. *)
Definition trapezoid_area (t1 t2 v1 v2 : Q) : Q :=
  ((t2 - t1) * (v1 + v2) / 2)%Q.

(** ** numpy on binary64 numbers *)

Local Open Scope float_scope.

(** [np.sign] *)
Definition sign (x : float) : float :=
  if 0 <? x then 1 else if x <? 0 then -1 else if x =? 0 then 0 else nan.

(** [arr[-1] = stop] *)
Definition set_last (y : list float) (stop : float) : list float :=
  match y with
  | [] => []
  | _ :: _ => removelast y ++ [stop]
  end.

(** [np.linspace(start, stop, num)]: the points [i * step + start] with
    [step = (stop - start) / (num - 1)], each product and each sum rounded,
    the last point being set to [stop]; when the step underflows to zero
    the points are [i / (num - 1) * (stop - start) + start]; a single point
    is [0 * (stop - start) + start]. *)
Definition linspace (start stop : float) (num : nat) : list float :=
  match num with
  | O => []
  | S div =>
      let delta := stop - start in
      let y := (λ i : nat, Z2float (Z.of_nat i)) <$> seq 0 num in
      let y :=
        match div with
        | O => (λ yi, yi * delta) <$> y
        | S _ =>
            let step := delta / Z2float (Z.of_nat div) in
            if step =? 0
            then (λ yi, yi / Z2float (Z.of_nat div) * delta) <$> y
            else (λ yi, yi * step) <$> y
        end in
      let y := (λ yi, yi + start) <$> y in
      match div with
      | O => y
      | S _ => set_last y stop
      end
  end.

(** ** Exceptions *)

(** Why a [ValueError] is raised: by [np.random.binomial] for a probability
    that is not in [[0, 1]], by [scipy.interpolate.interp1d] for a table
    without points, by [TimeSeries.from_lists] for lists of different
    lengths. *)
Inductive value_error :=
  | ProbabilityOutOfRange (p : float)
  | NoSamplePoints
  | LengthsDiffer (times values : nat).

Inductive raised :=
  | IndexError
  | ZeroDivisionError
  | ValueError (why : value_error).

(** ** The random source *)

(** Computations that draw from the process-global generator of numpy and
    may raise.  The state is the number of draws made so far. *)
Definition Rnd (A : Type) : Type := nat → (raised + A) * nat.

Global Instance Rnd_ret : MRet Rnd := λ A x k, (inr x, k).
Global Instance Rnd_bind : MBind Rnd :=
  λ A B f m k, match m k with
               | (inl e, k') => (inl e, k')
               | (inr x, k') => f x k'
               end.

Definition fail {A} (e : raised) : Rnd A := λ k, (inl e, k).

(** A computation that does not draw. *)
Definition lift {A} (r : raised + A) : Rnd A := λ k, (r, k).

Fixpoint mapM {A B} (f : A → Rnd B) (l : list A) : Rnd (list B) :=
  match l with
  | [] => mret []
  | x :: l' => y ← f x; ys ← mapM f l'; mret (y :: ys)
  end.

(** ** The noise data *)

(** A point of the ramp-correction curve, after [float(...)]. *)
Record RampCorrection := mkRampCorrection {
  rampTime : float;
  rabiCorrection : float
}.

Record AhsNoiseData := mkAhsNoiseData {
  site_position_error : float;
  filling_error : float;
  vacancy_error : float;
  ground_prep_error : float;
  rabi_amplitude_ramp_correction : list RampCorrection;
  rabi_frequency_error_rel : float;
  rabi_amplitude_max : float;
  detuning_error : float;
  detuning_inhomogeneity : float;
  atom_detection_error_false_positive : float;
  atom_detection_error_false_negative : float
}.

(** ** Programs *)

Inductive SiteType := FILLED | VACANT.

(** A time series is the list of its [(time, value)] points, as
    [np.array(..., dtype='float64')] reads them. *)
Record DrivingField := mkDrivingField {
  amplitude : list (float * float);
  phase : list (float * float);
  detuning : list (float * float)
}.

Record AnalogHamiltonianSimulation := mkAnalogHamiltonianSimulation {
  register : list ((float * float) * SiteType);
  hamiltonian : DrivingField
}.

(** The times and the values handed to [TimeSeries.from_lists]. *)
Record TimeSeries := mkTimeSeries {
  ts_times : list float;
  ts_values : list float
}.

(** Modelled from the spec: the class [TimeSeries] is not among the
    sources.  [TimeSeries.from_lists(times, values)] raises a [ValueError]
    when the two lists differ in length; otherwise the series is built from
    the points in their order, and the record keeps the two lists (the
    class itself keeps one point for each distinct time). *)
Definition from_lists (times values : list float) : raised + TimeSeries :=
  if decide (length times = length values)
  then inr (mkTimeSeries times values)
  else inl (ValueError (LengthsDiffer (length times) (length values))).

(** The program that the pass returns: the noisy register, the noisy drive
    and the local detuning that carries the inhomogeneity. *)
Record NoisyProgram := mkNoisyProgram {
  noisy_register : list ((float * float) * SiteType);
  noisy_amplitude : TimeSeries;
  noisy_detuning : TimeSeries;
  noisy_phase : list (float * float);
  local_detuning_magnitude : TimeSeries;
  local_detuning_pattern : list float
}.

(** [program.to_ir().setup.ahs_register.filling] *)
Definition filling_of (program : AnalogHamiltonianSimulation) : list Z :=
  (λ s, match s.2 with FILLED => 1%Z | VACANT => 0%Z end) <$> register program.

(** ** The pass *)

Section noise.
(** The [k]-th draw of the generator, read as a standard normal variate, as
    a [binomial(1, p)] variate and as a uniform variate of [rand()]. *)
Variable normal : nat → float.
Variable binomial : nat → float → Z.
Variable uniform : nat → float.
(** The interpolation kernels of the libraries: the value at a point of the
    piecewise linear function through the given points, constant outside
    of them for [np.interp] and extrapolated for [interp1d].  The pass
    uses the values only as values; none of its branches on lengths or
    exceptions depends on them. *)
Variable np_interp_at : list float → list float → float → float.
Variable interp1d_at : list float → list float → float → float.
Variable noise_data : AhsNoiseData.

(** [np.random.normal(size=size)] *)
Definition np_random_normal (size : nat) : Rnd (list float) :=
  λ k, (inr (normal <$> seq k size), (k + size)%nat).

(** [np.random.binomial(1, p)]: a probability outside of [[0, 1]], a [NaN]
    included, is refused before anything is drawn. *)
Definition np_random_binomial (p : float) : Rnd Z :=
  λ k, if (0 <=? p) && (p <=? 1) then (inr (binomial k p), S k)
       else (inl (ValueError (ProbabilityOutOfRange p)), k).

(** [np.random.rand()] *)
Definition np_random_rand : Rnd float := λ k, (inr (uniform k), S k).

(** [np.interp(x, xp, fp)] *)
Definition np_interp (x xp fp : list float) : list float :=
  np_interp_at xp fp <$> x.

(** [scipy.interpolate.interp1d(x, y, bounds_error=False,
    fill_value="extrapolate")]: a table without points is refused. *)
Definition interp1d (x y : list float) : raised + (float → float) :=
  match x with
  | [] => inl (ValueError NoSamplePoints)
  | _ :: _ => inr (interp1d_at x y)
  end.

Definition _apply_site_position_error (sites : list (float * float))
  : Rnd (list (float * float)) :=
  mapM (λ site : float * float,
          noise ← np_random_normal 2;
          mret (site.1 + site_position_error noise_data * nth 0 noise 0,
                site.2 + site_position_error noise_data * nth 1 noise 0))
       sites.

Definition _apply_binomial_noise (arr : list Z)
    (binomial_probability_p01 binomial_probability_p10 : float)
  : Rnd (list Z) :=
  mapM (λ val : Z,
          if decide (val = 1%Z)
          then b ← np_random_binomial binomial_probability_p10; mret (1 - b)%Z
          else np_random_binomial binomial_probability_p01)
       arr.

Definition _apply_lattice_initialization_errors
    (program : AnalogHamiltonianSimulation)
  : Rnd (list (float * float) * list Z * list Z) :=
  let sites := fst <$> register program in
  let filling := filling_of program in
  erroneous_sites ← _apply_site_position_error sites;
  erroneous_filling ← _apply_binomial_noise filling
                        (filling_error noise_data) (vacancy_error noise_data);
  pre_seq ← _apply_binomial_noise erroneous_filling
              (atom_detection_error_false_negative noise_data)
              (atom_detection_error_false_positive noise_data);
  erroneous_filling ← _apply_binomial_noise erroneous_filling
                        0 (ground_prep_error noise_data);
  mret (erroneous_sites, erroneous_filling, pre_seq).

Definition _apply_detuning_errors (detuning : list (float * float))
    (fillings : list Z) (steps : nat)
  : Rnd (TimeSeries * (TimeSeries * list float)) :=
  let detuning_times := fst <$> detuning in
  let detuning_values := snd <$> detuning in
  match last detuning_times with
  | None => fail IndexError
  | Some last_time =>
      let noisy_detuning_times := linspace 0 last_time steps in
      let noisy_detuning_values :=
        np_interp noisy_detuning_times detuning_times detuning_values in
      noise ← np_random_normal (length noisy_detuning_values);
      let noisy_detuning_values :=
        zip_with (λ v n, v + detuning_error noise_data * n)
          noisy_detuning_values noise in
      noisy_detuning ←
        lift (from_lists noisy_detuning_times noisy_detuning_values);
      h ← mapM (λ _ : Z, np_random_rand) fillings;
      detuning_local ←
        lift (from_lists noisy_detuning_times
                ((λ _ : float, detuning_inhomogeneity noise_data * 1)
                   <$> noisy_detuning_times));
      mret (noisy_detuning, (detuning_local, h))
  end.

(** [rabi_amplitude_max / float(corr.rampTime)] for every point of the
    curve: a division of Python [float]s, which raises on a zero divisor. *)
Fixpoint correction_slopes (curve : list RampCorrection)
  : raised + list float :=
  match curve with
  | [] => inr []
  | corr :: curve' =>
      if rampTime corr =? 0 then inl ZeroDivisionError
      else
        match correction_slopes curve' with
        | inl e => inl e
        | inr slopes =>
            inr (rabi_amplitude_max noise_data / rampTime corr :: slopes)
        end
  end.

(** The correction factor of the segment from [(t1, v1)] to [(t2, v2)]. *)
Definition segment_frac (get_frac : float → float) (t1 t2 v1 v2 : float)
  : float :=
  let slope := (v2 - v1) / (t2 - t1) in
  if 0 <? abs slope then get_frac (abs slope) * sign slope else 1.

(** The values that one segment contributes: the quadratic at every grid
    time inside the segment, end points included. *)
Definition segment_values (get_frac : float → float)
    (noisy_amplitude_times : list float) (p1 p2 : float * float)
  : list float :=
  let '(t1, v1) := p1 in
  let '(t2, v2) := p2 in
  let frac := segment_frac get_frac t1 t2 v1 v2 in
  let abc := quadratic_coefficients frac t1 t2 v1 v2 in
  quadratic abc <$>
    filter (λ t, (t1 <=? t) && (t <=? t2) = true) noisy_amplitude_times.

(** The loop [for ind in range(len(amplitude_times))]: the segments are the
    pairs of neighbouring points, in order. *)
Definition ramp_corrected_values (get_frac : float → float)
    (noisy_amplitude_times : list float) (amplitude : list (float * float))
  : list float :=
  '(p1, p2) ← zip amplitude (tail amplitude);
  segment_values get_frac noisy_amplitude_times p1 p2.

(** [_apply_amplitude_errors] up to the call of [TimeSeries.from_lists]: the
    times and the values that are handed over. *)
Definition noisy_amplitude_lists (amplitude : list (float * float))
    (steps : nat) : Rnd (list float * list float) :=
  let amplitude_times := fst <$> amplitude in
  rabi_ramp_correction_slopes ←
    lift (correction_slopes (rabi_amplitude_ramp_correction noise_data));
  let rabi_ramp_correction_fracs :=
    rabiCorrection <$> rabi_amplitude_ramp_correction noise_data in
  get_frac ← lift (interp1d (reverse rabi_ramp_correction_slopes)
                            (reverse rabi_ramp_correction_fracs));
  match last amplitude_times with
  | None => fail IndexError
  | Some last_time =>
      let noisy_amplitude_times := linspace 0 last_time steps in
      let noisy_amplitude_values :=
        ramp_corrected_values get_frac noisy_amplitude_times amplitude in
      noise ← np_random_normal (length noisy_amplitude_values);
      let rabi_errors :=
        (λ n, 1 + rabi_frequency_error_rel noise_data * n) <$> noise in
      let noisy_amplitude_values :=
        zip_with PrimFloat.mul noisy_amplitude_values rabi_errors in
      let noisy_amplitude_values :=
        (λ value, if 0 <? value then value else 0)
          <$> noisy_amplitude_values in
      mret (noisy_amplitude_times, noisy_amplitude_values)
  end.

Definition _apply_amplitude_errors (amplitude : list (float * float))
    (steps : nat) : Rnd TimeSeries :=
  '(noisy_amplitude_times, noisy_amplitude_values) ←
    noisy_amplitude_lists amplitude steps;
  lift (from_lists noisy_amplitude_times noisy_amplitude_values).

Definition _apply_rydberg_noise (program : AnalogHamiltonianSimulation)
    (steps : nat)
  : Rnd (TimeSeries * TimeSeries * list (float * float)
         * (TimeSeries * list float)) :=
  '(noisy_detuning, local_detuning) ←
    _apply_detuning_errors (detuning (hamiltonian program))
      (filling_of program) steps;
  noisy_amplitude ←
    _apply_amplitude_errors (amplitude (hamiltonian program)) steps;
  mret (noisy_amplitude, noisy_detuning, phase (hamiltonian program),
        local_detuning).

Definition _apply_noise_model (program : AnalogHamiltonianSimulation)
    (steps : nat) : Rnd NoisyProgram :=
  '(sites, fillings, preseq) ← _apply_lattice_initialization_errors program;
  '(noisy_amplitude, noisy_detuning, noisy_phase, local_detuning) ←
    _apply_rydberg_noise program steps;
  let register :=
    (λ sf : (float * float) * Z,
       if decide (sf.2 = 1%Z) then (sf.1, FILLED) else (sf.1, VACANT))
      <$> zip sites fillings in
  mret (mkNoisyProgram register noisy_amplitude noisy_detuning noisy_phase
          local_detuning.1 local_detuning.2).

(** [AhsNoise.run] *)
Definition run (program : AnalogHamiltonianSimulation) (steps : nat)
  : Rnd NoisyProgram :=
  _apply_noise_model program steps.

End noise.

Local Close Scope float_scope.


(** ** The quadratic fit *)

(** C4 as the specification states it: the integral of the quadratic is the
    fraction [frac] of the trapezoid area under the straight segment. *)
Definition integral_is_fraction_of_trapezoid : Prop :=
  ∀ frac t1 t2 v1 v2 : Q, (frac < 1 → 0 <= t1 → t1 < t2 →
    quadratic_integral (quadratic_coefficients frac t1 t2 v1 v2) t1 t2
    == frac * trapezoid_area t1 t2 v1 v2)%Q.

(** The last segment of the amplitude of the unit tests of the repository,
    from [(3.9e-06, 12566400.0)] to [(4e-06, 0)], as binary64 numbers. *)
Definition last_test_segment : float * float * float * float :=
  ((Z2float 39 / Z2float 10000000)%float,
   (Z2float 4 / Z2float 1000000)%float,
   Z2float 12566400, Z2float 0).

(** C4, as the code has it.  Read over the exact rationals, for a segment
    from [(t1, v1)] to [(t2, v2)] of a time series, [0 <= t1 < t2], and a
    correction fraction below one: the quadratic of the ramp correction
    takes the values [v1] at [t1] and [v2] at [t2]; its integral over the
    segment is [frac] times [(t2 - t1) * (v2 - v1) / 2], the constraint
    written in the comment of the source; and this is [frac] times the
    trapezoid area [(t2 - t1) * (v1 + v2) / 2] exactly when [frac * v1] is
    zero.  On the binary64 numbers of the code the equalities hold up to
    rounding only: on the last segment of the amplitude of the unit tests,
    with the fraction [-0.5], the quadratic is [12566399.999996185] at
    [t1], below [v1 = 12566400.0]. *)
Theorem quadratic_correction_fit (frac t1 t2 v1 v2 : Q) :
  (frac < 1 → 0 <= t1 → t1 < t2 →
   let abc := quadratic_coefficients frac t1 t2 v1 v2 in
   quadratic abc t1 == v1 ∧
   quadratic abc t2 == v2 ∧
   quadratic_integral abc t1 t2 == frac * ((t2 - t1) * (v2 - v1) / 2) ∧
   (quadratic_integral abc t1 t2 == frac * ((t2 - t1) * (v1 + v2) / 2)
    ↔ frac * v1 == 0))%Q ∧
  (let '(t1, t2, v1, v2) := last_test_segment in
   let abc := quadratic_coefficients (- (Z2float 1 / Z2float 2))%float t1 t2 v1 v2 in
   Prim2SF (quadratic abc t1) = S754_finite false 6746534628554752 (-29) ∧
   Prim2SF v1 = S754_finite false 6746534628556800 (-29) ∧
   (quadratic abc t1 <? v1)%float = true ∧
   Prim2SF (quadratic abc t2) = S754_zero false).
Proof.
  split; [|vm_compute; by repeat split].
  intros Hfrac Ht1 Hlt abc. subst abc. unfold quadratic_coefficients.
  assert (Hb : Qle_bool 1 frac = false).
  { apply not_true_iff_false. intros H. apply Qle_bool_iff in H.
    by apply Qle_not_lt in H. }
  change (py_le (num 1) frac) with (Qle_bool 1 frac). rewrite Hb.
  unfold quadratic, quadratic_integral, sq, py_add, py_sub, py_mul, py_div,
    num, exact_arithmetic.
  change (inject_Z 3) with 3%Q. change (inject_Z 2) with 2%Q.
  assert (H2 : ¬ (t2 == 0)%Q).
  { intros E. rewrite E in Hlt. by apply Qle_not_lt in Ht1. }
  assert (H3 : ¬ (t1 - t2 == 0)%Q).
  { intros E. assert (E' : (t1 == t2)%Q).
    { rewrite <- (Qplus_0_l t2), <- E. ring. }
    rewrite E' in Hlt. by apply Qlt_irrefl in Hlt. }
  assert (H4 : ¬ (t2 - t1 == 0)%Q).
  { intros E. apply H3. rewrite <- (Qopp_involutive (t1 - t2)).
    assert (E' : (- (t1 - t2) == t2 - t1)%Q) by ring. rewrite E', E. ring. }
  set (a := (3 * (v1 + frac * v1 + v2 - frac * v2) / ((t1 - t2) * (t1 - t2)))%Q).
  set (c := ((t2 * v1 * ((2 + 3 * frac) * t1 + t2)
              + t1 * v2 * (t1 + (2 - 3 * frac) * t2))
             / ((t1 - t2) * (t1 - t2)))%Q).
  set (b := ((v2 - c - a * (t2 * t2)) / t2)%Q).
  assert (HI : (a / 3 * (t2 ^ 3 - t1 ^ 3) + b / 2 * (t2 ^ 2 - t1 ^ 2)
                + c * (t2 - t1) == frac * ((t2 - t1) * (v2 - v1) / 2))%Q).
  { unfold b, c, a. field. auto. }
  split; [unfold b, c, a; field; by auto|].
  split; [unfold b, c, a; field; by auto|].
  split; [exact HI|].
  assert (E : (frac * ((t2 - t1) * (v1 + v2) / 2)
               == frac * ((t2 - t1) * (v2 - v1) / 2)
                  + frac * v1 * (t2 - t1))%Q) by field.
  rewrite HI, E. split.
  - intros H.
    assert (H0 : (frac * v1 * (t2 - t1) == 0)%Q).
    { apply (Qplus_inj_l _ _ (frac * ((t2 - t1) * (v2 - v1) / 2))).
      rewrite Qplus_0_r. symmetry. exact H. }
    apply Qmult_integral in H0 as [?|?]; [done|by destruct H4].
  - intros H. rewrite H. ring.
Qed.

Lemma quadratic_correction_fit_witness :
  let abc := quadratic_coefficients (1 # 2)%Q 1%Q 2%Q 1%Q 2%Q in
  (quadratic abc 1 == 1 ∧
   quadratic abc 2 == 2 ∧
   quadratic_integral abc 1 2 == (1 # 2) * ((2 - 1) * (2 - 1) / 2) ∧
   (quadratic_integral abc 1 2 == (1 # 2) * ((2 - 1) * (1 + 2) / 2)
    ↔ (1 # 2) * 1 == 0))%Q.
Proof.
  apply (quadratic_correction_fit (1 # 2)%Q 1%Q 2%Q 1%Q 2%Q).
  - reflexivity.
  - unfold Qle. simpl. lia.
  - reflexivity.
Defined.

(** C4, as the specification states it, fails on the integral also in exact
    arithmetic: on the segment from [(1, 1)] to [(2, 2)] with the correction
    fraction one half the quadratic has the integral [1/4], which is half of
    [(2-1)*(2-1)/2], while half of the trapezoid area is [3/4]. *)
Lemma integral_counterexample :
  (quadratic_integral (quadratic_coefficients (1 # 2) 1 2 1 2) 1 2 == 1 # 4 ∧
   (1 # 2) * trapezoid_area 1 2 1 2 == 3 # 4)%Q ∧
  ¬ integral_is_fraction_of_trapezoid.
Proof.
  split; [split; vm_compute; reflexivity|].
  intros Hclaim. specialize (Hclaim (1 # 2) 1 2 1 2)%Q.
  assert (H : (quadratic_integral (quadratic_coefficients (1 # 2) 1 2 1 2) 1 2
               == (1 # 2) * trapezoid_area 1 2 1 2)%Q)
    by (apply Hclaim; [reflexivity | unfold Qle; simpl; lia | reflexivity]).
  vm_compute in H. discriminate.
Qed.


(** ** The outcome of the pass *)

Lemma Rnd_bind_ok {A B} (m : Rnd A) (f : A → Rnd B) k x k1 :
  m k = (inr x, k1) → (y ← m; f y) k = f x k1.
Proof. unfold mbind, Rnd_bind. by intros ->. Qed.

Lemma Rnd_bind_error {A B} (m : Rnd A) (f : A → Rnd B) k e k1 :
  m k = (inl e, k1) → (y ← m; f y) k = (inl e, k1).
Proof. unfold mbind, Rnd_bind. by intros ->. Qed.

Lemma mapM_ok {A B} (f : A → Rnd B) (l : list A) (n : nat) (k : nat) :
  (∀ x k, ∃ y, f x k = (inr y, (k + n)%nat)) →
  ∃ ys, mapM f l k = (inr ys, (k + n * length l)%nat) ∧ length ys = length l.
Proof.
  intros Hf. revert k. induction l as [|x l IH]; intros k; simpl.
  - exists []. split; [|done]. unfold mret, Rnd_ret. f_equal. lia.
  - destruct (Hf x k) as (y & Hy). destruct (IH (k + n)%nat) as (ys & Hys & Hl).
    exists (y :: ys). rewrite (Rnd_bind_ok _ _ _ _ _ Hy).
    rewrite (Rnd_bind_ok _ _ _ _ _ Hys). simpl. split; [|by rewrite Hl].
    unfold mret, Rnd_ret. f_equal. lia.
Qed.

Lemma length_set_last y stop : length (set_last y stop) = length y.
Proof.
  destruct y as [|a y]; [done|]. unfold set_last.
  rewrite length_app, removelast_firstn_len, length_take. simpl. lia.
Qed.

Lemma length_linspace start stop num : length (linspace start stop num) = num.
Proof.
  destruct num as [|[|div]]; [done|done|]. unfold linspace.
  rewrite length_set_last, length_fmap.
  destruct (PrimFloat.eqb _ _); by rewrite length_fmap, length_fmap, length_seq.
Qed.

Lemma last_fst_is_Some {A B} (l : list (A * B)) :
  l ≠ [] → is_Some (last (fst <$> l)).
Proof.
  intros Hl. destruct (last (fst <$> l)) eqn:E; [by eauto|].
  apply last_None in E. by destruct l.
Qed.

(** The grid times that fall in the segment from [t1] to [t2]. *)
Definition in_segment (t1 t2 : float) (grid : list float) : list float :=
  filter (λ t, (t1 <=? t)%float && (t <=? t2)%float = true) grid.

(** The number of values that the segments of a series produce on a grid:
    for every segment the number of grid times in it, end points
    included. *)
Definition value_count (grid : list float) (amplitude : list (float * float))
  : nat :=
  sum_list ((λ pp : (float * float) * (float * float),
               length (in_segment pp.1.1 pp.2.1 grid))
            <$> zip amplitude (tail amplitude)).

Lemma length_segment_values get_frac grid p1 p2 :
  length (segment_values get_frac grid p1 p2)
  = length (in_segment p1.1 p2.1 grid).
Proof.
  destruct p1 as [t1 v1], p2 as [t2 v2]. unfold segment_values, in_segment.
  by rewrite length_fmap.
Qed.

Lemma length_ramp_corrected_values get_frac grid amplitude :
  length (ramp_corrected_values get_frac grid amplitude)
  = value_count grid amplitude.
Proof.
  unfold ramp_corrected_values, value_count.
  induction (zip amplitude (tail amplitude)) as [|[p1 p2] l IH]; [done|].
  simpl. rewrite length_app, length_segment_values. f_equal. exact IH.
Qed.

(** A probability that [np.random.binomial] accepts. *)
Definition probability (p : float) : Prop :=
  (0 <=? p)%float && (p <=? 1)%float = true.

(** Noise data whose probabilities are probabilities. *)
Definition valid_probabilities (noise_data : AhsNoiseData) : Prop :=
  probability (filling_error noise_data) ∧
  probability (vacancy_error noise_data) ∧
  probability (ground_prep_error noise_data) ∧
  probability (atom_detection_error_false_positive noise_data) ∧
  probability (atom_detection_error_false_negative noise_data).

(** A ramp-correction curve with at least one point and no ramp time
    zero. *)
Definition valid_curve (noise_data : AhsNoiseData) : Prop :=
  rabi_amplitude_ramp_correction noise_data ≠ [] ∧
  ∀ corr, corr ∈ rabi_amplitude_ramp_correction noise_data →
          (rampTime corr =? 0)%float = false.

Section outcome.
Variable normal : nat → float.
Variable binomial : nat → float → Z.
Variable uniform : nat → float.
Variable np_interp_at : list float → list float → float → float.
Variable interp1d_at : list float → list float → float → float.
Variable noise_data : AhsNoiseData.

Lemma bind_normal {B} (size : nat) (f : list float → Rnd B) k :
  (noise ← np_random_normal normal size; f noise) k
  = f (normal <$> seq k size) (k + size)%nat.
Proof. reflexivity. Qed.

Lemma bind_lift_ok {A B} (r : raised + A) (f : A → Rnd B) x k :
  r = inr x → (y ← lift r; f y) k = f x k.
Proof. by intros ->. Qed.

Lemma _apply_site_position_error_ok sites k :
  ∃ ys, _apply_site_position_error normal noise_data sites k
        = (inr ys, (k + 2 * length sites)%nat)
        ∧ length ys = length sites.
Proof. apply mapM_ok. intros x k0. by eexists. Qed.

Lemma np_random_binomial_ok p k :
  probability p → np_random_binomial binomial p k = (inr (binomial k p), S k).
Proof. unfold probability, np_random_binomial. by intros ->. Qed.

Lemma _apply_binomial_noise_ok arr p01 p10 k :
  probability p01 → probability p10 →
  ∃ ys, _apply_binomial_noise binomial arr p01 p10 k
        = (inr ys, (k + 1 * length arr)%nat)
        ∧ length ys = length arr.
Proof.
  intros H01 H10. apply mapM_ok. intros x k0.
  destruct (decide (x = 1%Z)).
  - eexists. rewrite (Rnd_bind_ok _ _ _ _ _ (np_random_binomial_ok _ _ H10)).
    unfold mret, Rnd_ret. f_equal. lia.
  - eexists. rewrite (np_random_binomial_ok _ _ H01). f_equal. lia.
Qed.

Lemma probability_zero : probability 0.
Proof. reflexivity. Qed.

(** The lattice step draws five times for every site. *)
Lemma _apply_lattice_initialization_errors_ok program k :
  valid_probabilities noise_data →
  ∃ sites fillings pre_seq,
    _apply_lattice_initialization_errors normal binomial noise_data program k
      = (inr (sites, fillings, pre_seq),
         (k + 5 * length (register program))%nat) ∧
    length sites = length (register program) ∧
    length fillings = length (register program).
Proof.
  intros (Hf & Hv & Hg & Hfp & Hfn).
  unfold _apply_lattice_initialization_errors.
  destruct (_apply_site_position_error_ok (fst <$> register program) k)
    as (s & E1 & L1).
  destruct (_apply_binomial_noise_ok (filling_of program)
              (filling_error noise_data) (vacancy_error noise_data)
              (k + 2 * length (fst <$> register program))%nat Hf Hv)
    as (f1 & E2 & L2).
  destruct (_apply_binomial_noise_ok f1
              (atom_detection_error_false_negative noise_data)
              (atom_detection_error_false_positive noise_data)
              (k + 2 * length (fst <$> register program)
               + 1 * length (filling_of program))%nat Hfn Hfp)
    as (ps & E3 & L3).
  destruct (_apply_binomial_noise_ok f1 0 (ground_prep_error noise_data)
              (k + 2 * length (fst <$> register program)
               + 1 * length (filling_of program) + 1 * length f1)%nat
              probability_zero Hg)
    as (f2 & E4 & L4).
  exists s, f2, ps.
  rewrite (Rnd_bind_ok _ _ _ _ _ E1), (Rnd_bind_ok _ _ _ _ _ E2),
    (Rnd_bind_ok _ _ _ _ _ E3), (Rnd_bind_ok _ _ _ _ _ E4).
  rewrite length_fmap in L1.
  unfold filling_of in L2. rewrite length_fmap in L2.
  split; [|split; congruence].
  unfold mret, Rnd_ret. f_equal.
  unfold filling_of. rewrite !length_fmap, L2. lia.
Qed.

Lemma from_lists_ok times values :
  length times = length values →
  from_lists times values = inr (mkTimeSeries times values).
Proof. intros H. unfold from_lists. by rewrite decide_True. Qed.

(** The detuning step on a series with a point: it draws once for every
    grid time and once for every site. *)
Lemma _apply_detuning_errors_ok detuning fillings steps k last_time :
  last (fst <$> detuning) = Some last_time →
  let grid := linspace 0 last_time steps in
  ∃ values h,
    _apply_detuning_errors normal uniform np_interp_at noise_data
      detuning fillings steps k
    = (inr (mkTimeSeries grid values,
            (mkTimeSeries grid
               ((λ _, detuning_inhomogeneity noise_data * 1)%float <$> grid),
             h)),
       (k + steps + 1 * length fillings)%nat) ∧
    length values = steps ∧
    length h = length fillings.
Proof.
  intros Hlast grid. unfold _apply_detuning_errors. rewrite Hlast.
  fold grid. rewrite bind_normal.
  set (values := zip_with _ _ _).
  assert (Hg : length grid = steps) by apply length_linspace.
  assert (Hv : length values = steps).
  { unfold values, np_interp.
    rewrite length_zip_with, !length_fmap, length_seq. lia. }
  rewrite (bind_lift_ok _ _ (mkTimeSeries grid values))
    by (apply from_lists_ok; congruence).
  destruct (mapM_ok (λ _ : Z, np_random_rand uniform) fillings 1
              (k + length (np_interp np_interp_at grid (fst <$> detuning)
                             (snd <$> detuning)))%nat) as (h & Eh & Lh).
  { intros x k0. eexists. unfold np_random_rand. f_equal. lia. }
  rewrite (Rnd_bind_ok _ _ _ _ _ Eh).
  rewrite (bind_lift_ok _ _ (mkTimeSeries grid
             ((λ _, detuning_inhomogeneity noise_data * 1)%float <$> grid)))
    by (apply from_lists_ok; by rewrite length_fmap).
  exists values, h. split; [|done].
  unfold mret, Rnd_ret. f_equal.
  unfold np_interp. rewrite length_fmap, Hg. done.
Qed.

Lemma _apply_detuning_errors_empty fillings steps k :
  _apply_detuning_errors normal uniform np_interp_at noise_data
    [] fillings steps k = (inl IndexError, k).
Proof. reflexivity. Qed.

Lemma correction_slopes_ok curve :
  (∀ corr, corr ∈ curve → (rampTime corr =? 0)%float = false) →
  correction_slopes noise_data curve
  = inr ((λ corr, rabi_amplitude_max noise_data / rampTime corr)%float
           <$> curve).
Proof.
  induction curve as [|corr curve IH]; intros Hall; simpl; [done|].
  rewrite (Hall corr) by (by left).
  rewrite IH; [done|]. intros c Hc. apply Hall. by right.
Qed.

Lemma correction_slopes_zero before corr after :
  (rampTime corr =? 0)%float = true →
  correction_slopes noise_data (before ++ corr :: after)
  = inl ZeroDivisionError.
Proof.
  intros Hz. induction before as [|c before IH]; simpl.
  - by rewrite Hz.
  - destruct (rampTime c =? 0)%float; [done|]. by rewrite IH.
Qed.

(** The function [get_frac] of a valid curve. *)
Definition get_frac_of : float → float :=
  interp1d_at
    (reverse ((λ corr, rabi_amplitude_max noise_data / rampTime corr)%float
                <$> rabi_amplitude_ramp_correction noise_data))
    (reverse (rabiCorrection <$> rabi_amplitude_ramp_correction noise_data)).

(** The amplitude step up to [from_lists], on a valid curve and a series
    with a point: the grid and one value for every pair of a segment and a
    grid time in it, none of them negative; it draws once for every
    value. *)
Lemma noisy_amplitude_lists_ok amplitude steps k last_time :
  valid_curve noise_data →
  last (fst <$> amplitude) = Some last_time →
  let grid := linspace 0 last_time steps in
  ∃ values,
    noisy_amplitude_lists normal interp1d_at noise_data amplitude steps k
    = (inr (grid, values), (k + value_count grid amplitude)%nat) ∧
    length values = value_count grid amplitude ∧
    Forall (λ value, (0 <=? value)%float = true) values.
Proof.
  intros [Hne Hall] Hlast grid. unfold noisy_amplitude_lists.
  rewrite (bind_lift_ok _ _ _ _ (correction_slopes_ok _ Hall)).
  assert (Hi : interp1d interp1d_at
                 (reverse ((λ corr, rabi_amplitude_max noise_data
                                    / rampTime corr)%float
                             <$> rabi_amplitude_ramp_correction noise_data))
                 (reverse (rabiCorrection
                             <$> rabi_amplitude_ramp_correction noise_data))
               = inr get_frac_of).
  { unfold interp1d, get_frac_of.
    destruct (reverse _) as [|x xs] eqn:E; [|done].
    apply (f_equal length) in E. rewrite length_reverse, length_fmap in E.
    by destruct (rabi_amplitude_ramp_correction noise_data). }
  rewrite (bind_lift_ok _ _ _ _ Hi). rewrite Hlast. fold grid.
  rewrite bind_normal. rewrite length_ramp_corrected_values.
  eexists. split; [done|]. split.
  - rewrite length_fmap, length_zip_with, !length_fmap, length_seq.
    rewrite length_ramp_corrected_values. lia.
  - apply Forall_fmap, Forall_forall. intros v _. simpl.
    destruct (0 <? v)%float eqn:E; [|done].
    rewrite ltb_spec in E. rewrite leb_spec. unfold SFltb in E. unfold SFleb.
    by destruct (SFcompare _ _) as [[]|].
Qed.

Lemma noisy_amplitude_lists_zero_ramp_time amplitude steps k before corr after :
  rabi_amplitude_ramp_correction noise_data = before ++ corr :: after →
  (rampTime corr =? 0)%float = true →
  noisy_amplitude_lists normal interp1d_at noise_data amplitude steps k
  = (inl ZeroDivisionError, k).
Proof.
  intros Hc Hz. unfold noisy_amplitude_lists.
  by rewrite Hc, (correction_slopes_zero _ _ _ Hz).
Qed.

Lemma noisy_amplitude_lists_no_points amplitude steps k :
  rabi_amplitude_ramp_correction noise_data = [] →
  noisy_amplitude_lists normal interp1d_at noise_data amplitude steps k
  = (inl (ValueError NoSamplePoints), k).
Proof. intros Hc. unfold noisy_amplitude_lists. by rewrite Hc. Qed.

Lemma noisy_amplitude_lists_empty steps k :
  valid_curve noise_data →
  noisy_amplitude_lists normal interp1d_at noise_data [] steps k
  = (inl IndexError, k).
Proof.
  intros [Hne Hall]. unfold noisy_amplitude_lists.
  rewrite (bind_lift_ok _ _ _ _ (correction_slopes_ok _ Hall)).
  unfold interp1d. destruct (reverse _) as [|x xs] eqn:E; [|done].
  apply (f_equal length) in E. rewrite length_reverse, length_fmap in E.
  by destruct (rabi_amplitude_ramp_correction noise_data).
Qed.

(** The pass on valid noise data and a program whose two series have a
    point: every step before [from_lists] on the amplitude returns, and the
    pass returns exactly when the amplitude values are as many as the grid
    times. *)
Lemma run_outcome program steps k last_detuning last_amplitude :
  valid_probabilities noise_data → valid_curve noise_data →
  last (fst <$> detuning (hamiltonian program)) = Some last_detuning →
  last (fst <$> amplitude (hamiltonian program)) = Some last_amplitude →
  let k1 := (k + 5 * length (register program) + steps
             + 1 * length (filling_of program))%nat in
  let grid := linspace 0 last_amplitude steps in
  let count := value_count grid (amplitude (hamiltonian program)) in
  ∃ values,
    noisy_amplitude_lists normal interp1d_at noise_data
      (amplitude (hamiltonian program)) steps k1
    = (inr (grid, values), (k1 + count)%nat) ∧
    length values = count ∧
    Forall (λ value, (0 <=? value)%float = true) values ∧
    if decide (steps = count) then
      ∃ out,
        run normal binomial uniform np_interp_at interp1d_at noise_data
          program steps k = (inr out, (k1 + count)%nat) ∧
        length (noisy_register out) = length (register program) ∧
        noisy_amplitude out = mkTimeSeries grid values ∧
        ts_times (noisy_detuning out) = linspace 0 last_detuning steps ∧
        length (ts_values (noisy_detuning out)) = steps ∧
        noisy_phase out = phase (hamiltonian program) ∧
        local_detuning_magnitude out
        = mkTimeSeries (linspace 0 last_detuning steps)
            ((λ _, detuning_inhomogeneity noise_data * 1)%float
               <$> linspace 0 last_detuning steps) ∧
        length (local_detuning_pattern out) = length (register program)
    else
      run normal binomial uniform np_interp_at interp1d_at noise_data
        program steps k
      = (inl (ValueError (LengthsDiffer steps count)), (k1 + count)%nat).
Proof.
  intros Hp Hc Hd Ha k1 grid count.
  destruct (noisy_amplitude_lists_ok (amplitude (hamiltonian program))
              steps k1 last_amplitude Hc Ha) as (values & Hlists & Hlen & Hpos).
  exists values. split; [done|]. split; [done|]. split; [done|].
  destruct (_apply_lattice_initialization_errors_ok program k Hp)
    as (s & f & ps & E1 & Ls & Lf).
  destruct (_apply_detuning_errors_ok (detuning (hamiltonian program))
              (filling_of program) steps
              (k + 5 * length (register program))%nat last_detuning Hd)
    as (dvalues & h & E2 & Ld & Lh).
  fold k1 in E2.
  assert (Hg : length grid = steps) by apply length_linspace.
  unfold run, _apply_noise_model.
  rewrite (Rnd_bind_ok _ _ _ _ _ E1). cbn beta iota.
  case_decide as Hsteps.
  - assert (E3 : _apply_amplitude_errors normal interp1d_at noise_data
                   (amplitude (hamiltonian program)) steps k1
                 = (inr (mkTimeSeries grid values), (k1 + count)%nat)).
    { unfold _apply_amplitude_errors.
      rewrite (Rnd_bind_ok _ _ _ _ _ Hlists). cbn beta iota.
      unfold lift. rewrite from_lists_ok; [done|]. fold grid.
      rewrite Hg, Hlen. exact Hsteps. }
    assert (E23 : _apply_rydberg_noise normal uniform np_interp_at interp1d_at
                    noise_data program steps
                    (k + 5 * length (register program))%nat
                  = (inr (mkTimeSeries grid values,
                          mkTimeSeries (linspace 0 last_detuning steps) dvalues,
                          phase (hamiltonian program),
                          (mkTimeSeries (linspace 0 last_detuning steps)
                             ((λ _, detuning_inhomogeneity noise_data * 1)%float
                                <$> linspace 0 last_detuning steps), h)),
                     (k1 + count)%nat)).
    { unfold _apply_rydberg_noise.
      rewrite (Rnd_bind_ok _ _ _ _ _ E2). cbn beta iota.
      by rewrite (Rnd_bind_ok _ _ _ _ _ E3). }
    rewrite (Rnd_bind_ok _ _ _ _ _ E23). cbn beta iota.
    eexists. split; [done|]. simpl.
    rewrite length_fmap, length_zip_with.
    unfold filling_of in Lh. rewrite length_fmap in Lh.
    repeat split; [lia|done|done].
  - assert (E3 : _apply_amplitude_errors normal interp1d_at noise_data
                   (amplitude (hamiltonian program)) steps k1
                 = (inl (ValueError (LengthsDiffer steps count)),
                    (k1 + count)%nat)).
    { unfold _apply_amplitude_errors.
      rewrite (Rnd_bind_ok _ _ _ _ _ Hlists). cbn beta iota.
      unfold lift, from_lists. fold grid. rewrite Hg, Hlen.
      by rewrite decide_False. }
    assert (E23 : _apply_rydberg_noise normal uniform np_interp_at interp1d_at
                    noise_data program steps
                    (k + 5 * length (register program))%nat
                  = (inl (ValueError (LengthsDiffer steps count)),
                     (k1 + count)%nat)).
    { unfold _apply_rydberg_noise.
      rewrite (Rnd_bind_ok _ _ _ _ _ E2). cbn beta iota.
      by rewrite (Rnd_bind_error _ _ _ _ _ E3). }
    by rewrite (Rnd_bind_error _ _ _ _ _ E23).
Qed.

End outcome.


(** ** The length of the amplitude series *)

(** A program whose amplitude series has a point at time one, which a grid
    of three points from zero to two hits. *)
Definition breakpoint_program : AnalogHamiltonianSimulation :=
  mkAnalogHamiltonianSimulation
    [((0, 0), FILLED)]%float
    (mkDrivingField [(0, 0); (1, 1); (2, 0)] [(0, 0); (2, 0)]
       [(0, 0); (2, 0)])%float.

(** The program of the unit tests of the repository. *)
Definition test_program : AnalogHamiltonianSimulation :=
  let micro (n : Z) := (Z2float n / Z2float 10000000)%float in
  (mkAnalogHamiltonianSimulation
     [((micro 0, micro 0), FILLED); ((micro 0, micro 40), VACANT);
      ((micro 50, micro 0), FILLED); ((micro 50, micro 40), VACANT)]
     (mkDrivingField
        [(micro 0, Z2float 0); (micro 1, Z2float 12566400);
         (micro 39, Z2float 12566400); (micro 40, Z2float 0)]
        [(micro 0, Z2float 0); (micro 1, Z2float 0);
         (micro 39, (- (Z2float 160832 / Z2float 10000))%float);
         (micro 40, (- (Z2float 160832 / Z2float 10000))%float)]
        [(micro 0, Z2float (-125000000)); (micro 1, Z2float (-125000000));
         (micro 39, Z2float 125000000); (micro 40, Z2float 125000000)]))%Z.

(** Noise data with a curve of one point. *)
Definition sample_noise_data : AhsNoiseData :=
  (mkAhsNoiseData 0 0 0 0 [mkRampCorrection 1 (Z2float 1 / Z2float 2)]
     0 1 0 0 0 0)%float.

(** C5 fails on [breakpoint_program] with [steps = 3], whatever the random
    draws and the interpolation kernels are, for all noise data with
    probabilities in [[0, 1]] and a ramp-correction curve that has a point
    and no ramp time zero: the steps before the amplitude return, the pass
    builds the three grid times [0, 1, 2] and four amplitude values, the
    value at the grid time one being produced once by the segment that ends
    there and once by the segment that starts there, and
    [TimeSeries.from_lists] refuses the two lists with its [ValueError]. *)
Theorem amplitude_values_exceed_steps (normal : nat → float)
    (binomial : nat → float → Z) (uniform : nat → float)
    (np_interp_at interp1d_at : list float → list float → float → float)
    (noise_data : AhsNoiseData) (k : nat) :
  ((0 <=? filling_error noise_data) && (filling_error noise_data <=? 1)
   = true)%float →
  ((0 <=? vacancy_error noise_data) && (vacancy_error noise_data <=? 1)
   = true)%float →
  ((0 <=? ground_prep_error noise_data) && (ground_prep_error noise_data <=? 1)
   = true)%float →
  ((0 <=? atom_detection_error_false_positive noise_data)
   && (atom_detection_error_false_positive noise_data <=? 1) = true)%float →
  ((0 <=? atom_detection_error_false_negative noise_data)
   && (atom_detection_error_false_negative noise_data <=? 1) = true)%float →
  rabi_amplitude_ramp_correction noise_data ≠ [] →
  (∀ corr, corr ∈ rabi_amplitude_ramp_correction noise_data →
           (rampTime corr =? 0)%float = false) →
  ∃ values,
    noisy_amplitude_lists normal interp1d_at noise_data
      (amplitude (hamiltonian breakpoint_program)) 3 (k + 9)
    = (inr ([0; 1; 2]%float, values), (k + 13)%nat) ∧
    length values = 4%nat ∧
    run normal binomial uniform np_interp_at interp1d_at noise_data
      breakpoint_program 3 k
    = (inl (ValueError (LengthsDiffer 3 4)), (k + 13)%nat).
Proof.
  intros H1 H2 H3 H4 H5 Hne Hall.
  destruct (run_outcome normal binomial uniform np_interp_at interp1d_at
              noise_data breakpoint_program 3 k 2%float 2%float)
    as (values & Hlists & Hlen & _ & Hrun); [done|done|done|done|].
  assert (Hgrid : linspace 0 2 3 = [0; 1; 2]%float) by (vm_compute; reflexivity).
  assert (Hcount : value_count (linspace 0 2 3)
                     (amplitude (hamiltonian breakpoint_program)) = 4%nat)
    by (vm_compute; reflexivity).
  rewrite Hcount in Hlists, Hlen, Hrun. rewrite Hgrid in Hlists.
  simpl in Hlists, Hrun.
  replace (k + 5 + 3 + 1)%nat with (k + 9)%nat in Hlists, Hrun by lia.
  replace (k + 9 + 4)%nat with (k + 13)%nat in Hlists, Hrun by lia.
  exists values. split; [exact Hlists|]. split; [exact Hlen|exact Hrun].
Qed.

Lemma amplitude_values_exceed_steps_witness :
  ∃ values,
    noisy_amplitude_lists (λ _, 0%float) (λ _ _ x, x) sample_noise_data
      (amplitude (hamiltonian breakpoint_program)) 3 9
    = (inr ([0; 1; 2]%float, values), 13%nat) ∧
    length values = 4%nat ∧
    run (λ _, 0%float) (λ _ _, 0%Z) (λ _, 0%float) (λ _ _ x, x) (λ _ _ x, x)
      sample_noise_data breakpoint_program 3 0
    = (inl (ValueError (LengthsDiffer 3 4)), 13%nat).
Proof.
  apply (amplitude_values_exceed_steps (λ _, 0%float) (λ _ _, 0%Z)
           (λ _, 0%float) (λ _ _ x, x) (λ _ _ x, x) sample_noise_data 0);
    try reflexivity.
  - discriminate.
  - intros corr Hcorr. apply list_elem_of_singleton in Hcorr. subst corr.
    reflexivity.
Defined.

(** On the program of the unit tests with the default [steps = 100] no grid
    time is an inner point of the series: the values are a hundred and the
    pass returns. *)
Example test_program_values :
  value_count (linspace 0 (Z2float 40 / Z2float 10000000)%float 100)
    (amplitude (hamiltonian test_program)) = 100%nat ∧
  ∃ out,
    run (λ _, 0%float) (λ _ _, 0%Z) (λ _, 0%float) (λ _ _ x, x) (λ _ _ x, x)
      sample_noise_data test_program 100 0 = (inr out, 224%nat) ∧
    length (ts_times (noisy_amplitude out)) = 100%nat ∧
    length (ts_values (noisy_amplitude out)) = 100%nat.
Proof.
  split; [vm_compute; reflexivity|].
  eexists. split; [vm_compute; reflexivity|]. split; reflexivity.
Qed.

End ahs_noisy_pass.

(** * Further properties of aws_emulation.py *)

Set Warnings "-clear-no-such-hyp".

Module translation.
Import aws_emulation.

Lemma rigetti_translation name :
  ({["CPHASE" := "CPhaseShift"]} : gmap string string) !! name
  = if decide (name = "CPHASE") then Some "CPhaseShift" else None.
Proof.
  case_decide as E; [subst; by rewrite lookup_singleton_eq|].
  by rewrite lookup_singleton_ne.
Qed.

Lemma ionq_translation name :
  (<["GPI" := "GPi"]> {["GPI2" := "GPi2"]} : gmap string string) !! name
  = if decide (name = "GPI") then Some "GPi"
    else if decide (name = "GPI2") then Some "GPi2" else None.
Proof.
  destruct (decide (name = "GPI")) as [->|E1]; [by rewrite lookup_insert_eq|].
  rewrite lookup_insert_ne by done.
  destruct (decide (name = "GPI2")) as [->|E2];
    [by rewrite lookup_singleton_eq|by rewrite lookup_singleton_ne].
Qed.

(** What a translation can return: the name it was given or one of the three
    vendor-independent names, none of which is translated again. *)
Lemma translation_fixed properties name :
  _get_qpu_gate_translation properties
    (_get_qpu_gate_translation properties name)
  = _get_qpu_gate_translation properties name.
Proof.
  unfold _get_qpu_gate_translation. destruct (schema properties); try done.
  - rewrite !ionq_translation.
    destruct (decide (name = "GPI")) as [->|E1]; [done|].
    destruct (decide (name = "GPI2")) as [->|E2]; [done|]. simpl.
    by rewrite decide_False, decide_False.
  - rewrite !rigetti_translation.
    destruct (decide (name = "CPHASE")) as [->|E1]; [done|]. simpl.
    by rewrite decide_False.
Qed.

(** The gate names that some schema translates. *)
Definition translated_names (properties : DeviceCapabilities) : list string :=
  match schema properties with
  | RigettiDeviceCapabilities => ["CPHASE"]
  | IonqDeviceCapabilities => ["GPI"; "GPI2"]
  | _ => []
  end.

(** Gate-name translation never fails and is idempotent, for a single name
    and for a list of names; a list keeps its length; a name that is not in
    the table of the schema passes through unchanged, and no translation
    returns a name of the table. *)
Theorem gate_translation_idempotent (properties : DeviceCapabilities)
    (name : string) (names : list string) :
  _get_qpu_gate_translation properties
    (_get_qpu_gate_translation properties name)
  = _get_qpu_gate_translation properties name ∧
  _get_qpu_gate_translations properties
    (_get_qpu_gate_translations properties names)
  = _get_qpu_gate_translations properties names ∧
  length (_get_qpu_gate_translations properties names) = length names ∧
  (name ∉ translated_names properties →
   _get_qpu_gate_translation properties name = name) ∧
  _get_qpu_gate_translation properties name ∉ translated_names properties.
Proof.
  split; [apply translation_fixed|]. split; [|split; [|split]].
  - unfold _get_qpu_gate_translations. rewrite <- list_fmap_compose.
    apply list_fmap_ext. intros _ x _. apply translation_fixed.
  - unfold _get_qpu_gate_translations. apply length_fmap.
  - unfold _get_qpu_gate_translation, translated_names.
    destruct (schema properties); try done.
    + rewrite ionq_translation. intros Hn.
      rewrite decide_False, decide_False; [done| |]; intros ->; apply Hn;
        set_solver.
    + rewrite rigetti_translation. intros Hn.
      rewrite decide_False; [done|]. intros ->. apply Hn. set_solver.
  - unfold _get_qpu_gate_translation, translated_names.
    destruct (schema properties); try apply not_elem_of_nil.
    + rewrite ionq_translation.
      destruct (decide (name = "GPI")) as [->|E1]; [set_solver|].
      destruct (decide (name = "GPI2")) as [->|E2]; [set_solver|]. simpl.
      set_solver.
    + rewrite rigetti_translation.
      destruct (decide (name = "CPHASE")) as [->|E1]; [set_solver|]. simpl.
      set_solver.
Qed.

End translation.

Module symmetric_input.
Import nx nx_facts nx_wf loops aws_emulation connectivity.

Lemma dict_set_same {K V} `{EqDecision K} (d : list (K * V)) k v :
  Dict.get d k = Some v → Dict.set d k v = d.
Proof.
  induction d as [|[k' v'] d IH]; simpl; [done|].
  destruct (decide (k' = k)) as [->|Hne]; [by intros [= ->]|].
  intros H. by rewrite IH.
Qed.

Lemma succ_get g u d : Dict.get (adj g) u = Some d → succ g u = d.
Proof. unfold succ. by intros ->. Qed.

(** Adding, without attributes, an edge that is there changes nothing. *)
Lemma add_edge_present g a b :
  closed g → edge g a b → add_edge g a b ∅ = g.
Proof.
  intros Hc He. unfold add_edge.
  rewrite (add_node_present g a) by (by eapply edge_target_node).
  rewrite (add_node_present g b) by (by eapply Hc).
  destruct He as [d Hd]. rewrite Hd. simpl. rewrite (left_id_L ∅ (∪)).
  unfold edge_data in Hd.
  destruct (Dict.get (adj g) a) as [da|] eqn:Ea; [|done]. simpl in Hd.
  rewrite (succ_get g a da Ea), (dict_set_same da b d Hd).
  rewrite (dict_set_same (adj g) a da Ea). by destruct g.
Qed.

(** A graph with all its reverse edges. *)
Definition symmetric (g : DiGraph) : Prop := ∀ u v, edge g u v → edge g v u.

Definition symmetricb (g : DiGraph) : bool :=
  forallb (λ e : node * node, has_edge g e.2 e.1) (edges g).

Lemma symmetricb_symmetric g : symmetricb g = true → symmetric g.
Proof.
  unfold symmetricb. rewrite forallb_forall. intros H u v He.
  apply elem_of_edges, list_elem_of_In in He. specialize (H _ He).
  by apply has_edge_true in H.
Qed.

(** The back-edge loop of the IQM builders returns a graph that already has
    its reverse edges as it is: same nodes, same edges, same edge data, in
    the same order.  So the loop is idempotent: run on its own result, it
    returns that result. *)
Theorem add_back_edges_fixed_point (g : DiGraph) :
  closed g →
  (symmetric g → add_back_edges g = inr g) ∧
  (∀ g', add_back_edges g = inr g' → add_back_edges g' = inr g').
Proof.
  assert (Hfix : ∀ g0, closed g0 → symmetric g0 → add_back_edges g0 = inr g0).
  { intros g0 Hc Hs. unfold add_back_edges.
    destruct (for_edges_spec (λ u v s, mret (add_edge s v u ∅))
                (λ s, s = g0) (λ _ _ _, True) g0) as (g' & Hrun & -> & _);
      [done| |done].
    intros s u v -> He. exists g0. split.
    - by rewrite add_edge_present by auto.
    - by split. }
  intros Hc. split; [by apply Hfix|]. intros g' Hrun.
  destruct (add_back_edges_spec g Hc) as (g2 & Hrun2 & Hc2 & He & _).
  rewrite Hrun in Hrun2. injection Hrun2 as <-.
  apply Hfix; [done|]. intros u v. rewrite !He. tauto.
Qed.

Lemma add_back_edges_fixed_point_witness :
  (symmetric scenario_A_graph → add_back_edges scenario_A_graph = inr scenario_A_graph) ∧
  (∀ g', add_back_edges scenario_A_graph = inr g' → add_back_edges g' = inr g').
Proof.
  apply (add_back_edges_fixed_point scenario_A_graph).
  apply closedb_closed. reflexivity.
Defined.

End symmetric_input.

Module ionq.
Import nx nx_facts nx_wf loops aws_emulation connectivity gate_connectivity.

(** A loop that writes the attribute ["supported_gates"] of every edge: no
    exception, the same nodes and edges in the same order, the other
    attributes kept. *)
Lemma annotate_edges_spec (c : node → node → gset string) g :
  ∃ g1, for_edges (λ u v s, set_edge_attr s u v "supported_gates" (c u v)) g
          = inr g1 ∧
        Dict.keys (adj g1) = Dict.keys (adj g) ∧
        (∀ u, Dict.keys (succ g1 u) = Dict.keys (succ g u)) ∧
        (∀ u v, edge g1 u v ↔ edge g u v) ∧
        (∀ u v, edge_data g1 u v =
                <["supported_gates" := c u v]> <$> edge_data g u v).
Proof.
  set (new := λ u v, <["supported_gates" := c u v]> <$> edge_data g u v).
  set (Inv := λ s : DiGraph,
         Dict.keys (adj s) = Dict.keys (adj g) ∧
         (∀ u, Dict.keys (succ s u) = Dict.keys (succ g u)) ∧
         (∀ a b, edge s a b ↔ edge g a b) ∧
         (∀ a b, edge_data s a b = edge_data g a b ∨ edge_data s a b = new a b)).
  destruct (for_edges_spec
              (λ u v s, set_edge_attr s u v "supported_gates" (c u v)) Inv
              (λ u v s, edge_data s u v = new u v) g) as (g1 & Hrun & HI & Hvis).
  - unfold Inv. split; [done|]. split; [done|]. split; [done|]. by left.
  - intros s u v (Hk & Hks & He & Hd) Huv.
    destruct (set_edge_attr_ok s u v "supported_gates" (c u v) Huv)
      as (s' & Hs').
    exists s'. split; [done|].
    pose proof (edge_data_set_edge_attr _ _ _ _ _ _ u v Hs') as Hnew.
    rewrite decide_True in Hnew by done.
    assert (Hpost : edge_data s' u v = new u v).
    { rewrite Hnew. destruct (Hd u v) as [-> | ->]; [done|].
      unfold new. destruct (edge_data g u v); simpl; [|done].
      by rewrite insert_insert_eq. }
    destruct (adj_keys_set_edge_attr _ _ _ _ _ _ Hs') as [Hk1 Hk2].
    split.
    + unfold Inv. split; [congruence|]. split; [intros n; by rewrite Hk2|].
      split.
      * intros a b. by rewrite (edge_set_edge_attr _ _ _ _ _ _ a b Hs').
      * intros a b. rewrite (edge_data_set_edge_attr _ _ _ _ _ _ a b Hs').
        case_decide as Heq; [|done]. destruct Heq as [<- <-].
        right. by rewrite <- Hnew.
    + done.
    + by rewrite <- !dict_length_keys, Hk1.
    + by rewrite <- !dict_length_keys, Hk2.
    + intros a b. by rewrite (edge_set_edge_attr _ _ _ _ _ _ a b Hs').
    + intros a b Hab. rewrite (edge_data_set_edge_attr _ _ _ _ _ _ a b Hs').
      case_decide as Heq; [|done]. destruct Heq as [<- <-]. by rewrite <- Hnew.
  - destruct HI as (Hk & Hks & He & Hd). exists g1. split; [done|].
    split; [done|]. split; [done|]. split; [done|]. intros u v.
    destruct (decide (edge g u v)) as [Huv|Huv].
    + by apply Hvis.
    + unfold new. destruct (Hd u v) as [-> | ->]; [|done].
      destruct (edge_data g u v) eqn:E; [|done]. destruct Huv. unfold edge.
      rewrite E. by eauto.
Qed.

(** The gate set that the IonQ builder writes on every edge. *)
Definition ionq_native_gates (properties : DeviceCapabilities) : gset string :=
  list_to_set (_get_qpu_gate_translations properties (nativeGateSet properties)).

Definition ionq_device : DeviceCapabilities :=
  mkDeviceCapabilities IonqDeviceCapabilities 2 [] ["GPI"; "GPI2"; "MS"] ∅.

(** The gate-connectivity validator of an IonQ device holds a new graph with
    the nodes and the edges of the input graph, in the same order and with
    no edge added; every edge carries the translated native gate set of the
    device, whatever the calibration data are, and keeps its other
    attributes.  The builder does not raise. *)
Theorem ionq_gate_connectivity_uniform (properties : DeviceCapabilities)
    (connectivity_graph : loc) (h : heap) (g : DiGraph) :
  schema properties = IonqDeviceCapabilities →
  h !! connectivity_graph = Some g →
  ∃ validator h' g2,
    gate_connectivity_validator properties connectivity_graph h
      = (inr validator, h') ∧
    h' !! gcv_graph validator = Some g2 ∧
    gcv_graph validator ≠ connectivity_graph ∧
    edges g2 = edges g ∧
    Dict.keys (adj g2) = Dict.keys (adj g) ∧
    (∀ u v, edge g u v →
       supported_gates g2 u v = Some (ionq_native_gates properties)) ∧
    (∀ u v key, key ≠ "supported_gates" →
       edge_attr g2 u v key = edge_attr g u v key).
Proof.
  intros Hs Hl.
  destruct (annotate_edges_spec (λ _ _, ionq_native_gates properties) g)
    as (g2 & Hrun & Hk & Hks & He & Hd).
  exists (mkGateConnectivityValidator (fresh (dom h))),
         (<[fresh (dom h) := g2]> h), g2.
  split.
  { unfold gate_connectivity_validator, _gate_connectivity_validator.
    rewrite Hs. by apply (copy_in_place _ mkGateConnectivityValidator _ _ g). }
  split; [by rewrite lookup_insert_eq|]. split.
  { simpl. intros E. rewrite <- E, fresh_loc_unused in Hl. done. }
  split.
  { unfold edges. rewrite Hk. clear Hk.
    induction (Dict.keys (adj g)) as [|u us IH]; simpl; [done|].
    rewrite Hks. f_equal. exact IH. }
  split; [done|]. split.
  - intros u v [d Hduv]. unfold supported_gates, edge_attr.
    rewrite Hd, Hduv. simpl. by rewrite lookup_insert_eq.
  - intros u v key Hkey. unfold edge_attr. rewrite Hd.
    destruct (edge_data g u v); simpl; [|done]. by rewrite lookup_insert_ne.
Qed.

Lemma ionq_gate_connectivity_uniform_witness :
  ∃ validator h' g2,
    gate_connectivity_validator ionq_device 1%positive
      {[1%positive := scenario_A_graph]} = (inr validator, h') ∧
    h' !! gcv_graph validator = Some g2 ∧
    gcv_graph validator ≠ 1%positive ∧
    edges g2 = edges scenario_A_graph ∧
    Dict.keys (adj g2) = Dict.keys (adj scenario_A_graph) ∧
    (∀ u v, edge scenario_A_graph u v →
       supported_gates g2 u v = Some (ionq_native_gates ionq_device)) ∧
    (∀ u v key, key ≠ "supported_gates" →
       edge_attr g2 u v key = edge_attr scenario_A_graph u v key).
Proof.
  apply (ionq_gate_connectivity_uniform ionq_device 1%positive
           {[1%positive := scenario_A_graph]} scenario_A_graph);
    reflexivity.
Defined.

End ionq.

Module provenance.
Import nx nx_facts nx_wf loops aws_emulation connectivity gate_connectivity.

Lemma elem_of_calibrated_gates properties u v x :
  x ∈ calibrated_gates properties u v ↔
  ∃ names n, twoQubitProperties properties !! edge_key u v = Some names ∧
             n ∈ names ∧ x = _get_qpu_gate_translation properties n.
Proof.
  unfold calibrated_gates, _get_qpu_gate_translations.
  destruct (twoQubitProperties properties !! edge_key u v) as [names|].
  - rewrite elem_of_list_to_set, list_elem_of_fmap. split.
    + intros (n & -> & Hn). by exists names, n.
    + intros (names' & n & [= <-] & Hn & ->). by exists n.
  - split; [by intros ?%elem_of_empty|]. by intros (? & ? & ? & _).
Qed.

(** A gate of the calibration entry of the key ["u-v"], translated. *)
Definition calibrated (properties : DeviceCapabilities) (u v : node)
    (x : string) : Prop :=
  ∃ names n, twoQubitProperties properties !! edge_key u v = Some names ∧
             n ∈ names ∧ x = _get_qpu_gate_translation properties n.

(** In the gate-connectivity graph derived for a Rigetti or IQM device, a
    gate is supported on an edge only if the calibration data list it, up to
    translation, for that pair of qubits in one of the two directions.  For
    a Rigetti device no edge supports a gate under the name ["CPHASE"]. *)
Theorem supported_gates_come_from_calibration
    (properties : DeviceCapabilities) (connectivity_graph : loc) (h : heap)
    (g : DiGraph) :
  schema properties = IqmDeviceCapabilities
    ∨ schema properties = RigettiDeviceCapabilities →
  h !! connectivity_graph = Some g →
  closed g →
  ∃ validator h' g2,
    gate_connectivity_validator properties connectivity_graph h
      = (inr validator, h') ∧
    h' !! gcv_graph validator = Some g2 ∧
    (∀ u v s x, supported_gates g2 u v = Some s → x ∈ s →
       calibrated properties u v x ∨ calibrated properties v u x) ∧
    (schema properties = RigettiDeviceCapabilities →
     ∀ u v s, supported_gates g2 u v = Some s → "CPHASE" ∉ s).
Proof.
  intros Hs Hl Hc.
  destruct (rigetti_iqm_gate_connectivity_spec properties g Hc)
    as (g1 & g2 & _ & Hrun & _ & _ & He & Hg).
  exists (mkGateConnectivityValidator (fresh (dom h))),
         (<[fresh (dom h) := g2]> h), g2.
  split.
  { unfold gate_connectivity_validator, _gate_connectivity_validator.
    destruct Hs as [-> | ->];
      by apply (copy_in_place _ mkGateConnectivityValidator _ _ g). }
  split; [by rewrite lookup_insert_eq|].
  assert (Hprov : ∀ u v s x, supported_gates g2 u v = Some s → x ∈ s →
            calibrated properties u v x ∨ calibrated properties v u x).
  { intros u v s x Hsg Hx.
    rewrite (Hg u v (supported_gates_edge _ _ _ _ Hsg)) in Hsg.
    injection Hsg as <-. unfold final_gates, forward_gates in Hx.
    repeat case_decide; try (by apply elem_of_empty in Hx);
      apply elem_of_calibrated_gates in Hx; by auto. }
  split; [done|]. intros Hr u v s Hsg Hx.
  assert (Hno : ∀ a b, ¬ calibrated properties a b "CPHASE").
  { intros a b (names & n & _ & _ & E). revert E.
    unfold _get_qpu_gate_translation. rewrite Hr, translation.rigetti_translation.
    by case_decide. }
  destruct (Hprov u v s _ Hsg Hx) as [?|?]; by eapply Hno.
Qed.

Lemma supported_gates_come_from_calibration_witness :
  ∃ validator h' g2,
    gate_connectivity_validator rigetti_device 1%positive
      {[1%positive := scenario_B_graph]} = (inr validator, h') ∧
    h' !! gcv_graph validator = Some g2 ∧
    (∀ u v s x, supported_gates g2 u v = Some s → x ∈ s →
       calibrated rigetti_device u v x ∨ calibrated rigetti_device v u x) ∧
    (schema rigetti_device = RigettiDeviceCapabilities →
     ∀ u v s, supported_gates g2 u v = Some s → "CPHASE" ∉ s).
Proof.
  apply (supported_gates_come_from_calibration rigetti_device 1%positive
           {[1%positive := scenario_B_graph]} scenario_B_graph).
  - right. reflexivity.
  - reflexivity.
  - apply closedb_closed. reflexivity.
Defined.

End provenance.

Module routing.
Import nx nx_facts nx_wf loops aws_emulation connectivity.

(** The routing pass by schema: for Rigetti and IonQ it holds the graph
    object of the caller itself; for IQM it holds a new graph, which has the
    edges of the input and their reverses; for every other schema the
    builder raises [NotImplementedError] and leaves the store as it is. *)
Theorem lexi_routing_graph (properties : DeviceCapabilities)
    (connectivity_graph : loc) (h : heap) (g : DiGraph) :
  h !! connectivity_graph = Some g →
  closed g →
  match schema properties with
  | RigettiDeviceCapabilities | IonqDeviceCapabilities =>
      lexi_mapping_routing_pass properties connectivity_graph h
        = (inr (mkLexiRoutingPass connectivity_graph), h)
  | IqmDeviceCapabilities =>
      ∃ l' g',
        lexi_mapping_routing_pass properties connectivity_graph h
          = (inr (mkLexiRoutingPass l'), <[l' := g']> h) ∧
        h !! l' = None ∧
        (∀ u v, edge g' u v ↔ edge g u v ∨ edge g v u)
  | _ =>
      lexi_mapping_routing_pass properties connectivity_graph h
        = (inl NotImplementedError, h)
  end.
Proof.
  intros Hl Hc. unfold lexi_mapping_routing_pass, _lexi_mapping_routing_pass.
  destruct (schema properties); try done.
  destruct (add_back_edges_spec g Hc) as (g' & Hrun & _ & Hedges & _).
  exists (fresh (dom h)), g'.
  split; [by apply (copy_in_place _ mkLexiRoutingPass _ _ g)|].
  split; [apply fresh_loc_unused|done].
Qed.

Lemma lexi_routing_graph_witness :
  ∃ l' g',
    lexi_mapping_routing_pass iqm_device 1%positive
      {[1%positive := scenario_A_graph]}
    = (inr (mkLexiRoutingPass l'), <[l' := g']> {[1%positive := scenario_A_graph]}) ∧
    ({[1%positive := scenario_A_graph]} : heap) !! l' = None ∧
    (∀ u v, edge g' u v ↔ edge scenario_A_graph u v ∨ edge scenario_A_graph v u).
Proof.
  apply (lexi_routing_graph iqm_device 1%positive
           {[1%positive := scenario_A_graph]} scenario_A_graph).
  - reflexivity.
  - apply closedb_closed. reflexivity.
Defined.

(** The nativization pass: for an IQM device, the eight pytket passes in
    their order, the architecture of [DecomposeSWAPtoCX] being the edges of
    the input graph together with their reverses; the only change to the
    store is one new object, the completed copy, so the graph of the caller
    and every other object are as they were; for every other schema the
    no-op pass, with nothing allocated. *)
Theorem nativization_pass_architecture (properties : DeviceCapabilities)
    (connectivity_graph : loc) (h : heap) (g : DiGraph) :
  h !! connectivity_graph = Some g →
  closed g →
  if decide (schema properties = IqmDeviceCapabilities) then
    ∃ iqm_architecture l' g',
      create_nativization_pass properties connectivity_graph h
        = (inr (TketCompilerPass
                  [ DecomposeBRIDGE; DecomposeSWAPtoCX iqm_architecture;
                    OptimisePostRouting; RemoveRedundancies; SimplifyInitial;
                    auto_rebase_pass ["CZ"; "PhasedX"; "Rz"];
                    SquashRzPhasedX; virtualize_rz_pass ]),
           <[l' := g']> h) ∧
      h !! l' = None ∧
      (<[l' := g']> h) !! connectivity_graph = Some g ∧
      (∀ l, l ≠ l' → (<[l' := g']> h) !! l = h !! l) ∧
      (∀ u v, (u, v) ∈ iqm_architecture ↔ edge g u v ∨ edge g v u)
  else
    create_nativization_pass properties connectivity_graph h
      = (inr NoOpPass, h).
Proof.
  intros Hl Hc. unfold create_nativization_pass.
  case_decide as Hs; [rewrite Hs|by destruct (schema properties)].
  destruct (add_back_edges_spec g Hc) as (g' & Hrun & _ & Hedges & _).
  pose proof (fresh_loc_unused h) as Hfresh.
  exists (edges g'), (fresh (dom h)), g'. split; [|split; [|split; [|split]]].
  - unfold mbind, M_bind, mret, M_ret, graph_copy, in_place, edge_list.
    rewrite Hl, lookup_insert_eq, Hrun, insert_insert_eq, lookup_insert_eq.
    done.
  - done.
  - rewrite lookup_insert_ne; [done|]. intros E. rewrite E in Hfresh. congruence.
  - intros l Hne. by rewrite lookup_insert_ne.
  - intros u v. by rewrite elem_of_edges.
Qed.

Lemma nativization_pass_architecture_witness :
  ∃ iqm_architecture l' g',
    create_nativization_pass iqm_device 1%positive
      {[1%positive := scenario_A_graph]}
      = (inr (TketCompilerPass
                [ DecomposeBRIDGE; DecomposeSWAPtoCX iqm_architecture;
                  OptimisePostRouting; RemoveRedundancies; SimplifyInitial;
                  auto_rebase_pass ["CZ"; "PhasedX"; "Rz"];
                  SquashRzPhasedX; virtualize_rz_pass ]),
         <[l' := g']> {[1%positive := scenario_A_graph]}) ∧
    ({[1%positive := scenario_A_graph]} : heap) !! l' = None ∧
    (<[l' := g']> ({[1%positive := scenario_A_graph]} : heap)) !! 1%positive
      = Some scenario_A_graph ∧
    (∀ l, l ≠ l' →
       (<[l' := g']> ({[1%positive := scenario_A_graph]} : heap)) !! l
       = ({[1%positive := scenario_A_graph]} : heap) !! l) ∧
    (∀ u v, (u, v) ∈ iqm_architecture
            ↔ edge scenario_A_graph u v ∨ edge scenario_A_graph v u).
Proof.
  apply (nativization_pass_architecture iqm_device 1%positive
           {[1%positive := scenario_A_graph]} scenario_A_graph).
  - reflexivity.
  - apply closedb_closed. reflexivity.
Defined.

End routing.

(** * GateConnectivityCriterion.__init__ *)

Module criterion_init.
Import nx nx_facts nx_wf loops connectivity gate_connectivity.

(** Loops over a live dictionary whose state survives an exception: the
    caller can look at the graph after the constructor has raised. *)
Fixpoint dict_iter_st {S K : Type} (size : S → nat)
    (body : K → S → option exn * S) (ks : list K) (n0 : nat) (s : S)
  : option exn * S :=
  match ks with
  | [] => (None, s)
  | k :: ks' =>
      match body k s with
      | (Some e, s') => (Some e, s')
      | (None, s') =>
          if decide (size s' = n0) then dict_iter_st size body ks' n0 s'
          else (Some dict_changed, s')
      end
  end.

Definition for_edges_st (body : node → node → DiGraph → option exn * DiGraph)
    (g : DiGraph) : option exn * DiGraph :=
  dict_iter_st (λ g, length (adj g))
    (λ u g, dict_iter_st (λ g, length (succ g u)) (body u)
              (Dict.keys (succ g u)) (length (succ g u)) g)
    (Dict.keys (adj g)) (length (adj g)) g.

(** Run on the object at [l] an algorithm that mutates it; what it has done
    before raising stays done. *)
Definition mutate (l : loc) (f : DiGraph → option exn * DiGraph) : M unit :=
  λ h, match h !! l with
       | None => (inl ReferenceError, h)
       | Some g =>
           let '(r, g') := f g in
           (match r with Some e => inl e | None => inr () end, <[l := g']> h)
       end.

(** [DiGraph()] *)
Definition new_graph : M loc :=
  λ h, let l := fresh (dom h) in (inr l, <[l := empty]> h).

Record GateConnectivityCriterion :=
  mkGateConnectivityCriterion { _gate_connectivity_graph : loc }.

(** The argument [gate_connectivity_graph]: a [DiGraph] object, or a
    dictionary from edges to their supported gates.  The gates of an edge are
    a set here; the criterion only tests membership in them. *)
Inductive graph_argument :=
  | a_DiGraph (l : loc)
  | a_dict (d : list ((node * node) * gset string)).

(** Body of the loop of the [DiGraph] branch with [directed=False]. *)
Definition add_missing_back_edge (u v : node) (g : DiGraph)
  : option exn * DiGraph :=
  if negb (has_edge g v u) then
    match get_edge_attr g u v "supported_gates" with
    | inl e => (Some e, g)
    | inr supported_gates =>
        (None, add_edge g v u {["supported_gates" := supported_gates]})
    end
  else (None, g).

(** Body of the loop of the dictionary branch; [d] is the whole dictionary,
    in which the back edge is looked up. *)
Definition add_dict_item (d : list ((node * node) * gset string))
    (directed : bool) (g : DiGraph) (item : (node * node) * gset string)
  : DiGraph :=
  let '((e0, e1), supported_gates) := item in
  let g := add_edge g e0 e1 {["supported_gates" := supported_gates]} in
  if negb directed then
    if bool_decide (is_Some (Dict.get d (e1, e0))) then g
    else add_edge g e1 e0 {["supported_gates" := supported_gates]}
  else g.

Definition __init__ (gate_connectivity_graph : graph_argument)
    (directed : bool) : M GateConnectivityCriterion :=
  match gate_connectivity_graph with
  | a_DiGraph l =>
      _ ← (if negb directed then mutate l (for_edges_st add_missing_back_edge)
           else mret ());
      mret (mkGateConnectivityCriterion l)
  | a_dict d =>
      l ← new_graph;
      _ ← mutate l (λ g, (None, fold_left (add_dict_item d directed) d g));
      mret (mkGateConnectivityCriterion l)
  end.

(** ** The loops that keep their state agree with the plain ones *)

Definition to_result {S} (r : option exn * S) : result S :=
  match r with (Some e, _) => inl e | (None, s) => inr s end.

Lemma dict_iter_st_ok {S K} (size : S → nat) (body : K → S → option exn * S)
    (body_r : K → S → result S) ks n0 s s' :
  (∀ k x x', body_r k x = inr x' → body k x = (None, x')) →
  dict_iter size body_r ks n0 s = inr s' →
  dict_iter_st size body ks n0 s = (None, s').
Proof.
  intros Hsim. revert s. induction ks as [|k ks IH]; intros s; simpl.
  - by intros [= ->].
  - destruct (body_r k s) as [e|x] eqn:Er; simpl; [done|].
    rewrite (Hsim _ _ _ Er). case_decide; [apply IH|done].
Qed.

Lemma for_edges_st_ok body body_r g g' :
  (∀ u v x x', body_r u v x = inr x' → body u v x = (None, x')) →
  for_edges body_r g = inr g' → for_edges_st body g = (None, g').
Proof.
  intros Hsim. unfold for_edges, for_edges_st. apply dict_iter_st_ok.
  intros u x x'. apply dict_iter_st_ok. apply Hsim.
Qed.

(** The body of the [DiGraph] branch as a function that returns or raises. *)
Definition add_missing_back_edge_r (u v : node) (g : DiGraph) : result DiGraph :=
  to_result (add_missing_back_edge u v g).

Lemma add_missing_back_edge_sim u v x x' :
  add_missing_back_edge_r u v x = inr x' →
  add_missing_back_edge u v x = (None, x').
Proof.
  unfold add_missing_back_edge_r.
  destruct (add_missing_back_edge u v x) as [[e|] y]; simpl; [done|].
  by intros [= ->].
Qed.

Lemma supported_gates_data s g u v :
  edge_data s u v = edge_data g u v →
  supported_gates s u v = supported_gates g u v.
Proof. unfold supported_gates, edge_attr. by intros ->. Qed.

Section undirected.
Variable g : DiGraph.
Hypothesis closed_g : closed g.
Hypothesis attributes : ∀ u v, edge g u v → is_Some (supported_gates g u v).

Definition init_inv (s : DiGraph) : Prop :=
  closed s ∧
  (∀ a b, edge g a b → edge_data s a b = edge_data g a b) ∧
  (∀ a b, edge s a b → edge g a b ∨ edge g b a) ∧
  (∀ a b, edge s a b → ¬ edge g a b →
          supported_gates s a b = supported_gates g b a).

Lemma init_inv_mono s a b : init_inv s → edge g a b → edge s a b.
Proof. intros (_ & Hd & _) He. unfold edge. by rewrite Hd. Qed.

Lemma add_missing_back_edge_step s u v :
  init_inv s → edge s u v →
  ∃ s', add_missing_back_edge_r u v s = inr s' ∧
        body_ok init_inv (λ u v s, edge s v u) u v s s'.
Proof.
  intros HI Huv. pose proof HI as (Hcs & Hd & Hsub & Hnew).
  unfold add_missing_back_edge_r, add_missing_back_edge.
  destruct (has_edge s v u) eqn:Evu; simpl.
  - apply has_edge_true in Evu. exists s. split; [done|]. by split.
  - apply has_edge_false in Evu.
    assert (Hg : edge g u v).
    { destruct (Hsub _ _ Huv) as [?|?]; [done|].
      exfalso. apply Evu. by apply init_inv_mono. }
    assert (Hngvu : ¬ edge g v u).
    { intros ?. apply Evu. by apply init_inv_mono. }
    destruct (attributes _ _ Hg) as [x Hx].
    unfold get_edge_attr.
    change (edge_attr s u v "supported_gates") with (supported_gates s u v).
    rewrite (supported_gates_data s g u v (Hd _ _ Hg)), Hx. simpl.
    eexists. split; [done|]. split.
    + split; [by apply closed_add_edge|]. split; [|split].
      * intros a b Hab. rewrite edge_data_add_edge.
        destruct (decide (v = a ∧ u = b)) as [[<- <-]|Hne]; [done|by auto].
      * intros a b [[<- <-]|Hab]%edge_add_edge; [by right|by auto].
      * intros a b Hab Hngab. rewrite supported_gates_add_edge.
        destruct (decide (v = a ∧ u = b)) as [[<- <-]|Hne]; [done|].
        apply edge_add_edge in Hab as [?|?]; [done|by auto].
    + apply edge_add_edge. by left.
    + by apply length_adj_add_back.
    + apply length_succ_add_edge. destruct (decide (v = u)) as [->|]; by auto.
    + intros a b ?. apply edge_add_edge. by right.
    + intros a b ?. apply edge_add_edge. by right.
Qed.

Lemma add_missing_back_edges_spec :
  ∃ g', for_edges_st add_missing_back_edge g = (None, g') ∧
    closed g' ∧
    (∀ u v, edge g' u v ↔ edge g u v ∨ edge g v u) ∧
    (∀ u v, edge g u v → edge_data g' u v = edge_data g u v) ∧
    (∀ u v, edge g v u → ¬ edge g u v →
            supported_gates g' u v = supported_gates g v u).
Proof.
  destruct (for_edges_spec add_missing_back_edge_r init_inv
              (λ u v s, edge s v u) g) as (g' & Hrun & HI & Hvis).
  - split; [done|]. split; [done|]. split; [by auto|]. by intros.
  - apply add_missing_back_edge_step.
  - exists g'. split.
    { eapply for_edges_st_ok; [apply add_missing_back_edge_sim|done]. }
    destruct HI as (Hc & Hd & Hsub & Hnew). split; [done|].
    split; [|split; [done|]].
    + intros u v. split; [by auto|].
      intros [He|He]; by destruct (Hvis _ _ He).
    + intros u v Hvu Hnuv. apply Hnew; [|done]. by destruct (Hvis _ _ Hvu).
Qed.

End undirected.

(** [GateConnectivityCriterion.__init__] on a [DiGraph]: the criterion holds
    the caller's object.  With [directed=True] the store is left as it is.
    With [directed=False], on a graph all of whose edges carry the attribute
    [supported_gates], the constructor does not raise and completes the
    caller's graph in place: afterwards its edges are those of the input and
    their reverses, the edges of the input keep their data, and an edge that
    was added carries the gates of the edge it reverses. *)
Theorem init_completes_graph_in_place (l : loc) (g : DiGraph) (h : heap) :
  h !! l = Some g → closed g →
  (∀ u v, edge g u v → is_Some (supported_gates g u v)) →
  __init__ (a_DiGraph l) true h = (inr (mkGateConnectivityCriterion l), h) ∧
  ∃ g', __init__ (a_DiGraph l) false h
          = (inr (mkGateConnectivityCriterion l), <[l := g']> h) ∧
    (∀ u v, edge g' u v ↔ edge g u v ∨ edge g v u) ∧
    (∀ u v, edge g u v → edge_data g' u v = edge_data g u v) ∧
    (∀ u v, edge g v u → ¬ edge g u v →
            supported_gates g' u v = supported_gates g v u).
Proof.
  intros Hl Hc Hattr. split; [done|].
  destruct (add_missing_back_edges_spec g Hc Hattr)
    as (g' & Hrun & _ & He & Hd & Hs).
  exists g'. split; [|done].
  unfold __init__, mbind, M_bind, mutate. simpl. by rewrite Hl, Hrun.
Qed.

Definition one_way_graph : DiGraph :=
  add_edge (add_edge empty 0 1 {["supported_gates" := {["CZ"]}]})
           1 2 {["supported_gates" := {["CZ"; "ISwap"]}]}.

Lemma init_completes_graph_in_place_witness :
  ∃ g', __init__ (a_DiGraph 1%positive) false {[1%positive := one_way_graph]}
          = (inr (mkGateConnectivityCriterion 1%positive),
             <[1%positive := g']> {[1%positive := one_way_graph]}) ∧
        supported_gates g' 2 1 = Some {["CZ"; "ISwap"]}.
Proof.
  assert (Hc : closed one_way_graph) by (by apply closedb_closed).
  assert (Ha : ∀ u v, edge one_way_graph u v →
                      is_Some (supported_gates one_way_graph u v)).
  { intros u v. unfold one_way_graph.
    intros [[<- <-]|[[<- <-]|He]%edge_add_edge]%edge_add_edge.
    - rewrite supported_gates_add_edge, decide_True; by eauto.
    - rewrite !supported_gates_add_edge, decide_False, decide_True by
        (try done; intros [? _]; done). by eauto.
    - by destruct He. }
  destruct (init_completes_graph_in_place 1%positive one_way_graph
              {[1%positive := one_way_graph]}
              (lookup_singleton_eq _ _) Hc Ha)
    as (_ & g' & Hrun & _ & _ & Hs).
  exists g'. split; [exact Hrun|].
  rewrite (Hs 2%Z 1%Z).
  - unfold one_way_graph. by rewrite supported_gates_add_edge, decide_True.
  - unfold one_way_graph. apply edge_add_edge. by left.
  - unfold one_way_graph.
    intros [[? _]|[[? _]|He]%edge_add_edge]%edge_add_edge; [done|done|].
    by destruct He.
Defined.

(** ** The dictionary branch *)

(** What the graph built from a dictionary answers for the pair [(u, v)]. *)
Definition dict_gates (d : list ((node * node) * gset string)) (directed : bool)
    (u v : node) : option (gset string) :=
  match Dict.get d (u, v) with
  | Some x => Some x
  | None => if directed then None else Dict.get d (v, u)
  end.

Lemma supported_gates_add_dict_item d directed g0 a b x u v :
  supported_gates (add_dict_item d directed g0 ((a, b), x)) u v =
  if decide (a = u ∧ b = v) then Some x
  else if decide (directed = false ∧ Dict.get d (b, a) = None ∧ b = u ∧ a = v)
       then Some x
       else supported_gates g0 u v.
Proof.
  unfold add_dict_item. destruct directed; simpl.
  - rewrite supported_gates_add_edge. by case_decide.
  - destruct (Dict.get d (b, a)) as [y|] eqn:Eba.
    + rewrite bool_decide_eq_true_2 by eauto.
      rewrite supported_gates_add_edge. case_decide; [done|].
      rewrite decide_False; [done|]. by intros (_ & ? & _).
    + rewrite bool_decide_eq_false_2 by (by intros [? ?]).
      rewrite !supported_gates_add_edge.
      destruct (decide (b = u ∧ a = v)) as [Hba|Hba].
      * destruct (decide (a = u ∧ b = v)); [done|]. by rewrite decide_True.
      * destruct (decide (a = u ∧ b = v)); [done|].
        rewrite decide_False; [done|]. intros (_ & _ & ? & ?). by apply Hba.
Qed.

Lemma attribute_add_dict_item d directed g0 item :
  (∀ u v, edge g0 u v → is_Some (supported_gates g0 u v)) →
  ∀ u v, edge (add_dict_item d directed g0 item) u v →
         is_Some (supported_gates (add_dict_item d directed g0 item) u v).
Proof.
  assert (Hstep : ∀ g a b x,
            (∀ u v, edge g u v → is_Some (supported_gates g u v)) →
            ∀ u v, edge (add_edge g a b {["supported_gates" := x]}) u v →
                   is_Some (supported_gates
                              (add_edge g a b {["supported_gates" := x]}) u v)).
  { intros g a b x Hg u v He. rewrite supported_gates_add_edge.
    case_decide as Hd; [by eauto|].
    apply edge_add_edge in He as [?|?]; [done|by auto]. }
  intros H0. destruct item as [[a b] x]. unfold add_dict_item.
  destruct directed; simpl; [by apply Hstep|].
  case_bool_decide; by repeat apply Hstep.
Qed.

Lemma fold_dict_items d directed items g0 u v :
  NoDup (Dict.keys items) →
  (∀ k, k ∈ Dict.keys items → is_Some (Dict.get d k)) →
  supported_gates (fold_left (add_dict_item d directed) items g0) u v =
  match Dict.get items (u, v) with
  | Some x => Some x
  | None =>
      match (if directed then None
             else if bool_decide (is_Some (Dict.get d (u, v))) then None
                  else Dict.get items (v, u)) with
      | Some x => Some x
      | None => supported_gates g0 u v
      end
  end.
Proof.
  revert g0. induction items as [|[[a b] x] items IH]; intros g0 Hnd Hsub.
  - simpl. by repeat case_match.
  - unfold Dict.keys in Hnd. rewrite fmap_cons in Hnd.
    apply NoDup_cons in Hnd as [Hab Hnd].
    assert (Hrest : Dict.get items (a, b) = None).
    { apply eq_None_not_Some. by rewrite <- Dict.elem_of_keys. }
    assert (Hd : is_Some (Dict.get d (a, b))) by (apply Hsub; by left).
    change (fold_left (add_dict_item d directed) ((a, b, x) :: items) g0)
      with (fold_left (add_dict_item d directed) items
              (add_dict_item d directed g0 ((a, b), x))).
    rewrite IH; [|done|by intros k ?; apply Hsub; right].
    rewrite supported_gates_add_dict_item. simpl Dict.get.
    destruct (decide ((a, b) = (u, v))) as [[= <- <-]|Huv].
    + rewrite Hrest, decide_True by done.
      rewrite (bool_decide_eq_true_2 _ Hd). by destruct directed.
    + rewrite (decide_False (P := a = u ∧ b = v)) by (by intros [-> ->]).
      destruct (Dict.get items (u, v)) as [y|]; [done|].
      destruct directed; simpl; [done|].
      destruct (Dict.get d (u, v)) as [y|] eqn:Eduv.
      { rewrite bool_decide_eq_true_2 by eauto.
        rewrite decide_False; [done|]. intros (_ & E & -> & ->). congruence. }
      rewrite bool_decide_eq_false_2 by (by intros [? ?]).
      destruct (decide ((a, b) = (v, u))) as [[= -> ->]|Hvu].
      * rewrite Hrest. by rewrite decide_True.
      * destruct (Dict.get items (v, u)) as [y|]; [done|].
        rewrite decide_False; [done|]. intros (_ & _ & -> & ->). done.
Qed.

Lemma fold_dict_items_attribute d directed items g0 :
  (∀ u v, edge g0 u v → is_Some (supported_gates g0 u v)) →
  ∀ u v, edge (fold_left (add_dict_item d directed) items g0) u v →
    is_Some (supported_gates (fold_left (add_dict_item d directed) items g0) u v).
Proof.
  revert g0. induction items as [|item items IH]; intros g0 H0; [done|].
  simpl. apply IH. by apply attribute_add_dict_item.
Qed.

(** [GateConnectivityCriterion.__init__] on a dictionary never raises and
    leaves every object of the caller alone: the criterion holds a new graph.
    Its edge [(u, v)] carries the gates of the dictionary entry [(u, v)];
    with [directed=False] a pair without an entry carries the gates of the
    entry [(v, u)]; no other pair is an edge.  So with [directed=False] an
    entry given in both directions keeps its two gate sets. *)
Theorem init_from_dict (d : list ((node * node) * gset string))
    (directed : bool) (h : heap) :
  NoDup (Dict.keys d) →
  ∃ l g', __init__ (a_dict d) directed h
            = (inr (mkGateConnectivityCriterion l), <[l := g']> h) ∧
    h !! l = None ∧
    (∀ u v, supported_gates g' u v = dict_gates d directed u v) ∧
    (∀ u v, edge g' u v ↔ is_Some (dict_gates d directed u v)).
Proof.
  intros Hnd. exists (fresh (dom h)).
  exists (fold_left (add_dict_item d directed) d empty).
  assert (Hsg : ∀ u v,
            supported_gates (fold_left (add_dict_item d directed) d empty) u v
            = dict_gates d directed u v).
  { intros u v. rewrite fold_dict_items;
      [|done|by intros k ?%Dict.elem_of_keys].
    unfold dict_gates. destruct (Dict.get d (u, v)) as [x|] eqn:E; [done|].
    rewrite bool_decide_eq_false_2 by (by intros [? ?]).
    destruct directed; [done|]. by destruct (Dict.get d (v, u)). }
  split; [|split; [apply fresh_loc_unused|split; [done|]]].
  - unfold __init__, mbind, M_bind, new_graph, mutate. simpl.
    rewrite lookup_insert_eq. by rewrite insert_insert_eq.
  - intros u v. rewrite <- Hsg. split.
    + apply fold_dict_items_attribute. by intros ? ? [? ?].
    + intros [x Hx]. by eapply supported_gates_edge.
Qed.

Definition mixed_dict : list ((node * node) * gset string) :=
  [((0%Z, 1%Z), {["CZ"]}); ((1%Z, 2%Z), {["ISwap"]}); ((2%Z, 1%Z), {["CZ"]})].

Lemma init_from_dict_witness :
  ∃ l g', __init__ (a_dict mixed_dict) false ∅
            = (inr (mkGateConnectivityCriterion l), <[l := g']> ∅) ∧
    supported_gates g' 1 0 = Some {["CZ"]} ∧
    supported_gates g' 1 2 = Some {["ISwap"]} ∧
    supported_gates g' 2 1 = Some {["CZ"]} ∧
    ¬ edge g' 0 2.
Proof.
  destruct (init_from_dict mixed_dict false ∅)
    as (l & g' & Hrun & _ & Hsg & He).
  { apply (bool_decide_eq_true_1 (NoDup (Dict.keys mixed_dict))).
    vm_compute. reflexivity. }
  exists l, g'. split; [exact Hrun|].
  rewrite !Hsg, He. repeat split; try reflexivity.
  intros [? H']. discriminate H'.
Defined.

End criterion_init.

(** * What GateConnectivityCriterion.validate accepts *)

Module verbatim.
Import nx nx_facts gate_connectivity_criterion.

(** The instructions after a [StartVerbatimBox] form a closed box all of
    whose instructions pass the check: [body] runs up to the first
    [EndVerbatimBox]. *)
Definition box_ok (g : DiGraph) (after : list Instruction) : Prop :=
  ∃ body end_box post,
    after = body ++ end_box :: post ∧
    is_end end_box = true ∧
    ∀ i, i ∈ body → is_end i = false ∧ validate_in_box g i = inr ().

Lemma scan_verbatim_box_ok g rest idx :
  scan_verbatim_box g rest idx = inr () ↔ box_ok g rest.
Proof.
  revert idx. induction rest as [|i rest IH]; intros idx; simpl.
  - split; [done|]. intros (body & e & post & E & _). by destruct body.
  - destruct (is_end i) eqn:Ei.
    + split; [intros _|done]. exists [], i, rest. split; [done|].
      split; [done|]. by intros ? ?%elem_of_nil.
    + destruct (validate_in_box g i) as [e|[]] eqn:Ev; simpl.
      * split; [done|]. intros (body & e' & post & E & He' & Hbody).
        destruct body as [|j body]; simplify_eq/=; [congruence|].
        destruct (Hbody j) as [_ Hj]; [by left|]. congruence.
      * rewrite IH. split.
        -- intros (body & e & post & -> & He & Hbody).
           exists (i :: body), e, post. split; [done|]. split; [done|].
           intros j [->|Hj]%elem_of_cons; [done|by auto].
        -- intros (body & e & post & E & He & Hbody).
           destruct body as [|j body]; simplify_eq/=; [congruence|].
           exists body, e, post. split; [done|]. split; [done|].
           intros k Hk. apply Hbody. by right.
Qed.

Lemma validate_from_ok g rest idx :
  validate_from g rest idx = inr () ↔
  ∀ before start after,
    rest = before ++ start :: after → is_start start = true → box_ok g after.
Proof.
  revert idx. induction rest as [|i rest IH]; intros idx; simpl.
  - split; [|done]. intros _ before start after E. by destruct before.
  - split.
    + intros Hrun before start after E Hstart.
      destruct before as [|j before]; simplify_eq/=.
      * rewrite Hstart in Hrun.
        destruct (scan_verbatim_box g after (S idx)) as [e|[]] eqn:Es; [done|].
        by apply scan_verbatim_box_ok in Es.
      * destruct (if is_start j then _ else _) as [e|[]]; [done|].
        simpl in Hrun. by eapply IH.
    + intros Hall.
      assert (Hscan : (if is_start i then scan_verbatim_box g rest (S idx)
                       else mret ()) = inr ()).
      { destruct (is_start i) eqn:Ei; [|done].
        apply scan_verbatim_box_ok. by apply (Hall [] i rest). }
      rewrite Hscan. simpl. apply IH.
      intros before start after -> Hstart.
      by apply (Hall (i :: before) start after).
Qed.

(** [validate] returns without raising exactly on the circuits in which
    every [StartVerbatimBox] is followed by an [EndVerbatimBox] and every
    instruction between the two passes the check of a boxed instruction.
    Instructions outside the boxes are not looked at: a circuit without a
    [StartVerbatimBox] is accepted on every graph. *)
Theorem validate_accepts_iff (g : DiGraph) (circuit : list Instruction) :
  (validate g circuit = inr () ↔
   ∀ before start after,
     circuit = before ++ start :: after → is_start start = true →
     ∃ body end_box post,
       after = body ++ end_box :: post ∧
       is_end end_box = true ∧
       ∀ i, i ∈ body → is_end i = false ∧ validate_in_box g i = inr ()) ∧
  ((∀ i, i ∈ circuit → is_start i = false) → validate g circuit = inr ()).
Proof.
  split; [apply validate_from_ok|].
  intros Hno. apply validate_from_ok. intros before start after -> Hstart.
  rewrite Hno in Hstart; [done|]. apply elem_of_app. right. by left.
Qed.

End verbatim.

(** * aws_emulator_helpers.py: the criterion of a device *)

Module aws_emulator_helpers.
Import nx nx_facts nx_wf loops aws_emulation connectivity gate_connectivity.
Import gate_connectivity_criterion criterion_init ionq.

(** [_gate_connectivity_criterion]: the graph is derived by the two loops
    that [aws_emulation._gate_connectivity_validator] has as well, and handed
    to [GateConnectivityCriterion] with the default [directed=True]. *)
Definition _gate_connectivity_criterion (properties : DeviceCapabilities)
    (connectivity_graph : loc) : M GateConnectivityCriterion :=
  match schema properties with
  | IqmDeviceCapabilities | RigettiDeviceCapabilities =>
      gate_connectivity_graph ← graph_copy connectivity_graph;
      _ ← in_place gate_connectivity_graph
            (rigetti_iqm_gate_connectivity properties);
      __init__ (a_DiGraph gate_connectivity_graph) true
  | IonqDeviceCapabilities =>
      gate_connectivity_graph ← graph_copy connectivity_graph;
      _ ← in_place gate_connectivity_graph (ionq_gate_connectivity properties);
      __init__ (a_DiGraph gate_connectivity_graph) true
  | _ => throw NotImplementedError
  end.

Definition gate_connectivity_criterion (properties : DeviceCapabilities)
    (connectivity_graph : loc) : M GateConnectivityCriterion :=
  _gate_connectivity_criterion properties connectivity_graph.

(** The method [validate_instruction_connectivity] of a criterion object. *)
Definition check_instruction (self : GateConnectivityCriterion)
    (gate_name : string) (control_qubits target_qubits : list node) : M unit :=
  λ h, match h !! _gate_connectivity_graph self with
       | None => (inl ReferenceError, h)
       | Some g =>
           (validate_instruction_connectivity g gate_name
              control_qubits target_qubits, h)
       end.

(** The answer of a criterion whose graph has the edges [connected] and the
    gates [gates] on them. *)
Definition verdict (connected : Prop) `{!Decision connected}
    (gates : gset string) (u v : node) (gate_name : string) : result unit :=
  if decide connected then
    if decide (gate_name ∈ gates) then inr ()
    else inl (gate_not_supported u v gate_name)
  else inl (not_connected u v).

Lemma edge_dec g u v : Decision (edge g u v).
Proof. unfold edge. apply _. Defined.
#[local] Existing Instance edge_dec.

Lemma validate_instruction_connectivity_verdict g2 (connected : Prop)
    `{!Decision connected} gates gate_name u v :
  (edge g2 u v ↔ connected) →
  (edge g2 u v → supported_gates g2 u v = Some gates) →
  validate_instruction_connectivity g2 gate_name [u] [v]
    = verdict connected gates u v gate_name ∧
  validate_instruction_connectivity g2 gate_name [] [u; v]
    = verdict connected gates u v gate_name.
Proof.
  intros He Hg. unfold validate_instruction_connectivity, verdict. simpl.
  destruct (has_edge g2 u v) eqn:E; simpl.
  - apply has_edge_true in E. rewrite decide_True by (by apply He).
    unfold get_edge_attr.
    change (edge_attr g2 u v "supported_gates") with (supported_gates g2 u v).
    rewrite (Hg E). simpl. by destruct (decide (gate_name ∈ gates)).
  - apply has_edge_false in E. rewrite decide_False; [done|].
    intros ?. apply E. by apply He.
Qed.

Lemma final_gates_symmetric properties g u v :
  forward_gates properties g u v = ∅ ∨ forward_gates properties g v u = ∅ →
  final_gates properties g u v = final_gates properties g v u.
Proof.
  unfold final_gates. intros [E|E]; rewrite ?E.
  - rewrite decide_True by done. case_decide; congruence.
  - rewrite (decide_True (P := ∅ = ∅)) by done. case_decide; congruence.
Qed.

(** The criterion that [gate_connectivity_criterion] builds for a Rigetti or
    IQM device decides a two-qubit gate on [(u, v)] as follows: the pair must
    be an edge of the device graph in one of the two directions, else the
    error is ["u is not connected to v"]; the gate must be in the calibrated
    set of [(u, v)], or in the one of [(v, u)] when the former is empty, else
    the error is that the pair does not support the gate.  When one of the
    two directions has no calibrated gate, the answer for [(u, v)] and the
    one for [(v, u)] are successes together.  The caller's graph is not
    changed, and checking leaves the store as it is. *)
Theorem derived_criterion_verdict (properties : DeviceCapabilities)
    (connectivity_graph : loc) (h : heap) (g : DiGraph) :
  schema properties = IqmDeviceCapabilities
    ∨ schema properties = RigettiDeviceCapabilities →
  h !! connectivity_graph = Some g →
  closed g →
  ∃ criterion h',
    gate_connectivity_criterion properties connectivity_graph h
      = (inr criterion, h') ∧
    h' !! connectivity_graph = Some g ∧
    (∀ gate_name u v,
       let answer :=
         verdict (edge g u v ∨ edge g v u) (final_gates properties g u v)
                 u v gate_name in
       check_instruction criterion gate_name [u] [v] h' = (answer, h') ∧
       check_instruction criterion gate_name [] [u; v] h' = (answer, h')) ∧
    (∀ gate_name u v,
       forward_gates properties g u v = ∅
         ∨ forward_gates properties g v u = ∅ →
       check_instruction criterion gate_name [u] [v] h' = (inr (), h') ↔
       check_instruction criterion gate_name [v] [u] h' = (inr (), h')).
Proof.
  intros Hs Hl Hc.
  destruct (rigetti_iqm_gate_connectivity_spec properties g Hc)
    as (g1 & g2 & _ & Hrun & _ & _ & He & Hg).
  set (l := fresh (dom h)).
  exists (mkGateConnectivityCriterion l), (<[l := g2]> h).
  assert (Hbuild : gate_connectivity_criterion properties connectivity_graph h
                   = (inr (mkGateConnectivityCriterion l), <[l := g2]> h)).
  { unfold gate_connectivity_criterion, _gate_connectivity_criterion.
    destruct Hs as [-> | ->];
      unfold mbind, M_bind, mret, M_ret, graph_copy, in_place, __init__;
      fold l; rewrite Hl, lookup_insert_eq, Hrun; simpl;
      by rewrite insert_insert_eq. }
  assert (Hcheck : ∀ gate_name u v,
            check_instruction (mkGateConnectivityCriterion l) gate_name
              [u] [v] (<[l := g2]> h)
            = (verdict (edge g u v ∨ edge g v u)
                 (final_gates properties g u v) u v gate_name, <[l := g2]> h) ∧
            check_instruction (mkGateConnectivityCriterion l) gate_name
              [] [u; v] (<[l := g2]> h)
            = (verdict (edge g u v ∨ edge g v u)
                 (final_gates properties g u v) u v gate_name, <[l := g2]> h)).
  { intros gate_name u v. unfold check_instruction. simpl.
    rewrite lookup_insert_eq.
    destruct (validate_instruction_connectivity_verdict g2
                (edge g u v ∨ edge g v u) (final_gates properties g u v)
                gate_name u v (He u v) (Hg u v)) as [-> ->].
    done. }
  split; [done|]. split.
  { rewrite lookup_insert_ne; [done|]. intros E. unfold l in E.
    rewrite <- E, fresh_loc_unused in Hl. done. }
  split; [exact Hcheck|].
  intros gate_name u v Hempty.
  destruct (Hcheck gate_name u v) as [-> _].
  destruct (Hcheck gate_name v u) as [-> _].
  rewrite (final_gates_symmetric _ _ _ _ Hempty). unfold verdict.
  destruct (decide (edge g u v ∨ edge g v u)) as [H1|H1];
    destruct (decide (edge g v u ∨ edge g u v)) as [H2|H2]; try tauto.
  - destruct (decide (gate_name ∈ final_gates properties g v u)); [done|].
    split; intros [=].
  - split; intros [=].
Qed.

Lemma derived_criterion_verdict_witness :
  ∃ criterion h',
    gate_connectivity_criterion rigetti_device 1%positive
      {[1%positive := scenario_B_graph]} = (inr criterion, h') ∧
    (check_instruction criterion "CZ" [0%Z] [1%Z] h' = (inr (), h') ↔
     check_instruction criterion "CZ" [1%Z] [0%Z] h' = (inr (), h')).
Proof.
  destruct (derived_criterion_verdict rigetti_device 1%positive
              {[1%positive := scenario_B_graph]} scenario_B_graph)
    as (criterion & h' & Hrun & _ & _ & Hsym).
  - right. reflexivity.
  - reflexivity.
  - apply closedb_closed. reflexivity.
  - exists criterion, h'. split; [exact Hrun|].
    apply Hsym. right. vm_compute. reflexivity.
Defined.

(** The criterion built for an IonQ device accepts a two-qubit gate on
    [(u, v)] exactly when [(u, v)] is an edge of the device graph in that
    direction and the gate is a translated native gate: no reverse edge is
    made up, so on a graph that lists a pair in one direction the other
    direction is answered with ["v is not connected to u"]. *)
Theorem ionq_criterion_verdict (properties : DeviceCapabilities)
    (connectivity_graph : loc) (h : heap) (g : DiGraph) :
  schema properties = IonqDeviceCapabilities →
  h !! connectivity_graph = Some g →
  ∃ criterion h',
    gate_connectivity_criterion properties connectivity_graph h
      = (inr criterion, h') ∧
    h' !! connectivity_graph = Some g ∧
    (∀ gate_name u v,
       let answer :=
         verdict (edge g u v) (ionq_native_gates properties) u v gate_name in
       check_instruction criterion gate_name [u] [v] h' = (answer, h') ∧
       check_instruction criterion gate_name [] [u; v] h' = (answer, h')) ∧
    (∀ gate_name u v, edge g u v → ¬ edge g v u →
       check_instruction criterion gate_name [v] [u] h'
         = (inl (not_connected v u), h')).
Proof.
  intros Hs Hl.
  destruct (annotate_edges_spec (λ _ _, ionq_native_gates properties) g)
    as (g2 & Hrun & _ & _ & He & Hd).
  set (l := fresh (dom h)).
  exists (mkGateConnectivityCriterion l), (<[l := g2]> h).
  assert (Hcheck : ∀ gate_name u v,
            check_instruction (mkGateConnectivityCriterion l) gate_name
              [u] [v] (<[l := g2]> h)
            = (verdict (edge g u v) (ionq_native_gates properties)
                 u v gate_name, <[l := g2]> h) ∧
            check_instruction (mkGateConnectivityCriterion l) gate_name
              [] [u; v] (<[l := g2]> h)
            = (verdict (edge g u v) (ionq_native_gates properties)
                 u v gate_name, <[l := g2]> h)).
  { intros gate_name u v. unfold check_instruction. simpl.
    rewrite lookup_insert_eq.
    destruct (validate_instruction_connectivity_verdict g2
                (edge g u v) (ionq_native_gates properties)
                gate_name u v (He u v)) as [-> ->]; [|done].
    intros [d Hduv]%He. unfold supported_gates, edge_attr.
    rewrite Hd, Hduv. simpl. by rewrite lookup_insert_eq. }
  split.
  { unfold gate_connectivity_criterion, _gate_connectivity_criterion.
    rewrite Hs.
    unfold mbind, M_bind, mret, M_ret, graph_copy, in_place, __init__,
      ionq_gate_connectivity.
    fold l. fold (ionq_native_gates properties).
    rewrite Hl, lookup_insert_eq, Hrun. simpl. by rewrite insert_insert_eq. }
  split.
  { rewrite lookup_insert_ne; [done|]. intros E. unfold l in E.
    rewrite <- E, fresh_loc_unused in Hl. done. }
  split; [exact Hcheck|].
  intros gate_name u v Huv Hvu. destruct (Hcheck gate_name v u) as [-> _].
  unfold verdict. by rewrite decide_False.
Qed.

Lemma ionq_criterion_verdict_witness :
  ∃ criterion h',
    gate_connectivity_criterion ionq_device 1%positive
      {[1%positive := scenario_A_graph]} = (inr criterion, h') ∧
    check_instruction criterion "MS" [0%Z] [1%Z] h' = (inr (), h') ∧
    check_instruction criterion "MS" [1%Z] [0%Z] h'
      = (inl (not_connected 1 0), h').
Proof.
  destruct (ionq_criterion_verdict ionq_device 1%positive
              {[1%positive := scenario_A_graph]} scenario_A_graph)
    as (criterion & h' & Hrun & _ & Hcheck & Hrev).
  - reflexivity.
  - reflexivity.
  - exists criterion, h'. split; [exact Hrun|]. split.
    + destruct (Hcheck "MS" 0%Z 1%Z) as [-> _]. reflexivity.
    + apply Hrev.
      * apply has_edge_true. vm_compute. reflexivity.
      * apply has_edge_false. vm_compute. reflexivity.
Defined.

End aws_emulator_helpers.

(** * base_emulator.py *)

Module base_emulator.
Section emulator.
(** The programs that the passes work on. *)
Variable ProgramType : Type.

(** A pass object, as far as [BaseEmulator] looks at it: whether it is an
    instance of [ValidationPass], and what calling it does. *)
Record BasePass := mkBasePass {
  is_ValidationPass : bool;
  call : ProgramType → result ProgramType
}.

(** The Python lists of passes are objects: the emulator keeps a reference
    to the list it was given. *)
Abbreviation pass_store := (gmap loc (list BasePass)).

Record BaseEmulator := mkBaseEmulator { _emulator_passes : loc }.

(** [BaseEmulator(emulator_passes)]; [None] stands for the missing
    argument, for which a new empty list is made. *)
Definition __init__ (emulator_passes : option loc) (σ : pass_store)
  : BaseEmulator * pass_store :=
  match emulator_passes with
  | Some l => (mkBaseEmulator l, σ)
  | None => let l := fresh (dom σ) in (mkBaseEmulator l, <[l := []]> σ)
  end.

Fixpoint run_list (passes : list BasePass) (task_specification : ProgramType)
  : result ProgramType :=
  match passes with
  | [] => mret task_specification
  | emulator_pass :: passes' =>
      task_specification ← call emulator_pass task_specification;
      run_list passes' task_specification
  end.

Definition run_passes (self : BaseEmulator) (task_specification : ProgramType)
    (σ : pass_store) : result ProgramType :=
  match σ !! _emulator_passes self with
  | None => raise ReferenceError
  | Some passes => run_list passes task_specification
  end.

Definition validate (self : BaseEmulator) (task_specification : ProgramType)
    (σ : pass_store) : result unit :=
  match σ !! _emulator_passes self with
  | None => raise ReferenceError
  | Some passes =>
      for_each (λ emulator_pass,
                  if is_ValidationPass emulator_pass
                  then _ ← call emulator_pass task_specification; mret ()
                  else mret ())
               passes
  end.

(** The passes that [add_pass] appends: those of an iterable, or the one
    pass.  The [TypeError] of the last branch needs an argument that is
    neither; the type of the argument leaves it out. *)
Definition new_passes (emulator_pass : list BasePass + BasePass)
  : list BasePass :=
  match emulator_pass with inl passes => passes | inr p => [p] end.

Definition add_pass (self : BaseEmulator)
    (emulator_pass : list BasePass + BasePass) (σ : pass_store)
  : result BaseEmulator * pass_store :=
  match σ !! _emulator_passes self with
  | None => (raise ReferenceError, σ)
  | Some passes =>
      (mret self,
       <[_emulator_passes self := passes ++ new_passes emulator_pass]> σ)
  end.

Lemma run_list_app ps qs task :
  run_list (ps ++ qs) task = (t ← run_list ps task; run_list qs t).
Proof.
  revert task. induction ps as [|p ps IH]; intros task; simpl; [done|].
  destruct (call p task) as [e|t]; simpl; [done|]. apply IH.
Qed.

(** [BaseEmulator(passes)] keeps the caller's list and [add_pass] extends
    that very list: after [add_pass] the list object holds the old passes
    followed by the new ones, for the caller and for every emulator built
    on it, and no other list is touched.  [run_passes] then gives what it
    gave before, passed on through the new passes in order; when the old
    passes raise, the new ones are not run.  An emulator built without an
    argument gets a list of its own. *)
Theorem add_pass_extends_shared_list (l : loc) (passes : list BasePass)
    (emulator_pass : list BasePass + BasePass) (σ : pass_store) :
  σ !! l = Some passes →
  __init__ (Some l) σ = (mkBaseEmulator l, σ) ∧
  (∃ l0, __init__ None σ = (mkBaseEmulator l0, <[l0 := []]> σ) ∧ l0 ≠ l) ∧
  ∃ σ', add_pass (mkBaseEmulator l) emulator_pass σ
          = (inr (mkBaseEmulator l), σ') ∧
    σ' !! l = Some (passes ++ new_passes emulator_pass) ∧
    (∀ l', l' ≠ l → σ' !! l' = σ !! l') ∧
    ∀ task_specification,
      run_passes (mkBaseEmulator l) task_specification σ' =
      (t ← run_passes (mkBaseEmulator l) task_specification σ;
       run_list (new_passes emulator_pass) t).
Proof.
  intros Hl. split; [done|]. split.
  { exists (fresh (dom σ)). split; [done|]. intros E.
    pose proof (is_fresh (dom σ)) as Hf. rewrite E in Hf.
    apply Hf. apply elem_of_dom. by eauto. }
  exists (<[l := passes ++ new_passes emulator_pass]> σ).
  unfold add_pass, run_passes. cbn [_emulator_passes].
  rewrite Hl, lookup_insert_eq.
  split; [done|]. split; [done|]. split.
  - intros l' Hne. by rewrite lookup_insert_ne.
  - intros task. apply run_list_app.
Qed.

(** [validate] calls the validation passes only, each on the program it was
    given: it returns exactly when each of them accepts that program, and an
    exception it raises is the one of a validation pass called on that
    program, all validation passes before it having accepted.  What the
    other passes would do to the program plays no part. *)
Theorem validate_original_program (l : loc) (passes : list BasePass)
    (task_specification : ProgramType) (σ : pass_store) :
  σ !! l = Some passes →
  (validate (mkBaseEmulator l) task_specification σ = inr () ↔
   ∀ p, p ∈ passes → is_ValidationPass p = true →
        ∃ t, call p task_specification = inr t) ∧
  (∀ e, validate (mkBaseEmulator l) task_specification σ = inl e →
     ∃ before p after,
       passes = before ++ p :: after ∧
       is_ValidationPass p = true ∧ call p task_specification = inl e ∧
       ∀ q, q ∈ before → is_ValidationPass q = true →
            ∃ t, call q task_specification = inr t).
Proof.
  intros Hl. unfold validate. simpl. rewrite Hl. split.
  - rewrite for_each_ok. split.
    + intros H p Hp Hv. specialize (H p Hp). rewrite Hv in H.
      destruct (call p task_specification) as [e|t]; [done|by eauto].
    + intros H p Hp. destruct (is_ValidationPass p) eqn:Hv; [|done].
      by destruct (H p Hp Hv) as [t ->].
  - intros e (before & p & after & -> & Hp & Hb)%for_each_error.
    exists before, p, after. split; [done|].
    destruct (is_ValidationPass p); [|done]. split; [done|].
    destruct (call p task_specification) as [e'|t] eqn:Ec; [|done].
    split; [by simplify_eq/=|].
    intros q Hq Hv. specialize (Hb q Hq). rewrite Hv in Hb.
    destruct (call q task_specification) as [?|t]; [done|by eauto].
Qed.

End emulator.

(** Two passes on numbers: a check and a transformation. *)
Definition at_most_four : BasePass Z :=
  mkBasePass Z true (λ n, if decide (n ≤ 4)%Z then inr n else inl ValidationError).

Definition double : BasePass Z := mkBasePass Z false (λ n, inr (2 * n)%Z).

Lemma add_pass_extends_shared_list_witness :
  ∃ σ', add_pass Z (mkBaseEmulator 1%positive) (inr at_most_four)
          {[1%positive := [double]]} = (inr (mkBaseEmulator 1%positive), σ') ∧
    σ' !! 1%positive = Some [double; at_most_four] ∧
    run_passes Z (mkBaseEmulator 1%positive) 3%Z σ' = inl ValidationError.
Proof.
  destruct (add_pass_extends_shared_list Z 1%positive [double]
              (inr at_most_four) {[1%positive := [double]]})
    as (_ & _ & σ' & Hadd & Hl & _ & Hrun).
  - reflexivity.
  - exists σ'. split; [exact Hadd|]. split; [exact Hl|].
    rewrite Hrun. reflexivity.
Defined.

Lemma validate_original_program_witness :
  validate Z (mkBaseEmulator 1%positive) 3%Z
    {[1%positive := [double; at_most_four]]} = inr ().
Proof.
  apply (validate_original_program Z 1%positive [double; at_most_four] 3%Z
           {[1%positive := [double; at_most_four]]}).
  - reflexivity.
  - intros p [->|[->|[]%elem_of_nil]%elem_of_cons]%elem_of_cons Hv.
    + discriminate Hv.
    + exists 3%Z. reflexivity.
Defined.

End base_emulator.

(** * demo_helpers/compile: virtualize_rz.py and utils.py *)

From Stdlib Require Import Qcanon.
Close Scope Qc_scope.

Module virtualize_rz.

(** The operations of a pytket command, as far as the pass tells them apart.
    Angles are exact rationals in canonical form.  [Other] stands for every
    operation type outside [ALLOWED_GATES], with its printed name. *)
Inductive Op :=
  | CZ
  | Rz (angle : Qc)
  | PhasedX (alpha beta : Qc)
  | Barrier (data : string)
  | Measure
  | Other (type : string).

Record Command := mkCommand { op : Op; args : list Z }.

(** A circuit: its units, its global phase and its commands.  For the input
    of the pass these are the commands in the order of [get_commands()]; for
    the circuit that the pass builds they are the calls of [add_gate] and
    [add_barrier] in their order, with the angles as they are passed.
    pytket lists the commands of the built circuit in an order of its own
    and keeps the angles of a PhasedX up to whole turns, so what is stated
    of the built circuit below is stated up to these. *)
Record Circuit := mkCircuit {
  qubits : list Z;
  bits : list Z;
  phase : Qc;
  commands : list Command
}.

Definition unsupported (type : string) : exn :=
  ValueError [Lit "Unsupported operation ("; Lit type;
              Lit ") encountered while virtualizing Rz gates."].

(** utils.py, [_initialize_circ_copy]. *)
Definition _initialize_circ_copy (circ : Circuit) : Circuit :=
  mkCircuit (qubits circ) (bits circ) (phase circ) [].

Definition add_command (circ : Circuit) (c : Command) : Circuit :=
  mkCircuit (qubits circ) (bits circ) (phase circ) (commands circ ++ [c]).

(** [phase_per_qubit[q]] on a [defaultdict(int)]. *)
Definition phase_of (phase_per_qubit : gmap Z Qc) (q : Z) : Qc :=
  default 0%Qc (phase_per_qubit !! q).

(** The body of the loop, on the pair of [phase_per_qubit] and [new_circ]. *)
Definition virtualize_command (command : Command)
    (state : gmap Z Qc * Circuit) : result (gmap Z Qc * Circuit) :=
  let '(phase_per_qubit, new_circ) := state in
  match op command with
  | Rz angle =>
      match args command with
      | [] => raise IndexError
      | q :: _ =>
          let prev_phase := phase_of phase_per_qubit q in
          let new_phase := (prev_phase + angle)%Qc in
          mret (<[q := new_phase]> phase_per_qubit, new_circ)
      end
  | PhasedX alpha beta =>
      match args command with
      | [] => raise IndexError
      | q :: _ =>
          let beta := (beta + phase_of phase_per_qubit q)%Qc in
          mret (phase_per_qubit,
                add_command new_circ
                  (mkCommand (PhasedX alpha beta) (args command)))
      end
  | Barrier data =>
      mret (phase_per_qubit,
            add_command new_circ (mkCommand (Barrier data) (args command)))
  | CZ | Measure => mret (phase_per_qubit, add_command new_circ command)
  | Other type => raise (unsupported type)
  end.

(** [for x in xs: state = body(x, state)]. *)
Fixpoint for_loop {S A : Type} (body : A → S → result S) (xs : list A) (s : S)
  : result S :=
  match xs with
  | [] => mret s
  | x :: xs' => s' ← body x s; for_loop body xs' s'
  end.

Definition _virtualize_rz (circ : Circuit) : result Circuit :=
  state ← for_loop virtualize_command (commands circ)
             (∅, _initialize_circ_copy circ);
  mret state.2.

(** ** What the loop computes *)

Definition is_Rz (c : Command) : bool :=
  match op c with Rz _ => true | _ => false end.

(** A command that the loop gets through without raising. *)
Definition handled (c : Command) : Prop :=
  match op c with
  | Other _ => False
  | Rz _ | PhasedX _ _ => args c ≠ []
  | _ => True
  end.

(** The phase that the [Rz] gates of [cs] add on qubit [q]. *)
Fixpoint rz_phase (q : Z) (cs : list Command) : Qc :=
  match cs with
  | [] => 0%Qc
  | c :: cs' =>
      match op c, args c with
      | Rz angle, q' :: _ =>
          if decide (q' = q) then (angle + rz_phase q cs')%Qc
          else rz_phase q cs'
      | _, _ => rz_phase q cs'
      end
  end.

(** The command that is added for the command [c] when the phase [φ] has
    been collected on its first qubit. *)
Definition shifted (φ : Z → Qc) (c : Command) : Command :=
  match op c, args c with
  | PhasedX alpha beta, q :: _ =>
      mkCommand (PhasedX alpha (beta + φ q)%Qc) (args c)
  | _, _ => c
  end.

(** The commands added for [cs] when the phases [φ] have been collected. *)
Fixpoint added (φ : Z → Qc) (cs : list Command) : list Command :=
  match cs with
  | [] => []
  | c :: cs' =>
      if is_Rz c then added (λ q, (φ q + rz_phase q [c])%Qc) cs'
      else shifted φ c :: added φ cs'
  end.

Lemma shifted_ext φ ψ c : (∀ q, φ q = ψ q) → shifted φ c = shifted ψ c.
Proof.
  intros H. unfold shifted. destruct (op c), (args c); try done.
  by rewrite H.
Qed.

Lemma added_ext φ ψ cs : (∀ q, φ q = ψ q) → added φ cs = added ψ cs.
Proof.
  revert φ ψ. induction cs as [|c cs IH]; intros φ ψ H; simpl; [done|].
  destruct (is_Rz c).
  - apply IH. intros q. by rewrite H.
  - f_equal; [by apply shifted_ext | by apply IH].
Qed.


Lemma shifted_zero φ c : (∀ q, φ q = 0%Qc) → shifted φ c = c.
Proof.
  intros H. destruct c as [o a]. unfold shifted. simpl.
  destruct o, a; try done. rewrite H. f_equal. f_equal. ring.
Qed.

Lemma for_loop_app {S A} (body : A → S → result S) xs ys s :
  for_loop body (xs ++ ys) s = (s' ← for_loop body xs s; for_loop body ys s').
Proof.
  revert s. induction xs as [|x xs IH]; intros s; simpl; [done|].
  destruct (body x s) as [e|s']; simpl; [done|]. apply IH.
Qed.

(** One run of the body on a command that it handles. *)
Lemma virtualize_command_handled c ph nc :
  handled c →
  ∃ ph', virtualize_command c (ph, nc)
         = inr (ph', if is_Rz c then nc
                     else add_command nc (shifted (phase_of ph) c)) ∧
    ∀ q, phase_of ph' q
         = if is_Rz c then (phase_of ph q + rz_phase q [c])%Qc
           else phase_of ph q.
Proof.
  destruct c as [o a]. unfold handled, virtualize_command, is_Rz, shifted.
  simpl. destruct o; simpl; try (intros _; by eexists).
  - destruct a as [|q0 a]; [done|]. intros _. eexists. split; [done|].
    intros q. unfold phase_of. destruct (decide (q0 = q)) as [->|Hne].
    + rewrite lookup_insert_eq. simpl. ring.
    + rewrite lookup_insert_ne by done. ring.
  - destruct a as [|q0 a]; [done|]. intros _. by eexists.
  - done.
Qed.

Lemma virtualize_command_ok c s s' :
  virtualize_command c s = inr s' → handled c.
Proof.
  destruct s as [ph nc], c as [o a]. unfold virtualize_command, handled. simpl.
  destruct o, a; done.
Qed.

Lemma for_loop_handled cs ph nc :
  (∀ c, c ∈ cs → handled c) →
  ∃ ph', for_loop virtualize_command cs (ph, nc)
         = inr (ph', mkCircuit (qubits nc) (bits nc) (phase nc)
                       (commands nc ++ added (phase_of ph) cs)).
Proof.
  revert ph nc. induction cs as [|c cs IH]; intros ph nc Hall;
    cbn [for_loop added].
  - exists ph. rewrite app_nil_r. by destruct nc.
  - destruct (virtualize_command_handled c ph nc) as (ph1 & -> & Hph);
      [apply Hall; by left|]. cbn [mbind result_bind].
    destruct (IH ph1 (if is_Rz c then nc
                      else add_command nc (shifted (phase_of ph) c)))
      as (ph' & -> ); [intros x Hx; apply Hall; by right|].
    exists ph'. do 2 f_equal. destruct (is_Rz c).
    + f_equal. f_equal. apply added_ext. intros q. by rewrite Hph.
    + simpl. rewrite <- app_assoc. simpl. do 3 f_equal.
      apply added_ext. intros q. by rewrite Hph.
Qed.

Lemma for_loop_ok cs s s' :
  for_loop virtualize_command cs s = inr s' → ∀ c, c ∈ cs → handled c.
Proof.
  revert s. induction cs as [|c cs IH]; intros s; simpl.
  - by intros _ c ?%elem_of_nil.
  - destruct (virtualize_command c s) as [e|s1] eqn:E; simpl; [done|].
    intros Hrun x [->|Hx]%elem_of_cons.
    + by eapply virtualize_command_ok.
    + by eapply IH.
Qed.




Lemma added_identity φ cs :
  (∀ q, φ q = 0%Qc) → (∀ c, c ∈ cs → is_Rz c = false) → added φ cs = cs.
Proof.
  intros Hφ. induction cs as [|c cs IH]; intros Hno; simpl; [done|].
  rewrite (Hno c) by (by left). f_equal; [by apply shifted_zero|].
  apply IH. intros x Hx. apply Hno. by right.
Qed.

Lemma _virtualize_rz_handled circ :
  (∀ c, c ∈ commands circ → handled c) →
  _virtualize_rz circ
  = inr (mkCircuit (qubits circ) (bits circ) (phase circ)
           (added (λ _, 0%Qc) (commands circ))).
Proof.
  intros Hall. unfold _virtualize_rz.
  destruct (for_loop_handled (commands circ) ∅ (_initialize_circ_copy circ) Hall)
    as (ph' & ->).
  simpl. f_equal.
Qed.

(** [_virtualize_rz] returns a circuit exactly when every command of the
    input is a CZ, Rz, PhasedX, Barrier or Measure (an Rz and a PhasedX on
    at least one qubit); the first command of another type stops the pass
    with the [ValueError] that names this type. *)
Theorem virtualize_rz_accepts_iff (circ : Circuit) :
  ((∃ new_circ, _virtualize_rz circ = inr new_circ) ↔
   ∀ c, c ∈ commands circ → handled c) ∧
  (∀ pre c post type,
     commands circ = pre ++ c :: post →
     (∀ x, x ∈ pre → handled x) → op c = Other type →
     _virtualize_rz circ = inl (unsupported type)).
Proof.
  split; [split|].
  - intros [new_circ Hrun]. unfold _virtualize_rz in Hrun.
    destruct (for_loop virtualize_command (commands circ)
                (∅, _initialize_circ_copy circ)) as [e|s'] eqn:E; [done|].
    by eapply for_loop_ok.
  - intros Hall. rewrite _virtualize_rz_handled by done. by eauto.
  - intros pre c post type Hc Hpre Hop. unfold _virtualize_rz.
    rewrite Hc, for_loop_app.
    destruct (for_loop_handled pre ∅ (_initialize_circ_copy circ) Hpre)
      as (ph' & ->).
    simpl. unfold virtualize_command. by rewrite Hop.
Qed.






(** A circuit without Rz, made of CZ, PhasedX, Barrier and Measure commands,
    comes back as it is. *)
Theorem virtualize_rz_identity (circ : Circuit) :
  (∀ c, c ∈ commands circ → handled c ∧ is_Rz c = false) →
  _virtualize_rz circ = inr circ.
Proof.
  intros Hall. rewrite _virtualize_rz_handled by (intros c Hc; by apply Hall).
  rewrite added_identity; [by destruct circ|done|].
  intros c Hc. by apply Hall.
Qed.

Definition half : Qc := Q2Qc (1 # 2).



Lemma virtualize_rz_identity_witness :
  _virtualize_rz (mkCircuit [0; 1]%Z [] 0%Qc
                    [mkCommand (PhasedX 1%Qc half) [0%Z];
                     mkCommand CZ [0; 1]%Z])
  = inr (mkCircuit [0; 1]%Z [] 0%Qc
           [mkCommand (PhasedX 1%Qc half) [0%Z]; mkCommand CZ [0; 1]%Z]).
Proof.
  apply virtualize_rz_identity. simpl.
  intros c [->|[->|[]%elem_of_nil]%elem_of_cons]%elem_of_cons;
    (split; [|reflexivity]); unfold handled; simpl; done.
Defined.

End virtualize_rz.

(** * device_atom_arrangement.py: rows *)

From Stdlib Require Import Lqa Qpower.

Module rows.
Import device_atom_arrangement.
Local Open Scope Q_scope.

(** Two heights are the same or at least [m] apart. *)
Definition row_ok (m a b : Q) : Prop :=
  Qabs (a - b) == 0 ∨ m <= Qabs (a - b).

Lemma distance_sorted (a b : Q) : a <= b → Qabs (a - b) == b - a.
Proof. intros H. rewrite Qabs_Qminus. apply Qabs_pos. lra. Qed.

Lemma row_ok_sym m a b : row_ok m a b → row_ok m b a.
Proof. unfold row_ok. by rewrite (Qabs_Qminus b a). Qed.

Lemma row_ok_refl m a : row_ok m a a.
Proof. left. assert (E : a - a == 0) by ring. by rewrite E. Qed.

(** Three heights in order: the outer two are in order when the two
    neighbouring pairs are. *)
Lemma row_ok_chain m a b c :
  a <= b → b <= c → row_ok m a b → row_ok m b c → row_ok m a c.
Proof.
  intros Hab Hbc Hok1 Hok2.
  assert (Hac : a <= c) by lra.
  unfold row_ok in *.
  rewrite (distance_sorted a b Hab) in Hok1.
  rewrite (distance_sorted b c Hbc) in Hok2.
  rewrite (distance_sorted a c Hac).
  destruct Hok2 as [E|Hm].
  - destruct Hok1 as [E1|Hm1]; [left; lra|right; lra].
  - right. lra.
Qed.

Local Instance Qle_transitive : Transitive Qle := Qle_trans.

Lemma rows_global m (l : list Q) :
  Sorted Qle l →
  (∀ a b, (a, b) ∈ zip (removelast l) (tail l) → row_ok m a b) →
  ∀ a b, a ∈ l → b ∈ l → row_ok m a b.
Proof.
  intros Hs%(Sorted_StronglySorted _).
  induction Hs as [|x l Hl IH Hx]; intros Hnb a b.
  - by intros ?%elem_of_nil.
  - assert (IH' : ∀ a b, a ∈ l → b ∈ l → row_ok m a b).
    { apply IH. intros a' b' Hin. apply Hnb. destruct l as [|y t].
      - simpl in Hin. by apply elem_of_nil in Hin.
      - change (zip (removelast (x :: y :: t)) (tail (x :: y :: t)))
          with ((x, y) :: zip (removelast (y :: t)) (tail (y :: t))).
        by right. }
    assert (Hhead : ∀ b, b ∈ l → row_ok m x b).
    { intros c Hc. destruct l as [|y t]; [by apply elem_of_nil in Hc|].
      assert (Hxy : row_ok m x y).
      { apply Hnb.
        change (zip (removelast (x :: y :: t)) (tail (x :: y :: t)))
          with ((x, y) :: zip (removelast (y :: t)) (tail (y :: t))).
        by left. }
      apply elem_of_cons in Hc as [->|Hc]; [done|].
      apply StronglySorted_inv in Hl as [_ Hy].
      apply (row_ok_chain m x y c).
      - rewrite Forall_forall in Hx. apply Hx. by left.
      - rewrite Forall_forall in Hy. by apply Hy.
      - done.
      - apply IH'; [by left|by right]. }
    intros [->|Ha]%elem_of_cons [->|Hb]%elem_of_cons.
    + apply row_ok_refl.
    + by apply Hhead.
    + apply row_ok_sym. by apply Hhead.
    + by apply IH'.
Qed.

(** The height of a site with a [Decimal] or [int] coordinate. *)
Definition height (s : site) : Q :=
  match s.2 with
  | PyDecimal c e => decimal_value c e
  | PyInt n => inject_Z n
  | PyFloat _ => 0
  end.

(** Two [Decimal] heights whose difference the context does not round: at
    the smaller of the two exponents it has at most 28 digits. *)
Definition exact_difference (s1 s2 : site) : Prop :=
  ∃ c1 e1 c2 e2,
    s1.2 = PyDecimal c1 e1 ∧ s2.2 = PyDecimal c2 e2 ∧
    (Z.abs (c1 * 10 ^ (e1 - Z.min e1 e2) - c2 * 10 ^ (e2 - Z.min e1 e2))
     < 10 ^ 28)%Z ∧
    (-1000026 ≤ Z.min e1 e2 ≤ 999972)%Z.

Lemma ten_power_pos e : 0 < 10 ^ e.
Proof. apply Qpower_0_lt. reflexivity. Qed.

Lemma inject_Z_power k : (0 ≤ k)%Z → inject_Z (10 ^ k) == 10 ^ k.
Proof. intros Hk. by rewrite Zpower_Qpower. Qed.

Lemma aligned_value c e' e :
  (e ≤ e')%Z → inject_Z (c * 10 ^ (e' - e)) * 10 ^ e == decimal_value c e'.
Proof.
  intros He. unfold decimal_value.
  rewrite inject_Z_mult, inject_Z_power by lia.
  rewrite <- Qmult_assoc, <- Qpower_plus by done.
  by replace (e' - e + e)%Z with e' by lia.
Qed.

Lemma aligned_difference c1 e1 c2 e2 :
  let e := Z.min e1 e2 in
  decimal_value (Z.abs (c1 * 10 ^ (e1 - e) - c2 * 10 ^ (e2 - e))) e
  == Qabs (decimal_value c1 e1 - decimal_value c2 e2).
Proof.
  intros e.
  rewrite <- (aligned_value c1 e1 e), <- (aligned_value c2 e2 e) by lia.
  unfold decimal_value.
  set (a := (c1 * 10 ^ (e1 - e))%Z). set (b := (c2 * 10 ^ (e2 - e))%Z).
  assert (E : inject_Z a * 10 ^ e - inject_Z b * 10 ^ e
              == inject_Z (a - b) * 10 ^ e).
  { unfold Zminus. rewrite inject_Z_plus, inject_Z_opp. ring. }
  rewrite E, Qabs_Qmult, (Qabs_pos (10 ^ e))
    by apply Qlt_le_weak, ten_power_pos.
  done.
Qed.

Lemma check_exact m s1 s2 :
  exact_difference s1 s2 →
  check_pair m (s1, s2) = inr () ↔ row_ok m (height s1) (height s2).
Proof.
  intros (c1 & e1 & c2 & e2 & H1 & H2 & Hc & He).
  rewrite check_pair_ok. destruct s1 as [x1 y1], s2 as [x2 y2].
  simpl in H1, H2. subst y1 y2.
  rewrite (_y_distance_decimal x1 x2 c1 e1 c2 e2 Hc He).
  unfold row_ok, height. simpl.
  rewrite <- (aligned_difference c1 e1 c2 e2).
  set (c := Z.abs _). set (e := Z.min e1 e2).
  assert (Hzero : (c =? 0)%Z = true ↔ decimal_value c e == 0).
  { unfold decimal_value. rewrite Z.eqb_eq. split.
    - intros ->. ring.
    - intros E. pose proof (ten_power_pos e) as Hp.
      destruct (decide (c = 0%Z)) as [|Hne]; [done|]. exfalso.
      apply Qmult_integral in E as [E|E]; [|lra].
      apply Hne. unfold Qeq in E. simpl in E. lia. }
  split.
  - intros (d & [= <-] & [H0|Hl]).
    + left. by apply Hzero.
    + right. simpl in Hl. injection Hl as Hl. unfold Qltb in Hl.
      apply negb_false_iff, Qle_bool_iff in Hl. done.
  - intros [H0|Hm]; eexists; (split; [done|]).
    + left. by apply Hzero.
    + right. simpl. do 2 f_equal. unfold Qltb. apply negb_false_iff.
      by apply Qle_bool_iff.
Qed.

Lemma y_le_height s1 s2 :
  exact_difference s1 s2 → y_le s1 s2 → height s1 <= height s2.
Proof.
  intros (c1 & e1 & c2 & e2 & H1 & H2 & _) Hle.
  unfold y_le, key_lt, height in *. rewrite H1, H2 in *. simpl in Hle.
  unfold Qltb in Hle. apply negb_false_iff, Qle_bool_iff in Hle. done.
Qed.

Lemma sorted_heights (l : list site) :
  (∀ s1 s2, s1 ∈ l → s2 ∈ l → exact_difference s1 s2) →
  Sorted y_le l → Sorted Qle (height <$> l).
Proof.
  intros Hex Hs. induction Hs as [|s l Hl IH Hhd]; simpl; [constructor|].
  constructor.
  - apply IH. intros s1 s2 ? ?. apply Hex; by right.
  - destruct Hhd as [|s' l Hs']; simpl; constructor.
    apply y_le_height; [|done]. apply Hex; [by left|]. right. by left.
Qed.

Lemma neighbours_fmap {A B} (f : A → B) (l : list A) a b :
  (a, b) ∈ zip (removelast (f <$> l)) (tail (f <$> l)) →
  ∃ x y, (x, y) ∈ zip (removelast l) (tail l) ∧ a = f x ∧ b = f y.
Proof.
  rewrite elem_of_neighbours. intros (i & Ha & Hb).
  rewrite list_lookup_fmap in Ha, Hb.
  destruct (l !! i) as [x|] eqn:Ex; [|done].
  destruct (l !! S i) as [y|] eqn:Ey; [|done].
  simpl in Ha, Hb. exists x, y. split; [|split; congruence].
  apply elem_of_neighbours. by exists i.
Qed.

(** For sites with [Decimal] heights whose differences the context does not
    round: the row check compares only the neighbours of the sorted list,
    and this decides all pairs.  It passes exactly when any two sites of the
    arrangement have the same height or heights that are at least the
    minimum row separation apart. *)
Theorem sites_in_rows_all_pairs (data : AtomArrangementData) :
  (∀ s1 s2, s1 ∈ sites data → s2 ∈ sites data →
     ∃ c1 e1 c2 e2,
       s1.2 = PyDecimal c1 e1 ∧ s2.2 = PyDecimal c2 e2 ∧
       (Z.abs (c1 * 10 ^ (e1 - Z.min e1 e2) - c2 * 10 ^ (e2 - Z.min e1 e2))
        < 10 ^ 28)%Z ∧
       (-1000026 ≤ Z.min e1 e2 ≤ 999972)%Z) →
  sites_in_rows data = inr data ↔
  ∀ s1 s2 c1 e1 c2 e2,
    s1 ∈ sites data → s2 ∈ sites data →
    s1.2 = PyDecimal c1 e1 → s2.2 = PyDecimal c2 e2 →
    let y1 := inject_Z c1 * 10 ^ e1 in
    let y2 := inject_Z c2 * 10 ^ e2 in
    Qabs (y1 - y2) == 0 ∨
    (if LOCAL_RYDBERG_CAPABILITIES (capabilities data) then 2 # 1000000
     else MIN_ROW_DISTANCE (capabilities data)) <= Qabs (y1 - y2).
Proof.
  intros Hex.
  change (if LOCAL_RYDBERG_CAPABILITIES (capabilities data) then 2 # 1000000
          else MIN_ROW_DISTANCE (capabilities data))
    with (min_row_distance (capabilities data)).
  set (m := min_row_distance (capabilities data)).
  set (sorted_sites := sorted_by_y (sites data)).
  assert (Hin : ∀ s, s ∈ sorted_sites ↔ s ∈ sites data).
  { intros s. unfold sorted_sites. by rewrite sorted_by_y_perm. }
  assert (Hex' : ∀ s1 s2, s1 ∈ sorted_sites → s2 ∈ sorted_sites →
                          exact_difference s1 s2).
  { intros s1 s2 H1%Hin H2%Hin. by apply Hex. }
  assert (Hnbin : ∀ a b, (a, b) ∈ zip (removelast sorted_sites) (tail sorted_sites)
                         → a ∈ sorted_sites ∧ b ∈ sorted_sites).
  { intros a b (i & Ha & Hb)%elem_of_neighbours.
    split; by eapply list_elem_of_lookup_2. }
  assert (Hrun : sites_in_rows data = inr data ↔
            ∀ a b, (a, b) ∈ zip (removelast sorted_sites) (tail sorted_sites) →
                   row_ok m (height a) (height b)).
  { unfold sites_in_rows. fold sorted_sites. fold m.
    destruct (for_pairs (check_pair m)
                (zip (removelast sorted_sites) (tail sorted_sites)))
      as [e|[]] eqn:Ef; simpl.
    - split; [done|]. intros Hall. exfalso.
      apply for_pairs_error in Ef as (before & [s1 s2] & after & Hz & He & _).
      assert (Hp : (s1, s2) ∈ zip (removelast sorted_sites) (tail sorted_sites)).
      { rewrite Hz. apply elem_of_app. right. by left. }
      destruct (Hnbin _ _ Hp) as [H1 H2].
      rewrite (proj2 (check_exact m s1 s2 (Hex' _ _ H1 H2))) in He; [done|].
      by apply Hall.
    - split; [|done]. intros _ a b Hp. destruct (Hnbin _ _ Hp) as [H1 H2].
      apply (check_exact m a b (Hex' _ _ H1 H2)).
      by apply (proj1 (for_pairs_ok _ _) Ef). }
  rewrite Hrun. split.
  - intros Hnb s1 s2 c1 e1 c2 e2 H1 H2 E1 E2.
    assert (Hok : row_ok m (height s1) (height s2)).
    { apply (rows_global m (height <$> sorted_sites)).
      - apply sorted_heights; [done|apply sorted_by_y_sorted].
      - intros a b (x & y & Hp & -> & ->)%neighbours_fmap. by apply Hnb.
      - apply list_elem_of_fmap. exists s1. split; [done|]. by apply Hin.
      - apply list_elem_of_fmap. exists s2. split; [done|]. by apply Hin. }
    unfold height in Hok. by rewrite E1, E2 in Hok.
  - intros Hall a b Hp. destruct (Hnbin _ _ Hp) as [H1%Hin H2%Hin].
    destruct (Hex a b H1 H2) as (c1 & e1 & c2 & e2 & E1 & E2 & _).
    unfold height. rewrite E1, E2.
    by apply (Hall a b c1 e1 c2 e2).
Qed.

Lemma sites_in_rows_all_pairs_witness :
  let data := mkAtomArrangementData decimal_sites [1; 0; 1; 0]%Z
                non_local_capabilities_constants in
  sites_in_rows data = inr data ↔
  ∀ s1 s2 c1 e1 c2 e2,
    s1 ∈ decimal_sites → s2 ∈ decimal_sites →
    s1.2 = PyDecimal c1 e1 → s2.2 = PyDecimal c2 e2 →
    let y1 := inject_Z c1 * 10 ^ e1 in
    let y2 := inject_Z c2 * 10 ^ e2 in
    Qabs (y1 - y2) == 0 ∨ 4 # 1000000 <= Qabs (y1 - y2).
Proof.
  apply (sites_in_rows_all_pairs
           (mkAtomArrangementData decimal_sites [1; 0; 1; 0]%Z
              non_local_capabilities_constants)).
  intros s1 s2 H1 H2. simpl in H1, H2.
  repeat (apply elem_of_cons in H1 as [->|H1]);
    try (by apply elem_of_nil in H1);
    repeat (apply elem_of_cons in H2 as [->|H2]);
    try (by apply elem_of_nil in H2);
    simpl; do 4 eexists; (split; [reflexivity|]); (split; [reflexivity|]);
    split; vm_compute; intuition congruence.
Defined.

End rows.

(** * device_local_detuning.py and device_hamiltonian.py *)

Module device_local_detuning.
Import device_driving_field.

(** What a root validator can raise here: an exception of [exn], or the
    [TypeError] of a comparison between a number and [None]. *)
Inductive raised :=
  | Exn (e : exn)
  | TypeError (msg : string).

(** The [values] dictionary handed to the root validators: the pattern and
    the time series of the magnitude, and the constants. *)
Record LocalDetuningData := mkLocalDetuningData {
  magnitude_pattern : list Q;
  magnitude_time_series : TimeSeries;
  capabilities : DeviceCapabilitiesConstants
}.

Definition no_local_capabilities : exn :=
  ValueError [Lit "Local Rydberg capabilities information has not been provided for local detuning."].

Definition check_local_rydberg_capabilities (data : LocalDetuningData)
  : result LocalDetuningData :=
  if negb (LOCAL_RYDBERG_CAPABILITIES (capabilities data))
  then raise no_local_capabilities
  else mret data.

(** [sum([p != 0.0 for p in pattern])] *)
Definition num_nonzeros (pattern : list Q) : Z :=
  foldr Z.add 0%Z ((λ p, if nonzero p then 1%Z else 0%Z) <$> pattern).

Definition too_many_nonzeros (n : Z) (limit : Q) : exn :=
  ValueError [Lit "Number of nonzero magnitude pattern values is "; Int n;
              Lit "; it must not be more than "; Dec limit].

Definition magnitude_pattern_have_not_too_many_nonzeros
    (data : LocalDetuningData) : raised + LocalDetuningData :=
  let n := num_nonzeros (magnitude_pattern data) in
  match LOCAL_MAX_NONZERO_PATTERN_VALUES (capabilities data) with
  | None =>
      inl (TypeError
             "'>' not supported between instances of 'int' and 'NoneType'")
  | Some limit =>
      if Qltb limit (inject_Z n) then inl (Exn (too_many_nonzeros n limit))
      else inr data
  end.

End device_local_detuning.

Module device_hamiltonian.

(** The [values] dictionary of the Hamiltonian validator, as far as
    [max_zero_local_detuning] reads it: both keys may be missing. *)
Record HamiltonianData {Field : Type} := mkHamiltonianData {
  LOCAL_RYDBERG_CAPABILITIES_entry : option bool;
  localDetuning : option (list Field)
}.
Arguments HamiltonianData : clear implicits.

Definition local_detuning_not_supported (n : nat) : exn :=
  ValueError [Lit "Local detuning cannot be specified; "; Int (Z.of_nat n);
              Lit " are given. Specifying local detuning is an experimental capability, use Braket Direct to request access."].

Definition max_zero_local_detuning {Field} (data : HamiltonianData Field)
  : result (HamiltonianData Field) :=
  match LOCAL_RYDBERG_CAPABILITIES_entry data with
  | None => raise KeyError
  | Some flag =>
      let local_detuning := default [] (localDetuning data) in
      if negb flag && negb (Nat.eqb (length local_detuning) 0)
      then raise (local_detuning_not_supported (length local_detuning))
      else mret data
  end.

End device_hamiltonian.

(** * The local Rydberg block of a device, from the builder to the checks *)

Module local_block.
Import quera device_atom_arrangement device_local_detuning device_hamiltonian.

(** For every Quera capabilities record the constants builder returns, and
    the checks that read the local constants behave as follows on what it
    returns.  Without the [rydbergLocal] block: the capability check raises
    its [ValueError] on every local detuning; the check of the pattern is not
    able to compare and raises a [TypeError]; the Hamiltonian check, given
    the flag of the constants, raises exactly when some local detuning is
    given; the minimum row separation is the [spacingVerticalMin] of the
    lattice.  With the block: the capability check and the Hamiltonian check
    pass; the pattern check raises exactly when the pattern has more than
    [numberLocalDetuningSitesMax] nonzero values; the minimum row separation
    is [0.000002], whatever the lattice says. *)
Theorem local_block_checks (properties : QueraDeviceCapabilities) :
  ∃ c, _get_ahs_device_capabilities properties = inr c ∧
  let lattice := Paradigm.lattice (paradigm properties) in
  match Rydberg.rydbergLocal (Paradigm.rydberg (paradigm properties)) with
  | None =>
      (∀ pattern series,
         check_local_rydberg_capabilities
           (mkLocalDetuningData pattern series c)
         = inl no_local_capabilities) ∧
      (∀ pattern series, ∃ msg,
         magnitude_pattern_have_not_too_many_nonzeros
           (mkLocalDetuningData pattern series c)
         = inl (TypeError msg)) ∧
      (∀ (Field : Type) (local_detuning : list Field),
         let data := mkHamiltonianData Field
                       (Some (LOCAL_RYDBERG_CAPABILITIES c))
                       (Some local_detuning) in
         max_zero_local_detuning data =
         if decide (local_detuning = []) then inr data
         else inl (local_detuning_not_supported (length local_detuning))) ∧
      min_row_distance c = Geometry.spacingVerticalMin (Lattice.geometry lattice)
  | Some rydberg_local =>
      let limit := RydbergLocal.numberLocalDetuningSitesMax rydberg_local in
      (∀ pattern series,
         check_local_rydberg_capabilities
           (mkLocalDetuningData pattern series c)
         = inr (mkLocalDetuningData pattern series c)) ∧
      (∀ pattern series,
         let data := mkLocalDetuningData pattern series c in
         magnitude_pattern_have_not_too_many_nonzeros data =
         if Qltb limit (inject_Z (num_nonzeros pattern))
         then inl (Exn (too_many_nonzeros (num_nonzeros pattern) limit))
         else inr data) ∧
      (∀ (Field : Type) (local_detuning : list Field),
         let data := mkHamiltonianData Field
                       (Some (LOCAL_RYDBERG_CAPABILITIES c))
                       (Some local_detuning) in
         max_zero_local_detuning data = inr data) ∧
      min_row_distance c = (2 # 1000000)%Q
  end.
Proof.
  destruct properties as [[qc [ar [g1 g2 g3 g4]] [rg [rl|]]]]; simpl.
  - eexists. split; [vm_compute; reflexivity|].
    split; [done|]. split; [done|]. split; [done|]. done.
  - eexists. split; [vm_compute; reflexivity|].
    split; [done|]. split; [by eauto|]. split; [|done].
    intros Field local_detuning. unfold max_zero_local_detuning. simpl.
    by destruct local_detuning.
Qed.

End local_block.

(** * pytket_program_context.py *)

Module pytket_program_context.

(** What a method of the context can raise: an exception of [exn], or the
    [TypeError] with which pytket refuses the index of a unit id. *)
Inductive raised :=
  | Exn (e : exn)
  | TypeError.

(** A program context: the qubits of the pytket circuit being built (a
    circuit lists its qubits in their own order, not in the order of their
    addition, so they are kept as a set), the commands that the calls have
    added to it, in the order of the calls, the measurement map of the
    translation, and the set [_qubits_set].  The commands are kept abstract:
    [Gate] is what [add_gate] or a composed gate appends. *)
Record PytketProgramContext {Gate : Type} := mkContext {
  circuit_qubits : gset Z;
  circuit_gates : list Gate;
  measurements : gmap Z Z;
  _qubits_set : gset Z
}.
Arguments PytketProgramContext : clear implicits.
Arguments mkContext {Gate}.

(** A method: it returns or raises, and the state it has reached stays. *)
Definition method (Gate A : Type) : Type :=
  PytketProgramContext Gate → (raised + A) * PytketProgramContext Gate.

(** [for x in xs: body(x)] on the state of the context. *)
Fixpoint for_in {Gate A : Type} (body : A → method Gate unit) (xs : list A)
  : method Gate unit :=
  λ s, match xs with
       | [] => (inr (), s)
       | x :: xs' =>
           match body x s with
           | (inl e, s') => (inl e, s')
           | (inr _, s') => for_in body xs' s'
           end
       end.

Section context.
Variable Gate : Type.
(** The keys of the table [QASM_TO_PYTKET], the keys of [COMPOSED_GATES],
    what a gate of a table appends to the circuit unless it raises, and the
    user-defined gates of the inherited context. *)
Variable QASM_TO_PYTKET : gset string.
Variable COMPOSED_GATES : gset string.
Variable translate : string → list Q → list Z → raised + list Gate.
Variable is_user_defined_gate : string → bool.
(** The indices with which pytket builds a unit id, [Qubit(index=...)] or
    [Bit(...)]: the index is an unsigned machine integer there, so a
    negative one is refused, with a [TypeError]. *)
Variable accepts_index : Z → bool.
Hypothesis accepts_index_nonneg : ∀ q, accepts_index q = true → (0 ≤ q)%Z.

Abbreviation state := (PytketProgramContext Gate).

(** [PytketProgramContext(circuit)]: the argument is not used. *)
Definition __init__ (circuit : option (gset Z * list Gate)) : state :=
  mkContext ∅ [] ∅ ∅.

(** pytket's [Circuit.add_qubit]: a qubit that the circuit has already is
    refused. *)
Definition add_qubit (q : Z) : method Gate unit :=
  λ s, if bool_decide (q ∈ circuit_qubits s)
       then (inl (Exn (RuntimeError "A unit with this ID already exists")), s)
       else (inr (),
             mkContext ({[q]} ∪ circuit_qubits s) (circuit_gates s)
               (measurements s) (_qubits_set s)).

(** The body of the loop of [_check_and_update_qubits]: [Qubit(index=qubit)]
    comes first, so a refused index leaves the context as it was. *)
Definition register_qubit (qubit : Z) : method Gate unit :=
  λ s, if bool_decide (qubit ∈ _qubits_set s) then (inr (), s)
       else if accepts_index qubit then
         add_qubit qubit
           (mkContext (circuit_qubits s) (circuit_gates s)
              (measurements s) ({[qubit]} ∪ _qubits_set s))
       else (inl TypeError, s).

Definition _check_and_update_qubits (target : list Z) : method Gate unit :=
  for_in register_qubit target.

(** The truth value of
    [(name in QASM_TO_PYTKET or COMPOSED_GATES) and not user_defined_gate]:
    the first operand of [or] is the membership test, the second one the
    table itself, which is true when it is not empty. *)
Definition is_builtin_gate (name : string) : bool :=
  let user_defined_gate := is_user_defined_gate name in
  (bool_decide (name ∈ QASM_TO_PYTKET)
   || negb (bool_decide (COMPOSED_GATES = ∅)))
  && negb user_defined_gate.

(** [add_gate_instruction]; the conversion of the parameters to half-turns
    is part of [translate]. *)
Definition add_gate_instruction (gate_name : string) (target : list Z)
    (params : list Q) : method Gate unit :=
  λ s, match _check_and_update_qubits target s with
       | (inl e, s') => (inl e, s')
       | (inr _, s') =>
           if bool_decide (gate_name ∈ QASM_TO_PYTKET)
              || bool_decide (gate_name ∈ COMPOSED_GATES)
           then
             match translate gate_name params target with
             | inl e => (inl e, s')
             | inr gates =>
                 (inr (),
                  mkContext (circuit_qubits s') (circuit_gates s' ++ gates)
                    (measurements s') (_qubits_set s'))
             end
           else
             (inl (Exn (ValueError
                          [Lit "Gate "; Lit gate_name;
                           Lit " is not supported in pytket translations."])),
              s')
       end.

(** The body of the loop of [add_measure], on a pair of [enumerate]:
    the subscript, then [Bit(target_bit)], then the assignment. *)
Definition record_measurement (classical_targets : option (list Z))
    (pair : nat * Z) : method Gate unit :=
  λ s, let '(index, qubit) := pair in
       match (match classical_targets with
              | None => Some qubit
              | Some bits => bits !! index
              end) with
       | None => (inl (Exn IndexError), s)
       | Some target_bit =>
           if accepts_index target_bit then
             (inr (),
              mkContext (circuit_qubits s) (circuit_gates s)
                (<[qubit := target_bit]> (measurements s)) (_qubits_set s))
           else (inl TypeError, s)
       end.

(** [add_measure]; [classical_targets] is [None] by default. *)
Definition add_measure (target : list Z) (classical_targets : option (list Z))
  : method Gate unit :=
  λ s, match target with
       | [] => (inr (), s)
       | _ =>
           match _check_and_update_qubits target s with
           | (inl e, s') => (inl e, s')
           | (inr _, s') =>
               for_in (record_measurement classical_targets)
                      (zip (seq 0 (length target)) target) s'
           end
       end.

(** The set of registered qubits is the set of qubits of the circuit, and
    each of them went through [Qubit(index=...)]. *)
Definition consistent (s : state) : Prop :=
  _qubits_set s = circuit_qubits s ∧
  ∀ q, q ∈ _qubits_set s → accepts_index q = true.

Lemma consistent_init circuit : consistent (__init__ circuit).
Proof. split; [done|]. intros q. simpl. by rewrite elem_of_empty. Qed.

Lemma check_and_update_step q (s : state) :
  consistent s → accepts_index q = true →
  ∃ s', register_qubit q s = (inr (), s') ∧
    consistent s' ∧
    circuit_qubits s' = circuit_qubits s ∪ {[q]} ∧
    circuit_gates s' = circuit_gates s ∧
    measurements s' = measurements s.
Proof.
  intros [Hset Hacc] Hq. unfold register_qubit. case_bool_decide as Hin.
  - exists s. split; [done|]. split; [done|]. split; [|done].
    rewrite Hset in Hin. set_solver.
  - rewrite Hq. unfold add_qubit. simpl.
    rewrite bool_decide_eq_false_2 by (by rewrite <- Hset).
    eexists. split; [done|]. simpl. split; [split|].
    + simpl. by rewrite Hset.
    + intros x. simpl. rewrite elem_of_union, elem_of_singleton.
      intros [-> | ?]; by auto.
    + split; [set_solver|done].
Qed.

Lemma check_and_update_spec target (s : state) :
  consistent s →
  (∀ q, q ∈ target → accepts_index q = true) →
  ∃ s', _check_and_update_qubits target s = (inr (), s') ∧
    consistent s' ∧
    circuit_qubits s' = circuit_qubits s ∪ list_to_set target ∧
    circuit_gates s' = circuit_gates s ∧
    measurements s' = measurements s.
Proof.
  unfold _check_and_update_qubits. revert s.
  induction target as [|q target IH]; intros s Hs Hacc; cbn [for_in].
  - exists s. split; [done|]. split; [done|]. split; [|done].
    simpl. set_solver.
  - destruct (check_and_update_step q s Hs) as (s1 & -> & Hs1 & Hq1 & Hg1 & Hm1).
    { apply Hacc. by left. }
    destruct (IH s1 Hs1) as (s' & -> & Hs' & Hq' & Hg' & Hm').
    { intros x Hx. apply Hacc. by right. }
    exists s'. split; [done|]. split; [done|]. split; [|split; congruence].
    rewrite Hq', Hq1. simpl. set_solver.
Qed.

(** A refused index stops the loop with a [TypeError], the qubits before it
    having been registered. *)
Lemma check_and_update_refused accepted refused rest (s : state) :
  consistent s →
  (∀ q, q ∈ accepted → accepts_index q = true) →
  accepts_index refused = false →
  ∃ s', _check_and_update_qubits (accepted ++ refused :: rest) s
          = (inl TypeError, s') ∧
    consistent s' ∧
    circuit_qubits s' = circuit_qubits s ∪ list_to_set accepted ∧
    circuit_gates s' = circuit_gates s ∧
    measurements s' = measurements s.
Proof.
  unfold _check_and_update_qubits. revert s.
  induction accepted as [|q accepted IH]; intros s Hs Hacc Hbad; cbn [app for_in].
  - unfold register_qubit. rewrite bool_decide_eq_false_2, Hbad.
    + exists s. split; [done|]. split; [done|]. split; [|done].
      simpl. set_solver.
    + intros Hin. apply Hs in Hin. congruence.
  - destruct (check_and_update_step q s Hs) as (s1 & -> & Hs1 & Hq1 & Hg1 & Hm1).
    { apply Hacc. by left. }
    destruct (IH s1 Hs1) as (s' & -> & Hs' & Hq' & Hg' & Hm'); [|done|].
    { intros x Hx. apply Hacc. by right. }
    exists s'. split; [done|]. split; [done|]. split; [|split; congruence].
    rewrite Hq', Hq1. simpl. set_solver.
Qed.

Lemma refused_of_negative q : (q < 0)%Z ∨ accepts_index q = false →
  accepts_index q = false.
Proof.
  intros [Hneg|?]; [|done]. destruct (accepts_index q) eqn:E; [|done].
  apply accepts_index_nonneg in E. lia.
Qed.

(** A context starts with no qubit, no gate, no measurement and an empty
    qubit set, whatever circuit is passed to it.  On a context whose qubit
    set is the set of qubits of its circuit, all of them accepted by pytket:
    when pytket accepts every target index, [_check_and_update_qubits] does
    not raise (no qubit is added to the circuit twice, also when [target]
    repeats a qubit), keeps that agreement, leaves the circuit with its
    former qubits and the target qubits, and changes neither the gates nor
    the measurements; when [target] has an index that pytket refuses, a
    negative one for instance, it raises a [TypeError] at the first such
    index, the targets before it having been added. *)
Theorem check_and_update_qubits_registers (target : list Z) (s : state) :
  consistent s →
  (∀ circuit, __init__ circuit = mkContext ∅ [] ∅ ∅) ∧
  ((∀ q, q ∈ target → accepts_index q = true) →
   ∃ s', _check_and_update_qubits target s = (inr (), s') ∧
     consistent s' ∧
     circuit_qubits s' = circuit_qubits s ∪ list_to_set target ∧
     circuit_gates s' = circuit_gates s ∧
     measurements s' = measurements s) ∧
  (∀ accepted refused rest,
     target = accepted ++ refused :: rest →
     (∀ q, q ∈ accepted → accepts_index q = true) →
     (refused < 0)%Z ∨ accepts_index refused = false →
     ∃ s', _check_and_update_qubits target s = (inl TypeError, s') ∧
       consistent s' ∧
       circuit_qubits s' = circuit_qubits s ∪ list_to_set accepted ∧
       circuit_gates s' = circuit_gates s ∧
       measurements s' = measurements s).
Proof.
  intros Hs. split; [done|]. split.
  - by apply check_and_update_spec.
  - intros accepted refused rest -> Hacc Hbad%refused_of_negative.
    by apply check_and_update_refused.
Qed.

(** When the table of composed gates is not empty, [is_builtin_gate]
    answers for every name that is not user-defined that it is built in,
    also for a name of no table.  For a name of no table and target indices
    that pytket accepts, [add_gate_instruction] raises its [ValueError]
    after it has added the target qubits to the circuit; with a target index
    that pytket refuses, a negative one for instance, it raises the
    [TypeError] of that index whatever the name of the gate is. *)
Theorem builtin_gate_without_translation (gate_name : string)
    (target : list Z) (params : list Q) (s : state) :
  COMPOSED_GATES ≠ ∅ →
  consistent s →
  is_builtin_gate gate_name = negb (is_user_defined_gate gate_name) ∧
  (gate_name ∉ QASM_TO_PYTKET → gate_name ∉ COMPOSED_GATES →
   (∀ q, q ∈ target → accepts_index q = true) →
   ∃ s', add_gate_instruction gate_name target params s
           = (inl (Exn (ValueError
                          [Lit "Gate "; Lit gate_name;
                           Lit " is not supported in pytket translations."])),
              s') ∧
         circuit_qubits s' = circuit_qubits s ∪ list_to_set target ∧
         circuit_gates s' = circuit_gates s) ∧
  (∀ accepted refused rest,
     target = accepted ++ refused :: rest →
     (∀ q, q ∈ accepted → accepts_index q = true) →
     (refused < 0)%Z ∨ accepts_index refused = false →
     ∃ s', add_gate_instruction gate_name target params s
             = (inl TypeError, s') ∧
           circuit_gates s' = circuit_gates s).
Proof.
  intros Hne Hs. split; [|split].
  - unfold is_builtin_gate. rewrite (bool_decide_eq_false_2 _ Hne). simpl.
    by rewrite orb_true_r.
  - intros H1 H2 Hacc. unfold add_gate_instruction.
    destruct (check_and_update_spec target s Hs Hacc)
      as (s' & -> & _ & Hq & Hg & _).
    rewrite (bool_decide_eq_false_2 _ H1), (bool_decide_eq_false_2 _ H2). simpl.
    by exists s'.
  - intros accepted refused rest -> Hacc Hbad%refused_of_negative.
    unfold add_gate_instruction.
    destruct (check_and_update_refused accepted refused rest s Hs Hacc Hbad)
      as (s' & -> & _ & _ & Hg & _).
    by exists s'.
Qed.

Lemma record_default target k (s : state) :
  (∀ q, q ∈ target → accepts_index q = true) →
  ∃ s', for_in (record_measurement None) (zip (seq k (length target)) target) s
          = (inr (), s') ∧
    circuit_qubits s' = circuit_qubits s ∧
    circuit_gates s' = circuit_gates s ∧
    ∀ q, measurements s' !! q
         = if decide (q ∈ target) then Some q else measurements s !! q.
Proof.
  revert k s. induction target as [|q0 target IH]; intros k s Hacc.
  - exists s. split; [done|]. split; [done|]. split; [done|]. intros q.
    rewrite decide_False; [done|]. by intros ?%elem_of_nil.
  - cbn [length seq zip zip_with for_in record_measurement].
    rewrite (Hacc q0) by by left.
    destruct (IH (S k) (mkContext (circuit_qubits s) (circuit_gates s)
                          (<[q0 := q0]> (measurements s)) (_qubits_set s)))
      as (s' & -> & Hq & Hg & Hm).
    { intros x Hx. apply Hacc. by right. }
    exists s'. split; [done|]. split; [done|]. split; [done|]. intros q.
    rewrite Hm. simpl.
    destruct (decide (q ∈ target)) as [Hin|Hin].
    + rewrite decide_True; [done|]. by right.
    + destruct (decide (q = q0)) as [->|Hne'].
      * rewrite lookup_insert_eq, decide_True; [done|]. by left.
      * rewrite lookup_insert_ne by done. rewrite decide_False; [done|].
        by intros [?|?]%elem_of_cons.
Qed.

Lemma record_classical bits target k (s : state) :
  k + length target ≤ length bits →
  (∀ b, b ∈ bits → accepts_index b = true) →
  ∃ s', for_in (record_measurement (Some bits))
          (zip (seq k (length target)) target) s = (inr (), s') ∧
    circuit_qubits s' = circuit_qubits s ∧
    circuit_gates s' = circuit_gates s ∧
    (∀ q, q ∉ target → measurements s' !! q = measurements s !! q) ∧
    (NoDup target → ∀ i q b, target !! i = Some q → bits !! (k + i) = Some b →
       measurements s' !! q = Some b).
Proof.
  revert k s. induction target as [|q0 target IH]; intros k s Hlen Hacc.
  - exists s. split; [done|]. split; [done|]. split; [done|]. split; [done|].
    by intros _ i q b ?.
  - cbn [length seq zip zip_with for_in record_measurement]. simpl in Hlen.
    destruct (lookup_lt_is_Some_2 bits k) as [b0 Hb0]; [lia|]. rewrite Hb0.
    rewrite (Hacc b0) by (by eapply list_elem_of_lookup_2).
    destruct (IH (S k) (mkContext (circuit_qubits s) (circuit_gates s)
                          (<[q0 := b0]> (measurements s)) (_qubits_set s)))
      as (s' & -> & Hq & Hg & Hout & Hin); [lia|done|].
    exists s'. split; [done|]. split; [done|]. split; [done|]. split.
    + intros q Hq'. rewrite Hout by (intros ?; apply Hq'; by right).
      simpl. rewrite lookup_insert_ne; [done|]. intros ->. apply Hq'. by left.
    + intros [Hq0 Hnd]%NoDup_cons [|i] q b Hi Hb; simpl in Hi.
      * simplify_eq. rewrite Nat.add_0_r in Hb. rewrite Hout by done.
        simpl. rewrite lookup_insert_eq. congruence.
      * apply (Hin Hnd i q b Hi).
        by replace (S k + i)%nat with (k + S i)%nat by lia.
Qed.

Lemma record_classical_short bits target k (s : state) :
  k ≤ length bits → length bits < k + length target →
  (∀ b, b ∈ bits → accepts_index b = true) →
  ∃ s', for_in (record_measurement (Some bits))
          (zip (seq k (length target)) target) s = (inl (Exn IndexError), s') ∧
    circuit_qubits s' = circuit_qubits s ∧
    circuit_gates s' = circuit_gates s.
Proof.
  revert k s. induction target as [|q0 target IH]; intros k s Hk Hlen Hacc.
  - simpl in Hlen. lia.
  - cbn [length seq zip zip_with for_in record_measurement]. simpl in Hlen.
    destruct (bits !! k) as [b0|] eqn:Hb0.
    + apply lookup_lt_Some in Hb0 as Hlt.
      rewrite (Hacc b0) by (by eapply list_elem_of_lookup_2).
      destruct (IH (S k) (mkContext (circuit_qubits s) (circuit_gates s)
                            (<[q0 := b0]> (measurements s)) (_qubits_set s)))
        as (s' & -> & Hq & Hg); [lia|lia|done|].
      by exists s'.
    + by exists s.
Qed.

(** [add_measure] on a context whose qubit set is the set of qubits of its
    circuit, all of them accepted by pytket.  With target indices that
    pytket accepts: without classical targets it does not raise and
    afterwards every target qubit is measured into the bit of its own index,
    the other measurements being kept; with classical targets that pytket
    accepts and that are at least as many as the qubits it does not raise,
    the entries of the other qubits are kept and, the target qubits being
    distinct, the qubit at position [i] is measured into the classical
    target at position [i]; with fewer classical targets it raises an
    [IndexError], the target qubits having been added to the circuit.  With
    a target index that pytket refuses, a negative one for instance, it
    raises a [TypeError] and measures nothing.  The gates of the circuit are
    never changed. *)
Theorem add_measure_records (target : list Z)
    (classical_targets : option (list Z)) (s : state) :
  consistent s →
  ((∀ q, q ∈ target → accepts_index q = true) →
   match classical_targets with
   | None =>
       ∃ s', add_measure target None s = (inr (), s') ∧
         circuit_gates s' = circuit_gates s ∧
         ∀ q, measurements s' !! q
              = if decide (q ∈ target) then Some q else measurements s !! q
   | Some bits =>
       (∀ b, b ∈ bits → accepts_index b = true) →
       if decide (length target ≤ length bits) then
         ∃ s', add_measure target (Some bits) s = (inr (), s') ∧
           circuit_gates s' = circuit_gates s ∧
           (∀ q, q ∉ target → measurements s' !! q = measurements s !! q) ∧
           (NoDup target → ∀ i q b,
              target !! i = Some q → bits !! i = Some b →
              measurements s' !! q = Some b)
       else
         ∃ s', add_measure target (Some bits) s = (inl (Exn IndexError), s') ∧
           circuit_gates s' = circuit_gates s ∧
           circuit_qubits s' = circuit_qubits s ∪ list_to_set target
   end) ∧
  (∀ accepted refused rest,
     target = accepted ++ refused :: rest →
     (∀ q, q ∈ accepted → accepts_index q = true) →
     (refused < 0)%Z ∨ accepts_index refused = false →
     ∃ s', add_measure target classical_targets s = (inl TypeError, s') ∧
       circuit_gates s' = circuit_gates s ∧
       measurements s' = measurements s).
Proof.
  intros Hs. split.
  - intros Hacc.
    destruct (check_and_update_spec target s Hs Hacc)
      as (s1 & Hreg & _ & Hq1 & Hg1 & Hm1).
    destruct classical_targets as [bits|].
    + intros Hbits.
      destruct (decide (length target ≤ length bits)) as [Hlen|Hlen].
      * destruct target as [|q0 target].
        { exists s. split; [done|]. split; [done|]. split; [done|].
          by intros _ i q b ?. }
        unfold add_measure. rewrite Hreg.
        destruct (record_classical bits (q0 :: target) 0 s1 Hlen Hbits)
          as (s' & -> & _ & Hg & Hout & Hin).
        exists s'. split; [done|]. split; [congruence|]. split.
        -- intros q Hq'. rewrite Hout by done. by rewrite Hm1.
        -- done.
      * destruct target as [|q0 target]; [simpl in Hlen; lia|].
        unfold add_measure. rewrite Hreg.
        destruct (record_classical_short bits (q0 :: target) 0 s1)
          as (s' & -> & Hq & Hg); [lia|lia|done|].
        exists s'. split; [done|]. split; congruence.
    + destruct target as [|q0 target].
      { exists s. split; [done|]. split; [done|]. intros q.
        rewrite decide_False; [done|]. by intros ?%elem_of_nil. }
      unfold add_measure. rewrite Hreg.
      destruct (record_default (q0 :: target) 0 s1 Hacc)
        as (s' & -> & _ & Hg & Hm).
      exists s'. split; [done|]. split; [congruence|].
      intros q. by rewrite Hm, Hm1.
  - intros accepted refused rest -> Hacc Hbad%refused_of_negative.
    destruct (check_and_update_refused accepted refused rest s Hs Hacc Hbad)
      as (s' & Hrun & _ & _ & Hg & Hm).
    exists s'. split; [|done]. unfold add_measure. rewrite Hrun.
    by destruct accepted.
Qed.

End context.

(** The indices of an unsigned 32-bit integer. *)
Definition unsigned_index (q : Z) : bool := bool_decide (0 ≤ q < 2 ^ 32)%Z.

Lemma unsigned_index_nonneg q : unsigned_index q = true → (0 ≤ q)%Z.
Proof. unfold unsigned_index. intros H%bool_decide_eq_true. lia. Qed.

(** Every index of a given list is accepted. *)
Local Ltac all_accepted :=
  apply Forall_forall; repeat (constructor; [vm_compute; reflexivity|]);
  constructor.

Lemma add_measure_records_witness :
  (∃ s', add_measure unit unsigned_index [2; 5]%Z (Some [7; 8; 9]%Z)
           (__init__ unit None) = (inr (), s') ∧
         measurements s' !! 5%Z = Some 8%Z) ∧
  (∃ s', add_measure unit unsigned_index [2; -1]%Z (Some [7; 8; 9]%Z)
           (__init__ unit None) = (inl TypeError, s') ∧
         measurements s' = ∅).
Proof.
  destruct (add_measure_records unit unsigned_index unsigned_index_nonneg
              [2; 5]%Z (Some [7; 8; 9]%Z) (__init__ unit None)
              (consistent_init unit unsigned_index None)) as [Hok _].
  destruct (add_measure_records unit unsigned_index unsigned_index_nonneg
              [2; -1]%Z (Some [7; 8; 9]%Z) (__init__ unit None)
              (consistent_init unit unsigned_index None)) as [_ Hbad].
  split.
  - destruct Hok as (s' & Hrun & _ & _ & Hin).
    + all_accepted.
    + all_accepted.
    + exists s'. split; [exact Hrun|].
      apply (Hin ltac:(by apply (bool_decide_eq_true_1 (NoDup [2; 5]%Z))) 1%nat);
        reflexivity.
  - destruct (Hbad [2%Z] (-1)%Z []) as (s' & Hrun & _ & Hm).
    + reflexivity.
    + all_accepted.
    + left. lia.
    + exists s'. split; [exact Hrun|exact Hm].
Defined.

Lemma check_and_update_qubits_registers_witness :
  (∃ s', _check_and_update_qubits unit unsigned_index [1; 0; 1]%Z
           (__init__ unit None) = (inr (), s') ∧
         circuit_qubits s' = ∅ ∪ list_to_set [1; 0; 1]%Z) ∧
  (∃ s', _check_and_update_qubits unit unsigned_index [1; -1; 0]%Z
           (__init__ unit None) = (inl TypeError, s') ∧
         circuit_qubits s' = ∅ ∪ list_to_set [1%Z]).
Proof.
  destruct (check_and_update_qubits_registers unit unsigned_index
              unsigned_index_nonneg [1; 0; 1]%Z (__init__ unit None)
              (consistent_init unit unsigned_index None)) as (_ & Hok & _).
  destruct (check_and_update_qubits_registers unit unsigned_index
              unsigned_index_nonneg [1; -1; 0]%Z (__init__ unit None)
              (consistent_init unit unsigned_index None)) as (_ & _ & Hbad).
  split.
  - destruct Hok as (s' & Hrun & _ & Hq & _).
    + all_accepted.
    + by exists s'.
  - destruct (Hbad [1%Z] (-1)%Z [0%Z]) as (s' & Hrun & _ & Hq & _).
    + reflexivity.
    + all_accepted.
    + left. lia.
    + by exists s'.
Defined.

Lemma builtin_gate_without_translation_witness :
  is_builtin_gate {["x"]} {["prx"]} (λ _, false) "no_such_gate" = true ∧
  ∃ s', add_gate_instruction unit {["x"]} {["prx"]} (λ _ _ _, inr [tt])
          unsigned_index "no_such_gate" [3%Z] [] (__init__ unit None)
        = (inl (Exn (ValueError
                       [Lit "Gate "; Lit "no_such_gate";
                        Lit " is not supported in pytket translations."])),
           s').
Proof.
  destruct (builtin_gate_without_translation unit {["x"]} {["prx"]}
              (λ _ _ _, inr [tt]) (λ _, false) unsigned_index
              unsigned_index_nonneg "no_such_gate" [3%Z] []
              (__init__ unit None)) as (Hb & Hadd & _).
  - intros E. apply (f_equal (λ X : gset string, bool_decide ("prx" ∈ X))) in E.
    vm_compute in E. discriminate E.
  - apply consistent_init.
  - split; [exact Hb|].
    destruct Hadd as (s' & Hrun & _).
    + apply (bool_decide_eq_false_1 ("no_such_gate" ∈ ({["x"]} : gset string))).
      vm_compute. reflexivity.
    + apply (bool_decide_eq_false_1 ("no_such_gate" ∈ ({["prx"]} : gset string))).
      vm_compute. reflexivity.
    + all_accepted.
    + by exists s'.
Defined.

End pytket_program_context.

(** * ahs_noisy_pass.py: how many amplitude values the pass produces *)

Module amplitude_count.
Import ahs_noisy_pass.

(** [_apply_amplitude_errors], whatever the random draws and the
    interpolation kernel are.  The noise data come first: a ramp time zero
    in the curve raises [ZeroDivisionError], and a curve without points the
    [ValueError] of [interp1d], whatever the series is.  With a curve that
    has a point and no ramp time zero: an empty series raises
    [IndexError]; otherwise the grid has [steps] times from zero to the last
    time of the series, the values are as many as there are pairs of a
    segment of the series and a grid time in it (both end points of a
    segment included, in the binary64 comparison), none of them is
    negative, and [TimeSeries.from_lists] is reached: the step returns the
    two lists when the values are [steps] and raises the [ValueError] of the
    two lengths otherwise. *)
Theorem amplitude_value_count (normal : nat → float)
    (interp1d_at : list float → list float → float → float)
    (noise_data : AhsNoiseData) (amplitude : list (float * float))
    (steps k : nat) :
  let curve := rabi_amplitude_ramp_correction noise_data in
  let result := _apply_amplitude_errors normal interp1d_at noise_data
                  amplitude steps k in
  (∀ before corr after,
     curve = before ++ corr :: after → (rampTime corr =? 0)%float = true →
     result = (inl ZeroDivisionError, k)) ∧
  (curve = [] → result = (inl (ValueError NoSamplePoints), k)) ∧
  (curve ≠ [] →
   (∀ corr, corr ∈ curve → (rampTime corr =? 0)%float = false) →
   (amplitude = [] → result = (inl IndexError, k)) ∧
   (∀ last_time, last (fst <$> amplitude) = Some last_time →
      let grid := linspace 0 last_time steps in
      let count :=
        sum_list
          ((λ pp : (float * float) * (float * float),
              length (filter (λ t, (pp.1.1 <=? t)%float
                                   && (t <=? pp.2.1)%float = true) grid))
           <$> zip amplitude (tail amplitude)) in
      length grid = steps ∧
      if decide (steps = count) then
        ∃ values,
          result = (inr (mkTimeSeries grid values), (k + count)%nat) ∧
          length values = steps ∧
          Forall (λ value, (0 <=? value)%float = true) values
      else
        result = (inl (ValueError (LengthsDiffer steps count)),
                  (k + count)%nat))).
Proof.
  intros curve result. unfold result, _apply_amplitude_errors.
  split; [|split].
  - intros before corr after Hc Hz.
    by rewrite (Rnd_bind_error _ _ _ _ _
                  (noisy_amplitude_lists_zero_ramp_time normal interp1d_at
                     noise_data amplitude steps k before corr after Hc Hz)).
  - intros Hc.
    by rewrite (Rnd_bind_error _ _ _ _ _
                  (noisy_amplitude_lists_no_points normal interp1d_at
                     noise_data amplitude steps k Hc)).
  - intros Hne Hall. assert (Hv : valid_curve noise_data) by done. split.
    + intros ->.
      by rewrite (Rnd_bind_error _ _ _ _ _
                    (noisy_amplitude_lists_empty normal interp1d_at
                       noise_data steps k Hv)).
    + intros last_time Hlast.
      destruct (noisy_amplitude_lists_ok normal interp1d_at noise_data
                  amplitude steps k last_time Hv Hlast)
        as (values & Hlists & Hlen & Hpos).
      unfold value_count, in_segment in Hlists, Hlen.
      set (grid := linspace 0 last_time steps) in *.
      set (count := sum_list _) in *.
      assert (Hg : length grid = steps) by apply length_linspace.
      split; [done|].
      rewrite (Rnd_bind_ok _ _ _ _ _ Hlists). cbn beta iota.
      unfold lift, from_lists. rewrite Hg, Hlen.
      case_decide as Hsteps; [|done].
      exists values. split; [done|]. split; [congruence|done].
Qed.

(** A grid of eleven times from zero to one on a series with an inner point
    at [0.3]: the fourth grid time is [3 * 0.1 = 0.30000000000000004], past
    the inner point, so that no grid time is counted twice and the step
    returns; on the series with the inner point at [0.5], which is the sixth
    grid time, the values are twelve and the step raises. *)
Example inner_point_on_the_grid :
  let noise_data :=
    (mkAhsNoiseData 0 0 0 0 [mkRampCorrection 1 1] 0 1 0 0 0 0)%float in
  let step amplitude :=
    _apply_amplitude_errors (λ _, 0%float) (λ _ _ x, x) noise_data
      amplitude 11 0 in
  (∃ series,
     step [(0, 0); (Z2float 3 / Z2float 10, 1); (1, 0)]%float
     = (inr series, 11%nat)) ∧
  step [(0, 0); (Z2float 1 / Z2float 2, 1); (1, 0)]%float
  = (inl (ValueError (LengthsDiffer 11 12)), 12%nat).
Proof. split; [eexists|]; vm_compute; reflexivity. Qed.

End amplitude_count.

(** * ahs_noisy_pass.py: the channels of the noise *)

Module noise_channels.
Import ahs_noisy_pass.

(** The pass, whatever the random draws and the interpolation kernels are,
    on noise data whose five probabilities are in [[0, 1]].  The lattice
    step returns, having drawn five times for every site.  When the
    detuning series is empty the pass raises [IndexError] there.
    Otherwise, on a ramp-correction curve with a point and no ramp time
    zero and an amplitude series with a point, the pass returns exactly
    when the amplitude values are as many as the grid times, and raises the
    [ValueError] of [TimeSeries.from_lists] otherwise.  When it returns:
    the register keeps its number of sites; the phase is the phase of the
    input; the detuning is given on the grid of [steps] times from zero to
    the last detuning time, with [steps] values; and the program carries a
    local detuning on that grid with the constant magnitude
    [detuning_inhomogeneity * 1] and a pattern of one value for every
    site. *)
Theorem noise_pass_channels (normal : nat → float)
    (binomial : nat → float → Z) (uniform : nat → float)
    (np_interp_at interp1d_at : list float → list float → float → float)
    (noise_data : AhsNoiseData) (program : AnalogHamiltonianSimulation)
    (steps k : nat) :
  ((0 <=? filling_error noise_data) && (filling_error noise_data <=? 1)
   = true)%float →
  ((0 <=? vacancy_error noise_data) && (vacancy_error noise_data <=? 1)
   = true)%float →
  ((0 <=? ground_prep_error noise_data) && (ground_prep_error noise_data <=? 1)
   = true)%float →
  ((0 <=? atom_detection_error_false_positive noise_data)
   && (atom_detection_error_false_positive noise_data <=? 1) = true)%float →
  ((0 <=? atom_detection_error_false_negative noise_data)
   && (atom_detection_error_false_negative noise_data <=? 1) = true)%float →
  let result := run normal binomial uniform np_interp_at interp1d_at
                  noise_data program steps k in
  let sites := length (register program) in
  (detuning (hamiltonian program) = [] →
   result = (inl IndexError, (k + 5 * sites)%nat)) ∧
  (∀ last_detuning last_amplitude,
     last (fst <$> detuning (hamiltonian program)) = Some last_detuning →
     last (fst <$> amplitude (hamiltonian program)) = Some last_amplitude →
     rabi_amplitude_ramp_correction noise_data ≠ [] →
     (∀ corr, corr ∈ rabi_amplitude_ramp_correction noise_data →
              (rampTime corr =? 0)%float = false) →
     let grid := linspace 0 last_amplitude steps in
     let count :=
       sum_list
         ((λ pp : (float * float) * (float * float),
             length (filter (λ t, (pp.1.1 <=? t)%float
                                  && (t <=? pp.2.1)%float = true) grid))
          <$> zip (amplitude (hamiltonian program))
                  (tail (amplitude (hamiltonian program)))) in
     let draws := (k + 5 * sites + steps + sites + count)%nat in
     if decide (steps = count) then
       ∃ out,
         result = (inr out, draws) ∧
         length (noisy_register out) = sites ∧
         noisy_phase out = phase (hamiltonian program) ∧
         ts_times (noisy_amplitude out) = grid ∧
         length (ts_values (noisy_amplitude out)) = steps ∧
         ts_times (noisy_detuning out) = linspace 0 last_detuning steps ∧
         length (ts_times (noisy_detuning out)) = steps ∧
         length (ts_values (noisy_detuning out)) = steps ∧
         local_detuning_magnitude out
         = mkTimeSeries (linspace 0 last_detuning steps)
             ((λ _, detuning_inhomogeneity noise_data * 1)%float
                <$> linspace 0 last_detuning steps) ∧
         length (local_detuning_pattern out) = sites
     else
       result = (inl (ValueError (LengthsDiffer steps count)), draws)).
Proof.
  intros H1 H2 H3 H4 H5 result sites.
  assert (Hp : valid_probabilities noise_data) by done.
  split.
  - intros Hd. unfold result, run, _apply_noise_model, _apply_rydberg_noise.
    destruct (_apply_lattice_initialization_errors_ok normal binomial
                noise_data program k Hp) as (s & f & ps & E1 & _).
    rewrite (Rnd_bind_ok _ _ _ _ _ E1). cbn beta iota. rewrite Hd.
    erewrite (Rnd_bind_error _ _ _ IndexError); [done|].
    by rewrite (Rnd_bind_error _ _ _ _ _
                  (_apply_detuning_errors_empty normal uniform np_interp_at
                     noise_data _ _ _)).
  - intros last_detuning last_amplitude Hd Ha Hne Hall grid count draws.
    destruct (run_outcome normal binomial uniform np_interp_at interp1d_at
                noise_data program steps k last_detuning last_amplitude)
      as (values & _ & Hlen & _ & Hrun); [done|done|done|done|].
    fold grid in Hrun, Hlen.
    change (value_count grid (amplitude (hamiltonian program)))
      with count in Hrun, Hlen.
    assert (Hdraws : (k + 5 * length (register program) + steps
                      + 1 * length (filling_of program) + count)%nat = draws).
    { unfold draws, sites, filling_of. rewrite length_fmap. lia. }
    rewrite Hdraws in Hrun. fold result in Hrun.
    case_decide as Hsteps; [|done].
    destruct Hrun as (out & Hout & Hreg & Hamp & Hdt & Hdv & Hph & Hloc & Hpat).
    exists out. split; [done|]. split; [done|]. split; [done|].
    rewrite Hamp. simpl. split; [done|]. split; [congruence|].
    split; [done|]. split; [by rewrite Hdt, length_linspace|].
    split; [done|]. split; done.
Qed.

Lemma noise_pass_channels_witness :
  ∃ out,
    run (λ _, 0%float) (λ _ _, 0%Z) (λ _, 0%float) (λ _ _ x, x) (λ _ _ x, x)
      sample_noise_data test_program 100 0 = (inr out, 224%nat) ∧
    length (noisy_register out) = 4%nat ∧
    noisy_phase out = phase (hamiltonian test_program) ∧
    length (ts_values (noisy_amplitude out)) = 100%nat ∧
    length (ts_values (noisy_detuning out)) = 100%nat ∧
    length (local_detuning_pattern out) = 4%nat.
Proof.
  destruct (noise_pass_channels (λ _, 0%float) (λ _ _, 0%Z) (λ _, 0%float)
              (λ _ _ x, x) (λ _ _ x, x) sample_noise_data test_program 100 0)
    as [_ Hrun]; try reflexivity.
  specialize (Hrun (Z2float 40 / Z2float 10000000)%float
                (Z2float 40 / Z2float 10000000)%float).
  cbv zeta in Hrun.
  assert (Hcount :
    sum_list
      ((λ pp : (float * float) * (float * float),
          length (filter (λ t, (pp.1.1 <=? t)%float
                               && (t <=? pp.2.1)%float = true)
                    (linspace 0 (Z2float 40 / Z2float 10000000) 100)))
       <$> zip (amplitude (hamiltonian test_program))
               (tail (amplitude (hamiltonian test_program)))) = 100%nat)
    by (vm_compute; reflexivity).
  rewrite Hcount in Hrun.
  destruct Hrun as (out & Hout & Hreg & Hph & _ & Hav & _ & _ & Hdv & _ & Hpat).
  - vm_compute. reflexivity.
  - vm_compute. reflexivity.
  - discriminate.
  - intros corr Hcorr. apply list_elem_of_singleton in Hcorr. subst corr.
    reflexivity.
  - exists out. split; [exact Hout|]. split; [exact Hreg|].
    split; [exact Hph|]. split; [exact Hav|]. split; [exact Hdv|exact Hpat].
Defined.

End noise_channels.

(** * GateConnectivityCriterion.__init__ on a graph with missing attributes *)

Module criterion_init_errors.
Import nx nx_facts nx_wf loops connectivity gate_connectivity criterion_init.

(** Invariant rule for a loop that keeps its state: the run ends either
    with the invariant on all keys, or with an exception in a state that
    [Bad] describes. *)
Lemma dict_iter_st_inv {S K : Type} (size : S → nat)
    (body : K → S → option exn * S) (Inv : list K → S → Prop)
    (Bad : exn → S → Prop) (ks : list K) (n0 : nat) :
  (∀ done k s, Inv done s → k ∈ ks →
     match body k s with
     | (None, s') => size s' = n0 ∧ Inv (done ++ [k]) s'
     | (Some e, s') => Bad e s'
     end) →
  ∀ done s, Inv done s →
    match dict_iter_st size body ks n0 s with
    | (None, s') => Inv (done ++ ks) s'
    | (Some e, s') => Bad e s'
    end.
Proof.
  induction ks as [|k ks IH]; intros Hbody done s Hs; simpl.
  - by rewrite app_nil_r.
  - pose proof (Hbody done k s Hs (list_elem_of_here _ _)) as Hk.
    destruct (body k s) as [[e|] s']; [done|]. destruct Hk as [Hsz Hs'].
    rewrite decide_True by done.
    pose proof (IH (λ d x y H1 H2, Hbody d x y H1 (list_elem_of_further _ _ _ H2))
                  (done ++ [k]) s' Hs') as Hrest.
    by rewrite <- app_assoc in Hrest.
Qed.

Lemma for_edges_st_spec (body : node → node → DiGraph → option exn * DiGraph)
    (Inv : DiGraph → Prop) (Post : node → node → DiGraph → Prop)
    (Bad : exn → DiGraph → Prop) (g : DiGraph) :
  Inv g →
  (∀ s u v, Inv s → edge s u v →
     match body u v s with
     | (None, s') => body_ok Inv Post u v s s'
     | (Some e, s') => Bad e s'
     end) →
  match for_edges_st body g with
  | (None, g') => Inv g' ∧ ∀ u v, edge g u v → edge g' u v ∧ Post u v g'
  | (Some e, g') => Bad e g'
  end.
Proof.
  intros Hg Hbody. unfold for_edges_st.
  set (Outer := λ (done : list node) (s : DiGraph),
         Inv s ∧ length (adj s) = length (adj g) ∧
         (∀ a b, edge g a b → edge s a b) ∧
         (∀ u v, u ∈ done → edge g u v → Post u v s)).
  assert (Hout : ∀ done u s, Outer done s → u ∈ Dict.keys (adj g) →
            match dict_iter_st (λ s, length (succ s u)) (body u)
                    (Dict.keys (succ s u)) (length (succ s u)) s with
            | (None, s') =>
                length (adj s') = length (adj g) ∧ Outer (done ++ [u]) s'
            | (Some e, s') => Bad e s'
            end).
  { intros done u s (HI & Hlen & Hmono & Hpost) Hu.
    set (Inner := λ (dn : list node) (s' : DiGraph),
           Inv s' ∧ length (adj s') = length (adj s) ∧
           length (succ s' u) = length (succ s u) ∧
           (∀ a b, edge s a b → edge s' a b) ∧
           (∀ a b, Post a b s → Post a b s') ∧
           (∀ v, v ∈ dn → Post u v s')).
    assert (Hin : ∀ dn v s1, Inner dn s1 → v ∈ Dict.keys (succ s u) →
              match body u v s1 with
              | (None, s2) =>
                  length (succ s2 u) = length (succ s u) ∧ Inner (dn ++ [v]) s2
              | (Some e, s2) => Bad e s2
              end).
    { intros dn v s1 (HI1 & Hl1 & Hs1 & Hm1 & Hst1 & Hv1) Hv.
      apply elem_of_succ_keys in Hv.
      pose proof (Hbody s1 u v HI1 (Hm1 _ _ Hv)) as Hb.
      destruct (body u v s1) as [[e|] s2]; [done|].
      destruct Hb as [? ? ? ? ? ?].
      split; [congruence|].
      unfold Inner. repeat split; [done|congruence|congruence|by auto|by auto|].
      intros w [Hw|Hw%list_elem_of_singleton]%elem_of_app; [by auto|by subst]. }
    pose proof (dict_iter_st_inv _ _ Inner Bad _ _ Hin [] s) as Hrun.
    destruct (dict_iter_st (λ s0, length (succ s0 u)) (body u)
                (Dict.keys (succ s u)) (length (succ s u)) s) as [[e|] s'].
    - apply Hrun. unfold Inner. repeat split; [done|by auto|by auto|].
      by intros v ?%elem_of_nil.
    - destruct Hrun as (HI' & Hlen' & _ & Hmono' & Hst & Hvis).
      { unfold Inner. repeat split; [done|by auto|by auto|].
        by intros v ?%elem_of_nil. }
      split; [congruence|].
      unfold Outer. repeat split; [done|congruence|by auto|].
      intros w v [Hw|Hw%list_elem_of_singleton]%elem_of_app He;
        [by eauto|subst w].
      apply Hvis. apply elem_of_succ_keys. by auto. }
  pose proof (dict_iter_st_inv _ _ Outer Bad _ _ Hout [] g) as Hrun.
  match goal with
  | |- match ?loop with _ => _ end => destruct loop as [[e|] g']
  end.
  - apply Hrun. unfold Outer. repeat split; [done|by auto|].
    by intros u v ?%elem_of_nil.
  - destruct Hrun as (HI & _ & Hmono & Hpost).
    { unfold Outer. repeat split; [done|by auto|]. by intros u v ?%elem_of_nil. }
    split; [done|]. intros u v He. split; [by auto|].
    apply Hpost; [|done]. simpl. by eapply edge_node.
Qed.

(** An edge without a reverse edge and without the attribute. *)
Definition one_way_without_gates (g : DiGraph) (u v : node) : Prop :=
  edge g u v ∧ ¬ edge g v u ∧ supported_gates g u v = None.

Section missing_attribute.
Variable g : DiGraph.

Definition partial_inv (s : DiGraph) : Prop :=
  closed s ∧
  (∀ a b, edge g a b → edge_data s a b = edge_data g a b) ∧
  (∀ a b, edge s a b →
          edge g a b ∨ (edge g b a ∧ is_Some (supported_gates g b a))).

Definition key_error (e : exn) (s : DiGraph) : Prop :=
  e = KeyError ∧ (∃ u v, one_way_without_gates g u v) ∧ partial_inv s.

Lemma add_missing_back_edge_outcome s u v :
  partial_inv s → edge s u v →
  match add_missing_back_edge u v s with
  | (None, s') =>
      body_ok partial_inv
        (λ u v _, is_Some (supported_gates g u v) ∨ edge g v u) u v s s'
  | (Some e, s') => key_error e s'
  end.
Proof.
  intros HI Huv. pose proof HI as (Hcs & Hd & Hsub).
  assert (Hmono : ∀ a b, edge g a b → edge s a b).
  { intros a b He. unfold edge. by rewrite Hd. }
  unfold add_missing_back_edge.
  destruct (has_edge s v u) eqn:Evu; simpl.
  - apply has_edge_true in Evu. split; try done.
    destruct (Hsub _ _ Evu) as [?|[_ ?]]; [by right|by left].
  - apply has_edge_false in Evu.
    assert (Hg : edge g u v).
    { destruct (Hsub _ _ Huv) as [?|[? _]]; [done|].
      exfalso. apply Evu. by apply Hmono. }
    assert (Hngvu : ¬ edge g v u) by (intros ?; apply Evu; by apply Hmono).
    unfold get_edge_attr.
    change (edge_attr s u v "supported_gates") with (supported_gates s u v).
    rewrite (supported_gates_data s g u v (Hd _ _ Hg)).
    destruct (supported_gates g u v) as [x|] eqn:Hx; simpl.
    + split.
      * split; [by apply closed_add_edge|]. split.
        -- intros a b Hab. rewrite edge_data_add_edge.
           destruct (decide (v = a ∧ u = b)) as [[<- <-]|Hne]; [done|by auto].
        -- intros a b [[<- <-]|Hab]%edge_add_edge; [|by auto].
           right. split; [done|]. rewrite Hx. by eauto.
      * left. by eauto.
      * by apply length_adj_add_back.
      * apply length_succ_add_edge.
        destruct (decide (v = u)) as [->|]; by auto.
      * intros a b ?. apply edge_add_edge. by right.
      * done.
    + split; [done|]. split; [|done]. by exists u, v.
Qed.

Lemma add_missing_back_edges_outcome :
  closed g →
  match for_edges_st add_missing_back_edge g with
  | (None, g') =>
      partial_inv g' ∧ ¬ ∃ u v, one_way_without_gates g u v
  | (Some e, g') => key_error e g'
  end.
Proof.
  intros Hc.
  pose proof (for_edges_st_spec add_missing_back_edge partial_inv
                (λ u v _, is_Some (supported_gates g u v) ∨ edge g v u)
                key_error g) as Hrun.
  destruct (for_edges_st add_missing_back_edge g) as [[e|] g'].
  - apply Hrun; [|apply add_missing_back_edge_outcome].
    split; [done|]. split; [done|]. by auto.
  - destruct Hrun as [HI Hvis]; [|apply add_missing_back_edge_outcome|].
    { split; [done|]. split; [done|]. by auto. }
    split; [done|]. intros (u & v & Huv & Hvu & Hnone).
    destruct (Hvis u v Huv) as [_ [[x Hx]|?]]; [congruence|done].
Qed.

End missing_attribute.

(** [GateConnectivityCriterion.__init__] with [directed=False] on any
    graph: it returns or raises a [KeyError], and never the [RuntimeError] of
    a dictionary changed under iteration.  It raises exactly when some edge
    without a reverse edge has no attribute [supported_gates].  In both
    cases the caller's graph has been worked on in place: afterwards it has
    the edges of the input with their data, and besides them only reverses
    of such edges; what was added before the exception stays. *)
Theorem init_key_error (l : loc) (g : DiGraph) (h : heap) :
  h !! l = Some g → closed g →
  ∃ r g', __init__ (a_DiGraph l) false h = (r, <[l := g']> h) ∧
    (r = inr (mkGateConnectivityCriterion l) ∨ r = inl KeyError) ∧
    (r = inl KeyError ↔ ∃ u v, one_way_without_gates g u v) ∧
    (∀ u v, edge g u v → edge_data g' u v = edge_data g u v) ∧
    (∀ u v, edge g' u v → edge g u v ∨ edge g v u).
Proof.
  intros Hl Hc. pose proof (add_missing_back_edges_outcome g Hc) as Hrun.
  unfold __init__, mbind, M_bind, mutate. simpl. rewrite Hl.
  destruct (for_edges_st add_missing_back_edge g) as [[e|] g'].
  - destruct Hrun as (-> & Hbad & _ & Hd & Hsub).
    exists (inl KeyError), g'. split; [done|]. split; [by right|].
    split; [done|]. split; [done|].
    intros u v Huv. destruct (Hsub u v Huv) as [?|[? _]]; by auto.
  - destruct Hrun as ((_ & Hd & Hsub) & Hgood).
    exists (inr (mkGateConnectivityCriterion l)), g'. split; [done|].
    split; [by left|]. split; [done|]. split; [done|].
    intros u v Huv. destruct (Hsub u v Huv) as [?|[? _]]; by auto.
Qed.

Lemma init_key_error_witness :
  ∃ g', __init__ (a_DiGraph 1%positive) false
          {[1%positive := scenario_A_graph]}
        = (inl KeyError, <[1%positive := g']> {[1%positive := scenario_A_graph]}).
Proof.
  destruct (init_key_error 1%positive scenario_A_graph
              {[1%positive := scenario_A_graph]})
    as (r & g' & Hrun & _ & Hiff & _).
  - reflexivity.
  - apply closedb_closed. reflexivity.
  - exists g'. rewrite Hrun. f_equal. apply Hiff. exists 0%Z, 1%Z.
    split; [|split].
    + apply has_edge_true. reflexivity.
    + apply has_edge_false. reflexivity.
    + reflexivity.
Defined.

End criterion_init_errors.
